(** * SIR integration and inverse-fitting engine of [code/functions.py]

    Shallow embedding of the numerical core of the epidemiology flux
    model: the SIR vector field, the infectivity-matrix normalisation,
    the epidemic-size fixed point iteration, the scale calibration and
    the day-stepped integration and fit drivers.

    Conventions of the embedding.
    - A float64 is idealised as a real number ([R]); rounding, overflow
      and underflow are not modelled.  The values that float64 division
      by zero produces ([nan], [inf]) are kept apart in the type [float],
      because the control flow of the program depends on them.
    - A one-dimensional numpy array is a [list R]; a two-dimensional one
      is a shape together with an entry function ([ndarray2]).
    - A Python exception is a value of [exn]; a computation that may
      raise returns a [result].
    - Calendar dates are day ordinals ([Z]); [scipy.integrate.solve_ivp],
      [scipy.optimize.root_scalar] and the formatting of store keys are
      taken as parameters of the model. *)

From Stdlib Require Import String.
From Stdlib Require Import DecimalString.
From Stdlib Require Import Reals Lra Lia ZArith Bool Arith List Sorted.
Import ListNotations.
Local Open Scope string_scope.
Local Open Scope list_scope.
Local Open Scope R_scope.

(* ================================================================== *)
(** ** Python exceptions and fallible computations *)

Module Py.

(** The exceptions the code raises or lets through.  [ValueError] carries
    the message given at the [raise]; [ShapeError] stands for the
    [ValueError] numpy raises on operands of incompatible shapes (its
    message is numpy's own). *)
Inductive exn : Type :=
| ValueError (msg : string)
| ShapeError (operation : string)
| KeyError (key : string)
| IndexError
| ZeroDivisionError
| UnboundLocalError (name : string)
| LibraryError (origin : string).

Inductive result (A : Type) : Type :=
| Ok (a : A)
| Raise (e : exn).

Arguments Ok {A} a.
Arguments Raise {A} e.

Definition bind {A B : Type} (m : result A) (k : A -> result B) : result B :=
  match m with
  | Ok a => k a
  | Raise e => Raise e
  end.

Definition is_ok {A : Type} (m : result A) : bool :=
  match m with Ok _ => true | Raise _ => false end.

End Py.

Import Py.

Notation "x <- m ;; k" := (bind m (fun x => k))
  (at level 61, m at next level, right associativity).
Notation "' p <- m ;; k" := (bind m (fun x => match x with p => k end))
  (at level 61, p pattern, m at next level, right associativity).

(* ================================================================== *)
(** ** Numbers and arrays *)

Module Np.

(** Result of a float64 division: a real number, or one of the special
    values produced by a zero divisor. *)
Inductive float : Type :=
| Fin (r : R)
| PInf
| NInf
| NaN.

(** [a / b] on float64 scalars of numpy: no exception, [0/0] is [nan]
    and [a/0] is a signed infinity. *)
Definition fdiv (a b : R) : float :=
  if Req_dec_T b 0 then
    if Req_dec_T a 0 then NaN
    else if Rlt_dec 0 a then PInf else NInf
  else Fin (a / b).

(** [x * c] and [x - c] for a finite, non-zero-sensitive constant. *)
Definition fscale (x : float) (c : R) : float :=
  match x with
  | Fin r => Fin (r * c)
  | PInf => if Rlt_dec 0 c then PInf else if Rlt_dec c 0 then NInf else NaN
  | NInf => if Rlt_dec 0 c then NInf else if Rlt_dec c 0 then PInf else NaN
  | NaN => NaN
  end.

Definition fsub (x : float) (c : R) : float :=
  match x with
  | Fin r => Fin (r - c)
  | other => other
  end.

(** [x - y] on two float64 values. *)
Definition fminus (x y : float) : float :=
  match x, y with
  | Fin a, Fin b => Fin (a - b)
  | NaN, _ | _, NaN => NaN
  | PInf, PInf | NInf, NInf => NaN
  | PInf, _ | _, NInf => PInf
  | NInf, _ | _, PInf => NInf
  end.

(** Comparisons: every comparison with [nan] is false. *)
Definition flt (x : float) (c : R) : bool :=
  match x with
  | Fin r => if Rlt_dec r c then true else false
  | NInf => true
  | PInf | NaN => false
  end.

Definition fgt (x : float) (c : R) : bool :=
  match x with
  | Fin r => if Rlt_dec c r then true else false
  | PInf => true
  | NInf | NaN => false
  end.

(** One-dimensional arrays. *)
Definition vec : Type := list R.

(** Two-dimensional arrays: the shape and the entries. *)
Record ndarray2 : Type := mk2d {
  shape0 : nat;
  shape1 : nat;
  entry : nat -> nat -> R
}.

(** The array with the given rows (the shape is read off the rows). *)
Definition of_rows (rows : list (list R)) : ndarray2 :=
  {| shape0 := length rows;
     shape1 := length (hd [] rows);
     entry := fun i j => nth j (nth i rows []) 0 |}.

Definition row (A : ndarray2) (i : nat) : vec :=
  map (entry A i) (seq 0 (shape1 A)).

(** [sum_(j < n) f j], accumulated from index 0 upwards. *)
Fixpoint rsum (f : nat -> R) (n : nat) : R :=
  match n with
  | O => 0
  | S n' => rsum f n' + f n'
  end.

(** [np.sum] of a vector. *)
Fixpoint vsum (v : vec) : R :=
  match v with
  | [] => 0
  | x :: v' => x + vsum v'
  end.

(** [A.T]. *)
Definition transpose (A : ndarray2) : ndarray2 :=
  {| shape0 := shape1 A; shape1 := shape0 A;
     entry := fun i j => entry A j i |}.

(** [c * A] for a scalar [c]. *)
Definition mscale (c : R) (A : ndarray2) : ndarray2 :=
  {| shape0 := shape0 A; shape1 := shape1 A;
     entry := fun i j => c * entry A i j |}.

(** [A * c] for a scalar [c]. *)
Definition mscale_r (A : ndarray2) (c : R) : ndarray2 :=
  {| shape0 := shape0 A; shape1 := shape1 A;
     entry := fun i j => entry A i j * c |}.

(** Broadcasting of two axis lengths that share an einsum label or an
    array dimension: equal lengths agree, a length of 1 stretches to the
    other length, anything else is refused. *)
Definition bdim (a b : nat) : option nat :=
  if (a =? b)%nat then Some a
  else if (a =? 1)%nat then Some b
  else if (b =? 1)%nat then Some a
  else None.

(** The position read along an axis of length [n] for the index [i] of
    the broadcast axis: the only element of an axis of length 1. *)
Definition bidx (n i : nat) : nat := if (n =? 1)%nat then 0%nat else i.

(** [A + B]: entry by entry for two arrays of the same shape; otherwise
    a dimension of length 1 is broadcast against the other array's, and
    shapes that cannot be broadcast are refused. *)
Definition madd (A B : ndarray2) : result ndarray2 :=
  if (shape0 A =? shape0 B)%nat && (shape1 A =? shape1 B)%nat then
    Ok {| shape0 := shape0 A; shape1 := shape1 A;
          entry := fun i j => entry A i j + entry B i j |}
  else
    match bdim (shape0 A) (shape0 B), bdim (shape1 A) (shape1 B) with
    | Some n0, Some n1 =>
      Ok {| shape0 := n0; shape1 := n1;
            entry := fun i j =>
              entry A (bidx (shape0 A) i) (bidx (shape1 A) j)
              + entry B (bidx (shape0 B) i) (bidx (shape1 B) j) |}
    | _, _ => Raise (ShapeError "add")
    end.

(** [A.diagonal()]. *)
Definition diagonal (A : ndarray2) : vec :=
  map (fun i => entry A i i) (seq 0 (Nat.min (shape0 A) (shape1 A))).

(** [np.fill_diagonal(A, v)] for [v] as long as the diagonal. *)
Definition fill_diagonal (A : ndarray2) (v : vec) : ndarray2 :=
  {| shape0 := shape0 A; shape1 := shape1 A;
     entry := fun i j => if (i =? j)%nat then nth i v 0 else entry A i j |}.

(** [np.einsum('i,ij,j->i', s, B, v)].  For operands of matching
    lengths it is the plain contraction; otherwise an axis of length 1
    is broadcast against the axis that carries the same label, and
    lengths that neither agree nor are 1 are refused. *)
Definition einsum_i_ij_j (s : vec) (B : ndarray2) (v : vec) : result vec :=
  if (length s =? shape0 B)%nat && (length v =? shape1 B)%nat then
    Ok (map (fun i => rsum (fun j => nth i s 0 * entry B i j * nth j v 0)
                           (shape1 B))
            (seq 0 (shape0 B)))
  else
    match bdim (length s) (shape0 B), bdim (length v) (shape1 B) with
    | Some Ni, Some Nj =>
      Ok (map (fun i =>
                 rsum (fun j => nth (bidx (length s) i) s 0
                                * entry B (bidx (shape0 B) i)
                                          (bidx (shape1 B) j)
                                * nth (bidx (length v) j) v 0)
                      Nj)
              (seq 0 Ni))
    | _, _ => Raise (ShapeError "einsum")
    end.

(** [np.einsum('ab,b', M, v)]: the matrix-vector product, with an axis
    of length 1 broadcast against the other operand's. *)
Definition einsum_ab_b (M : ndarray2) (v : vec) : result vec :=
  if (length v =? shape1 M)%nat then
    Ok (map (fun a => rsum (fun b => entry M a b * nth b v 0) (shape1 M))
            (seq 0 (shape0 M)))
  else
    match bdim (shape1 M) (length v) with
    | Some Nb =>
      Ok (map (fun a => rsum (fun b => entry M a (bidx (shape1 M) b)
                                       * nth (bidx (length v) b) v 0)
                             Nb)
              (seq 0 (shape0 M)))
    | None => Raise (ShapeError "einsum")
    end.

(** [np.einsum('ij,i->ij', L, p)]: row [i] of [L] times [p_i], with an
    axis of length 1 broadcast against the other operand's. *)
Definition einsum_ij_i (L : ndarray2) (p : vec) : result ndarray2 :=
  if (length p =? shape0 L)%nat then
    Ok {| shape0 := shape0 L; shape1 := shape1 L;
          entry := fun i j => entry L i j * nth i p 0 |}
  else
    match bdim (shape0 L) (length p) with
    | Some Ni =>
      Ok {| shape0 := Ni; shape1 := shape1 L;
            entry := fun i j => entry L (bidx (shape0 L) i) j
                                * nth (bidx (length p) i) p 0 |}
    | None => Raise (ShapeError "einsum")
    end.

(** [np.einsum('i,i', u, v)]: the dot product, with an operand of
    length 1 broadcast against the other. *)
Definition einsum_i_i (u v : vec) : result R :=
  if (length u =? length v)%nat then
    Ok (rsum (fun i => nth i u 0 * nth i v 0) (length u))
  else
    match bdim (length u) (length v) with
    | Some Ni =>
      Ok (rsum (fun i => nth (bidx (length u) i) u 0
                         * nth (bidx (length v) i) v 0) Ni)
    | None => Raise (ShapeError "einsum")
    end.

(** [np.linalg.norm] of a vector. *)
Definition norm (v : vec) : R := sqrt (vsum (map (fun x => x * x) v)).

(** Element-wise combination of two vectors of the same length. *)
Fixpoint zip_with (f : R -> R -> R) (u v : vec) : vec :=
  match u, v with
  | x :: u', y :: v' => f x y :: zip_with f u' v'
  | _, _ => []
  end.

(** [np.zeros(N)]. *)
Definition zeros (N : nat) : vec := repeat 0 N.

(** [l[-1:]]: the last element as a list, empty when [l] is. *)
Definition last_slice {A : Type} (l : list A) : list A :=
  skipn (length l - 1) l.

(** [l[-1]]. *)
Definition last_item {A : Type} (l : list A) : result A :=
  match last_slice l with
  | x :: _ => Ok x
  | [] => Raise IndexError
  end.

(** [np.arange(n)] for an integer [n]. *)
Definition arange (n : Z) : list Z :=
  map Z.of_nat (seq 0 (Z.to_nat n)).

(** The consecutive days [t0, t0 + 1, ..., t0 + n - 1]. *)
Definition days_from (t0 n : Z) : list Z :=
  map (fun d => (t0 + d)%Z) (arange n).

(** A [pandas.DataFrame] with one row of data per index entry; the
    constructor refuses data and index of different lengths. *)
Record DataFrame (A : Type) : Type := mkdf {
  df_index : list Z;
  df_data : list A
}.

Arguments mkdf {A} df_index df_data.
Arguments df_index {A} d.
Arguments df_data {A} d.

Definition make_df {A : Type} (data : list A) (index : list Z)
  : result (DataFrame A) :=
  if (length data =? length index)%nat then Ok (mkdf index data)
  else Raise (ShapeError "DataFrame").

End Np.

Import Np.

(* ================================================================== *)
(** ** SIR dynamics *)

(** [sir_X_to_SI]: [X.reshape((2,N))], then the two rows.  The reshape
    raises when [X] does not have [2 N] entries. *)
Definition sir_X_to_SI (X : vec) (N : nat) : result (vec * vec) :=
  if (length X =? 2 * N)%nat then Ok (firstn N X, skipn N X)
  else Raise (ShapeError "reshape").

(** [sir_SI_to_X]: [xp.ravel(xp.array([S, I]))].  The array module [xp]
    is looked up through [cp.get_array_module]; the embedding is that of
    a process in which [cupy] was imported, where the lookup returns
    numpy for host arrays.  For two rows of equal length the ravel is the
    concatenation; [xp.array] refuses two rows of different lengths, and
    the definition is only meant for rows of equal length, which is what
    [func_sir_dX] passes. *)
Definition sir_SI_to_X (Sus Inf : vec) : vec := Sus ++ Inf.

(** [func_sir_dX]: the SIR vector field. *)
Definition func_sir_dX (t : R) (X : vec) (B : ndarray2) (g : R) : result vec :=
  let N := shape0 B in
  '(Sus, Inf) <- sir_X_to_SI X N ;;
  e <- einsum_i_ij_j Sus B Inf ;;
  let dS := map Ropp e in
  let dI := zip_with (fun ds i => - ds - g * i) dS Inf in
  Ok (sir_SI_to_X dS dI).

(** The value of the vector field on a well-shaped state. *)
Definition sir_dS (Sus : vec) (B : ndarray2) (Inf : vec) : vec :=
  map (fun i => - rsum (fun j => nth i Sus 0 * entry B i j * nth j Inf 0)
                       (shape1 B))
      (seq 0 (shape0 B)).

(* ================================================================== *)
(** ** Infectivity matrix *)

(** [get_infectivity_matrix]: the infectivity matrix of a flux matrix. *)
Definition get_infectivity_matrix (F : ndarray2) : result ndarray2 :=
  let N := shape0 F in
  if negb (shape1 F =? N)%nat then Raise (ValueError EmptyString) else
  let pvec := diagonal F in
  let pinv := map (fun p => if Rlt_dec 0 p then 1 / p else 0) pvec in
  L <- madd F (transpose F) ;;
  let L := fill_diagonal L pvec in
  L <- einsum_ij_i L pinv ;;
  LLt <- madd L (transpose L) ;;
  Ok (mscale (1 / 2) LLt).

(** The quantities the normalisation is described with: the self-flux
    [p_i = F_ii], its inverse where positive, and row [i] of [F + F.T]
    with [p_i] on the diagonal, scaled by the inverse. *)
Definition self_flux (F : ndarray2) (i : nat) : R := entry F i i.

Definition inv_self_flux (F : ndarray2) (i : nat) : R :=
  if Rlt_dec 0 (self_flux F i) then 1 / self_flux F i else 0.

Definition scaled_flux (F : ndarray2) (i j : nat) : R :=
  (if (i =? j)%nat then self_flux F i else entry F i j + entry F j i)
  * inv_self_flux F i.

(* ================================================================== *)
(** ** Aggregate infected fraction *)

(** [get_sir_omega_X]: the population-weighted fraction [1 - S]. *)
Definition get_sir_omega_X (X : vec) (P : vec) : result float :=
  let N := length P in
  '(Sus, _) <- sir_X_to_SI X N ;;
  num <- einsum_i_i (map (fun s => 1 - s) Sus) P ;;
  Ok (fdiv num (vsum P)).

(* ================================================================== *)
(** ** Epidemic size *)

(** [1. - (1. - epsilon_i) * np.exp(-X)], element-wise. *)
Definition es_B (eps X : vec) : vec :=
  zip_with (fun e x => 1 - (1 - e) * exp (- x)) eps X.

(** [np.linalg.norm(X-Xnew) / (np.linalg.norm(X)+np.linalg.norm(Xnew)) * 2]. *)
Definition es_rtol (X Xnew : vec) : float :=
  fscale (fdiv (norm (zip_with Rminus X Xnew)) (norm X + norm Xnew)) 2.

(** The variables of the loop of [get_epidemic_size]: [X] (unbound until
    the body has run once), [Xnew], the values of [rtol] printed so far
    and the number of passes through the body. *)
Record es_state : Type := mk_es {
  es_X : option vec;
  es_Xnew : vec;
  es_printed : list float;
  es_iters : nat
}.

(** [1. / gamma] on Python floats. *)
Definition py_inv (gamma : R) : result R :=
  if Req_dec_T gamma 0 then Raise ZeroDivisionError else Ok (1 / gamma).

(** One update [Xnew = 1./gamma * np.einsum('ab,b', M, B)] from [X]. *)
Definition es_update (M : ndarray2) (eps : vec) (gamma : R) (X : vec)
  : result vec :=
  let B := es_B eps X in
  inv <- py_inv gamma ;;
  MB <- einsum_ab_b M B ;;
  Ok (map (Rmult inv) MB).

(** [for iter in range(itermax): ...], over the remaining values of
    [iter]. *)
Fixpoint es_loop (M : ndarray2) (eps : vec) (gamma rtol_stop : R)
    (itermax : nat) (iters : list nat) (st : es_state) : result es_state :=
  match iters with
  | [] => Ok st
  | iter :: iters' =>
    let X := es_Xnew st in
    Xnew <- es_update M eps gamma X ;;
    let rtol := es_rtol X Xnew in
    if flt rtol rtol_stop then
      Ok (mk_es (Some X) Xnew (es_printed st) (S (es_iters st)))
    else
      let printed :=
        if (iter =? itermax - 1)%nat then es_printed st ++ [rtol]
        else es_printed st in
      es_loop M eps gamma rtol_stop itermax iters'
              (mk_es (Some X) Xnew printed (S (es_iters st)))
  end.

(** The loop of [get_epidemic_size] from its initial state. *)
Definition es_run (M : ndarray2) (eps : vec) (gamma : R)
    (itermax : nat) (rtol_stop : R) : result es_state :=
  es_loop M eps gamma rtol_stop itermax (seq 0 itermax)
          (mk_es None (zeros (shape0 M)) [] 0).

(** [get_epidemic_size]: the value returned, and the values of [rtol]
    printed with the message "Algorithm didn't converge!". *)
Definition get_epidemic_size (M : ndarray2) (eps : vec) (gamma : R)
    (itermax : nat) (rtol_stop : R) : result (float * list float) :=
  let N := shape0 M in
  if negb (shape1 M =? N)%nat then Raise (ValueError EmptyString) else
  if negb (length eps =? N)%nat then Raise (ValueError EmptyString) else
  st <- es_run M eps gamma itermax rtol_stop ;;
  match es_X st with
  | None => Raise (UnboundLocalError "X")
  | Some X =>
    let B := es_B eps X in
    Ok (fdiv (vsum B) (INR N), es_printed st)
  end.

(** The iterates [X_0 = 0], [X_(k+1) = (1/gamma) M (1 - (1-eps) exp(-X_k))]
    of the fixed point iteration, as the specification writes them. *)
Fixpoint es_iterate (M : ndarray2) (eps : vec) (gamma : R) (k : nat) : vec :=
  match k with
  | O => zeros (shape0 M)
  | S k' =>
    map (fun a => 1 / gamma *
                  rsum (fun b => entry M a b *
                                 nth b (es_B eps (es_iterate M eps gamma k')) 0)
                       (shape1 M))
        (seq 0 (shape0 M))
  end.

(** The stopping test after the [k]-th update, [k >= 1]. *)
Definition es_stops (M : ndarray2) (eps : vec) (gamma rtol_stop : R)
    (k : nat) : bool :=
  flt (es_rtol (es_iterate M eps gamma (k - 1)) (es_iterate M eps gamma k))
      rtol_stop.

(** The state in which the loop is left after [K] passes. *)
Definition es_final (M : ndarray2) (eps : vec) (gamma rtol_stop : R)
    (K : nat) : es_state :=
  mk_es (Some (es_iterate M eps gamma (K - 1))) (es_iterate M eps gamma K)
        (if es_stops M eps gamma rtol_stop K then []
         else [es_rtol (es_iterate M eps gamma (K - 1))
                       (es_iterate M eps gamma K)])
        K.

(** The number of passes through the body of the loop. *)
Definition es_iterations (M : ndarray2) (eps : vec) (gamma : R)
    (itermax : nat) (rtol_stop : R) : nat :=
  match es_run M eps gamma itermax rtol_stop with
  | Ok st => es_iters st
  | Raise _ => 0
  end.

(** The iteration for a single community, where [M = [[m]]] is scaled
    by [x] and [eps = [e]]. *)
Fixpoint scalar_iterate (x m e gamma : R) (k : nat) : R :=
  match k with
  | O => 0
  | S k' => 1 / gamma * (x * m) *
            (1 - (1 - e) * exp (- scalar_iterate x m e gamma k'))
  end.

(** The value [get_epidemic_size] returns ([nan] stands in where it
    raises instead). *)
Definition epidemic_size_value (M : ndarray2) (eps : vec) (gamma : R)
    (itermax : nat) (rtol_stop : R) : float :=
  match get_epidemic_size M eps gamma itermax rtol_stop with
  | Ok (omega, _) => omega
  | Raise _ => NaN
  end.

(** The epidemic size at the scale of the [k]-th bracketing attempt of
    [get_target_scale], [1e-5 * 10^k]. *)
Definition size_at_attempt (M : ndarray2) (Ii : vec) (gamma : R)
    (rtol_stop : R) (itermax : nat) (k : nat) : float :=
  epidemic_size_value (mscale (1 / 100000 * 10 ^ k) M) Ii gamma
                      itermax rtol_stop.

(** [np.sum(v) / len(v)]. *)
Definition mean (v : vec) : float := fdiv (vsum v) (INR (length v)).

(** *** The iteration as the specification writes it

    Component [a] of the iterates [X_0 = 0],
    [X_(k+1) = (1/gamma) M (1 - (1 - eps) exp(-X_k))]; the relative
    change [||X_(k-1) - X_k|| / (||X_(k-1)|| + ||X_k||) * 2] of the
    [k]-th update, with the Euclidean norm over the [N] communities;
    the stopping test; and the mean over the communities of
    [1 - (1 - eps_i) exp(-X_k,i)].  They are written out with sums,
    square roots and exponentials, independently of the helpers of the
    embedded loop, which is compared with them. *)
Fixpoint spec_iterate (M : ndarray2) (eps : vec) (gamma : R) (k : nat)
    (a : nat) : R :=
  match k with
  | O => 0
  | S k' =>
    1 / gamma *
    rsum (fun b => entry M a b *
                   (1 - (1 - nth b eps 0) * exp (- spec_iterate M eps gamma k' b)))
         (shape1 M)
  end.

Definition spec_rel_change (M : ndarray2) (eps : vec) (gamma : R) (k : nat)
  : float :=
  let N := shape0 M in
  let X := spec_iterate M eps gamma (k - 1) in
  let Y := spec_iterate M eps gamma k in
  fscale (fdiv (sqrt (rsum (fun i => (X i - Y i) * (X i - Y i)) N))
               (sqrt (rsum (fun i => X i * X i) N)
                + sqrt (rsum (fun i => Y i * Y i) N)))
         2.

Definition spec_stops (M : ndarray2) (eps : vec) (gamma rtol_stop : R)
    (k : nat) : bool :=
  flt (spec_rel_change M eps gamma k) rtol_stop.

Definition spec_size (M : ndarray2) (eps : vec) (gamma : R) (k : nat)
  : float :=
  fdiv (rsum (fun i => 1 - (1 - nth i eps 0)
                           * exp (- spec_iterate M eps gamma k i))
             (shape0 M))
       (INR (shape0 M)).

(* ================================================================== *)
(** ** Bracket growth shared by the two calibrations *)

(** [for k in ks: f = func_root(x); if f > 0: break; else: x *= factor],
    returning [x] and the last value of [f] (unbound when [ks] is
    empty). *)
Fixpoint grow_bracket (func_root : R -> result float) (factor : R)
    (ks : list nat) (x : R) (f : option float) : result (R * option float) :=
  match ks with
  | [] => Ok (x, f)
  | _ :: ks' =>
    v <- func_root x ;;
    if fgt v 0 then Ok (x, Some v)
    else grow_bracket func_root factor ks' (x * factor) (Some v)
  end.

(* ================================================================== *)
(** ** Jacobian of the SIR vector field *)

(** [np.diag(v)] for a one-dimensional [v]. *)
Definition np_diag (v : vec) : ndarray2 :=
  {| shape0 := length v; shape1 := length v;
     entry := fun i j => if (i =? j)%nat then nth i v 0 else 0 |}.

(** [np.eye(N)]. *)
Definition np_eye (N : nat) : ndarray2 :=
  {| shape0 := N; shape1 := N;
     entry := fun i j => if (i =? j)%nat then 1 else 0 |}.

(** [- A]. *)
Definition mneg (A : ndarray2) : ndarray2 :=
  {| shape0 := shape0 A; shape1 := shape1 A;
     entry := fun i j => - entry A i j |}.

(** [A - B]: entry by entry for two arrays of the same shape; otherwise
    a dimension of length 1 is broadcast against the other array's, and
    shapes that cannot be broadcast are refused. *)
Definition msub (A B : ndarray2) : result ndarray2 :=
  if (shape0 A =? shape0 B)%nat && (shape1 A =? shape1 B)%nat then
    Ok {| shape0 := shape0 A; shape1 := shape1 A;
          entry := fun i j => entry A i j - entry B i j |}
  else
    match bdim (shape0 A) (shape0 B), bdim (shape1 A) (shape1 B) with
    | Some n0, Some n1 =>
      Ok {| shape0 := n0; shape1 := n1;
            entry := fun i j =>
              entry A (bidx (shape0 A) i) (bidx (shape1 A) j)
              - entry B (bidx (shape0 B) i) (bidx (shape1 B) j) |}
    | _, _ => Raise (ShapeError "subtract")
    end.

(** [np.concatenate([A, B], axis=1)]: [B] to the right of [A]. *)
Definition concatenate_axis1 (A B : ndarray2) : result ndarray2 :=
  if (shape0 A =? shape0 B)%nat then
    Ok {| shape0 := shape0 A; shape1 := shape1 A + shape1 B;
          entry := fun i j => if (j <? shape1 A)%nat then entry A i j
                              else entry B i (j - shape1 A) |}
  else Raise (ShapeError "concatenate").

(** [np.concatenate([A, B], axis=0)]: [B] below [A]. *)
Definition concatenate_axis0 (A B : ndarray2) : result ndarray2 :=
  if (shape1 A =? shape1 B)%nat then
    Ok {| shape0 := shape0 A + shape0 B; shape1 := shape1 A;
          entry := fun i j => if (i <? shape0 A)%nat then entry A i j
                              else entry B (i - shape0 A) j |}
  else Raise (ShapeError "concatenate").

(** [jac]: the matrix of partial derivatives of [func_sir_dX].  The two
    einsums are those of [einsum_ab_b] and [einsum_ij_i].  For a matrix
    [B] that is not square the first einsum and the subtraction of
    [g*np.eye(N)] broadcast where numpy does, and the concatenations
    refuse blocks whose other dimension differs. *)
Definition jac (X : vec) (B : ndarray2) (g : R) : result ndarray2 :=
  let N := shape0 B in
  '(Sus, Inf) <- sir_X_to_SI X N ;;
  BI <- einsum_ab_b B Inf ;;
  let A1 := mneg (np_diag BI) in
  BS <- einsum_ij_i B Sus ;;
  let A2 := mneg BS in
  A <- concatenate_axis1 A1 A2 ;;
  let B1 := mneg A1 in
  B2 <- msub (mneg A2) (mscale g (np_eye N)) ;;
  Bm <- concatenate_axis1 B1 B2 ;;
  concatenate_axis0 A Bm.

(** [get_sir_omega_SI]. *)
Definition get_sir_omega_SI (Sus Inf : vec) (P : vec) : result float :=
  get_sir_omega_X (sir_SI_to_X Sus Inf) P.

(* ================================================================== *)
(** ** Helper functions *)

(** [np.sqrt] of a float64 scalar: [nan] below zero. *)
Definition np_sqrt (r : R) : float :=
  if Rlt_dec r 0 then NaN else Fin (sqrt r).

(** [geo_dist]: the distance of two points given as (latitude,
    longitude) in degrees. *)
Definition geo_dist (M1 M2 : R * R) : float :=
  let '(p1, l1) := M1 in
  let '(p2, l2) := M2 in
  let dp := (p1 - p2) * PI / 180 in
  let dl := (l1 - l2) * PI / 180 in
  let pbar := 1 / 2 * (p1 + p2) * PI / 180 in
  np_sqrt (dp ^ 2 + cos pbar * dl ^ 2).

(** [fsigmoid]: [params] is unpacked into exactly four values. *)
Definition fsigmoid (x : R) (params : list R) : result R :=
  match params with
  | [a; b; c; d] => Ok (a / (1 + exp (d * (x - b))) + c)
  | _ => Raise (ValueError "unpack")
  end.

(** [framp]: [np.logaddexp(0, z)] is [log(exp(0) + exp(z))]. *)
Definition framp (x a b c : R) : R :=
  c * ln (exp 0 + exp (a * (x - b))).

(* ================================================================== *)
(** ** Discrete Laplacian on the lattice *)

(** [np.zeros((N, M))]. *)
Definition zeros2 (N M : nat) : ndarray2 :=
  {| shape0 := N; shape1 := M; entry := fun _ _ => 0 |}.

(** [np.diff(Y, axis=0)] and [np.diff(Y, axis=1)]. *)
Definition diff_axis0 (Y : ndarray2) : ndarray2 :=
  {| shape0 := shape0 Y - 1; shape1 := shape1 Y;
     entry := fun i j => entry Y (i + 1) j - entry Y i j |}.

Definition diff_axis1 (Y : ndarray2) : ndarray2 :=
  {| shape0 := shape0 Y; shape1 := shape1 Y - 1;
     entry := fun i j => entry Y i (j + 1) - entry Y i j |}.

(** [X] with a row of the scalar [c] after it, and before it (what
    [np.diff] builds from [append=c] and [prepend=c] along axis 0). *)
Definition append_row (X : ndarray2) (c : R) : ndarray2 :=
  {| shape0 := shape0 X + 1; shape1 := shape1 X;
     entry := fun i j => if (i <? shape0 X)%nat then entry X i j else c |}.

Definition prepend_row (X : ndarray2) (c : R) : ndarray2 :=
  {| shape0 := shape0 X + 1; shape1 := shape1 X;
     entry := fun i j => if (i =? 0)%nat then c else entry X (i - 1) j |}.

(** [X] with the column [col] after it, and before it. *)
Definition append_col (X : ndarray2) (col : nat -> R) : ndarray2 :=
  {| shape0 := shape0 X; shape1 := shape1 X + 1;
     entry := fun i j => if (j <? shape1 X)%nat then entry X i j else col i |}.

Definition prepend_col (X : ndarray2) (col : nat -> R) : ndarray2 :=
  {| shape0 := shape0 X; shape1 := shape1 X + 1;
     entry := fun i j => if (j =? 0)%nat then col i else entry X i (j - 1) |}.

(** An integer index [k] into an axis of length [n]: negative indices
    count from the end, and an index outside [-n, n) raises. *)
Definition py_index (n : nat) (k : Z) : result nat :=
  if ((0 <=? k) && (k <? Z.of_nat n))%Z then Ok (Z.to_nat k)
  else if ((- Z.of_nat n <=? k) && (k <? 0))%Z then
    Ok (Z.to_nat (Z.of_nat n + k))
  else Raise IndexError.

(** [X[:, k]]. *)
Definition get_col (X : ndarray2) (k : Z) : result (nat -> R) :=
  c <- py_index (shape1 X) k ;;
  Ok (fun i => entry X i c).

(** [X[k]]. *)
Definition get_row (X : ndarray2) (k : Z) : result (nat -> R) :=
  r <- py_index (shape0 X) k ;;
  Ok (fun j => entry X r j).

(** [laplacian_discrete]. *)
Definition laplacian_discrete (X : ndarray2) : result ndarray2 :=
  Dx <- msub (diff_axis0 (append_row X 0)) (diff_axis0 (prepend_row X 0)) ;;
  first <- get_col X 0 ;;
  last <- get_col X (-1) ;;
  Dy <- msub (diff_axis1 (append_col X first))
             (diff_axis1 (prepend_col X last)) ;;
  madd Dx Dy.

(** [D[lo:hi] = V] and [D[:, lo:hi] = V], where [V] has as many rows
    (columns) as the slice. *)
Definition set_rows (D : ndarray2) (lo hi : nat) (V : nat -> nat -> R)
  : ndarray2 :=
  {| shape0 := shape0 D; shape1 := shape1 D;
     entry := fun i j => if (lo <=? i)%nat && (i <? hi)%nat
                         then V (i - lo)%nat j else entry D i j |}.

Definition set_cols (D : ndarray2) (lo hi : nat) (V : nat -> nat -> R)
  : ndarray2 :=
  {| shape0 := shape0 D; shape1 := shape1 D;
     entry := fun i j => if (lo <=? j)%nat && (j <? hi)%nat
                         then V i (j - lo)%nat else entry D i j |}.

(** [D[k] = v] and [D[:, k] = v]. *)
Definition set_row (D : ndarray2) (k : Z) (v : nat -> R) : result ndarray2 :=
  r <- py_index (shape0 D) k ;;
  Ok {| shape0 := shape0 D; shape1 := shape1 D;
        entry := fun i j => if (i =? r)%nat then v j else entry D i j |}.

Definition set_col (D : ndarray2) (k : Z) (v : nat -> R) : result ndarray2 :=
  c <- py_index (shape1 D) k ;;
  Ok {| shape0 := shape0 D; shape1 := shape1 D;
        entry := fun i j => if (j =? c)%nat then v i else entry D i j |}.

(** [laplacian_discrete_slow]: the slices [1:-1], [:-2] and [2:] of an
    axis of length [n] have [n - 2] elements (none when [n < 2]). *)
Definition laplacian_discrete_slow (X : ndarray2) : result ndarray2 :=
  let N := shape0 X in
  let M := shape1 X in
  let Dx := zeros2 N M in
  let Dy := zeros2 N M in
  let Dx := set_rows Dx 1 (N - 1)
              (fun i j => entry X i j + entry X (i + 2) j
                          - 2 * entry X (i + 1) j) in
  let Dy := set_cols Dy 1 (M - 1)
              (fun i j => entry X i j + entry X i (j + 2)
                          - 2 * entry X i (j + 1)) in
  x1 <- get_row X 1 ;;
  x0 <- get_row X 0 ;;
  Dx <- set_row Dx 0 (fun j => x1 j - 2 * x0 j) ;;
  xm2 <- get_row X (-2) ;;
  xm1 <- get_row X (-1) ;;
  Dx <- set_row Dx (-1) (fun j => xm2 j - 2 * xm1 j) ;;
  cm1 <- get_col X (-1) ;;
  c1 <- get_col X 1 ;;
  c0 <- get_col X 0 ;;
  Dy <- set_col Dy 0 (fun i => cm1 i + c1 i - 2 * c0 i) ;;
  cm2 <- get_col X (-2) ;;
  c0 <- get_col X 0 ;;
  cm1 <- get_col X (-1) ;;
  Dy <- set_col Dy (-1) (fun i => cm2 i + c0 i - 2 * cm1 i) ;;
  madd Dx Dy.

(** The five-point stencil the two Laplacians are documented to compute:
    neighbours beyond the first and the last row count as zero
    (Dirichlet), columns wrap around (periodic). *)
Definition laplacian_stencil (X : ndarray2) (i j : nat) : R :=
  (if (i =? 0)%nat then 0 else entry X (i - 1) j)
  + (if (i + 1 <? shape0 X)%nat then entry X (i + 1) j else 0)
  + entry X i (if (j =? 0)%nat then shape1 X - 1 else j - 1)%nat
  + entry X i (if (j + 1 <? shape1 X)%nat then j + 1 else 0)%nat
  - 4 * entry X i j.

(* ================================================================== *)
(** ** External collaborators: sample instances

    Stand-ins for the library functions the engine is parametrised by,
    used to run the model on concrete inputs. *)

(** What [solve_ivp] returns: the [success] flag and the columns of
    [sol.y], one state per requested time. *)
Record ode_result : Type := mk_ode {
  success : bool;
  sol_y : list vec
}.

(** What [root_scalar] returns. *)
Record root_results : Type := mk_root {
  root : R;
  converged : bool
}.

(** The date-keyed store: the listing [store.keys()] and item access
    [store[key]]. *)
Record Store : Type := mk_store {
  store_keys : list string;
  store_getitem : string -> option ndarray2
}.

(** A store built from a Python [dict]. *)
Fixpoint dict_get (d : list (string * ndarray2)) (key : string)
  : option ndarray2 :=
  match d with
  | [] => None
  | (k, v) :: d' => if String.eqb k key then Some v else dict_get d' key
  end.

Definition dict_store (d : list (string * ndarray2)) : Store :=
  mk_store (map fst d) (dict_get d).

(** Explicit Euler on the grid of requested times: on a vanishing vector
    field it returns the initial state at every time, as every
    Runge-Kutta scheme does. *)
Fixpoint euler_samples (f : R -> vec -> result vec) (t : R) (y : vec)
    (t_eval : list R) : result (list vec) :=
  match t_eval with
  | [] => Ok []
  | t' :: rest =>
    fy <- f t y ;;
    let y' := zip_with (fun a b => a + (t' - t) * b) y fy in
    ys <- euler_samples f t' y' rest ;;
    Ok (y' :: ys)
  end.

Definition euler_ivp (f : R -> vec -> result vec) (y0 : vec) (t_end : R)
    (t_eval : list R) (method : string) : result ode_result :=
  ys <- euler_samples f 0 y0 t_eval ;;
  Ok (mk_ode true ys).

(** A root finder that returns an end of the bracket where the function
    vanishes, refuses a bracket without a sign change, and otherwise
    returns the root of the chord. *)
Definition chord_root_scalar (f : R -> result float) (a b : R)
  : result root_results :=
  fa <- f a ;;
  fb <- f b ;;
  match fa, fb with
  | Fin va, Fin vb =>
    if Req_dec_T va 0 then Ok (mk_root a true)
    else if Req_dec_T vb 0 then Ok (mk_root b true)
    else if Rlt_dec 0 (va * vb) then
      Raise (ValueError "f(a) and f(b) must have different signs")
    else Ok (mk_root (a - va * (b - a) / (vb - va)) true)
  | _, _ => Raise (ValueError "f(a) and f(b) must have different signs")
  end.

(** Keys of the form [path/ordinal]. *)
Definition ordinal_key (path tfmt : string) (t : Z) : string :=
  path ++ "/" ++ NilZero.string_of_int (Z.to_int t).

(* ================================================================== *)
(** ** The engine, over its external collaborators *)

Section Engine.

(** [str(Path(path) / t.strftime(tfmt))]. *)
Variable store_key : string -> string -> Z -> string.

(** [scipy.integrate.solve_ivp(fun, t_span=(0, t_end), y0, t_eval,
    method)]. *)
Variable solve_ivp :
  (R -> vec -> result vec) -> vec -> R -> list R -> string -> result ode_result.

(** [scipy.optimize.root_scalar(f, bracket=(a, b), method='brentq',
    options={'maxiter': 100})]. *)
Variable root_scalar : (R -> result float) -> R -> R -> result root_results.

(** [read_df]: the matrix stored for the date [t]. *)
Definition read_df (t : Z) (tfmt : string) (store : Store) (path : string)
  : result ndarray2 :=
  let key := store_key path tfmt t in
  match store_getitem store key with
  | Some df => Ok df
  | None => Raise (KeyError key)
  end.

(** [mykey in store.keys()], then the re-read or the matrix kept. *)
Definition refresh_matrix (t : Z) (tfmt : string) (store : Store)
    (path : string) (B : ndarray2) : result ndarray2 :=
  let mykey := store_key path tfmt t in
  if existsb (String.eqb mykey) (store_keys store)
  then read_df t tfmt store path
  else Ok B.

(** [compute_sir_X]: integrate by [dt] and return [sol.y[:,-1:].T]. *)
Definition compute_sir_X (X : vec) (dt : Z) (B : ndarray2) (gamma : R)
    (method_solver : string) (t_eval : option (list R)) : result (list vec) :=
  let t_eval := match t_eval with
                | None => [0; IZR dt]
                | Some l => l
                end in
  sol <- solve_ivp (fun t y => func_sir_dX t y B gamma) X (IZR dt) t_eval
                   method_solver ;;
  if negb (success sol) then Raise (ValueError "integration failed!") else
  Ok (last_slice (sol_y sol)).

(** *** Scale calibration for a target epidemic size *)

(** The function whose root [get_target_scale] seeks. *)
Definition target_func_root (M : ndarray2) (Ii : vec) (gamma target : R)
    (rtol_stop : R) (itermax : nat) (x : R) : result float :=
  '(omega, _) <- get_epidemic_size (mscale x M) Ii gamma itermax rtol_stop ;;
  Ok (fsub omega target).

(** The bracketing phase of [get_target_scale]: the bracket handed to
    the root finder, or the error raised. *)
Definition get_target_bracket (func_root : R -> result float)
  : result (R * R) :=
  let xlo := 1 / 100000 in
  flo <- func_root xlo ;;
  if fgt flo 0 then
    Raise (ValueError "Lower bound on scale not small enough!")
  else
    '(xhi, fhi) <- grow_bracket func_root 10 (seq 0 10) xlo None ;;
    match fhi with
    | None => Raise (UnboundLocalError "fhi")
    | Some v =>
      if flt v 0 then Raise (ValueError "Problem in bracketing!")
      else Ok (xlo, xhi)
    end.

(** [get_target_scale]. *)
Definition get_target_scale (M : ndarray2) (Ii : vec) (gamma target : R)
    (rtol_stop : R) (itermax : nat) : result R :=
  let func_root := target_func_root M Ii gamma target rtol_stop itermax in
  '(xlo, xhi) <- get_target_bracket func_root ;;
  sol <- root_scalar func_root xlo xhi ;;
  Ok (root sol).

(** *** Day-stepped integration *)

(** The loop of [integrate_sir] over [times[1:]] and [scales]. *)
Fixpoint integrate_steps (gamma : R) (store : Store) (pathtoloc tfmt : string)
    (method_solver : string) (rest : list Z) (scales : list R)
    (t : Z) (X : vec) (B : ndarray2) (ts : list Z) (Xs : list vec)
  : result (list Z * list vec) :=
  match rest, scales with
  | tnew :: rest', scale :: scales' =>
    B <- refresh_matrix t tfmt store pathtoloc B ;;
    let dt := (tnew - t)%Z in
    let t_range := arange (dt + 1) in
    sol <- solve_ivp (fun t y => func_sir_dX t y (mscale_r B scale) gamma)
                     X (IZR dt) (map IZR t_range) method_solver ;;
    if negb (success sol) then Raise (ValueError "integration failed!") else
    Xnew <- last_item (sol_y sol) ;;
    let Xs := Xs ++ tl (sol_y sol) in
    let ts := ts ++ map (fun x => (t + x)%Z) (tl t_range) in
    integrate_steps gamma store pathtoloc tfmt method_solver rest' scales'
                    tnew Xnew B ts Xs
  | _, _ => Ok (ts, Xs)
  end.

(** Apply a fallible function to every element, in order. *)
Fixpoint map_result {A B : Type} (f : A -> result B) (l : list A)
  : result (list B) :=
  match l with
  | [] => Ok []
  | x :: l' => y <- f x ;; ys <- map_result f l' ;; Ok (y :: ys)
  end.

(** [integrate_sir]: the dates, and the daily [S] and [I] samples.  The
    progress messages written to standard output are not part of the
    result and are left out. *)
Definition integrate_sir (Xi : vec) (times : list Z) (scales : list R)
    (gamma : R) (store : Store) (pathtoloc tfmt method_solver : string)
  : result (list Z * list vec * list vec) :=
  let nt := length times in
  t <- match times with
       | t :: _ => Ok t
       | [] => Raise IndexError
       end ;;
  let X := Xi in
  B <- read_df t tfmt store pathtoloc ;;
  let N := shape0 B in
  if negb (length scales =? nt - 1)%nat then
    Raise (ValueError ("`scales` must be of length " ++
                       NilZero.string_of_uint (Nat.to_uint (nt - 1))))
  else
    '(ts, Xs) <- integrate_steps gamma store pathtoloc tfmt method_solver
                                 (tl times) scales t X B [t] [X] ;;
    SIs <- map_result (fun x => sir_X_to_SI x N) Xs ;;
    Ok (ts, map fst SIs, map snd SIs).

(** *** Fit of the scale sequence *)

(** The function whose root a step of [fit_sir] seeks. *)
Definition fit_func_root (X : vec) (dt : Z) (B : ndarray2) (gamma : R)
    (method_solver : string) (population : vec) (ypred : float) (b : R)
  : result float :=
  Xnew <- compute_sir_X X dt (mscale b B) gamma method_solver None ;;
  y <- get_sir_omega_X (concat Xnew) population ;;
  Ok (fminus y ypred).

(** The bracketing phase of a step of [fit_sir]: the upper end [bhi] of
    the bracket handed to the root finder, or the error raised. *)
Definition fit_bracket (func_root : R -> result float) (b_scale : R)
  : result R :=
  '(bhi, f) <- grow_bracket func_root 3 (seq 1 9) b_scale None ;;
  match f with
  | None => Raise (UnboundLocalError "f")
  | Some v =>
    if flt v 0 then Raise (ValueError "Problem in bracketing!")
    else Ok bhi
  end.

(** The variables a step of [fit_sir] reads and updates. *)
Record fit_state : Type := mk_fit {
  fit_t : Z;
  fit_X : vec;
  fit_B : ndarray2;
  fit_b_scale : R;
  fit_ts : list Z;
  fit_Xs : list (vec * vec);
  fit_Ys : list float;
  fit_b_scales : list R
}.

(** The body of the loop of [fit_sir] for the index [i]. *)
Definition fit_step (gamma : R) (population : vec) (store : Store)
    (pathtoloc tfmt method_solver : string) (N : nat) (Y_real : list float)
    (i : nat) (tnew : Z) (st : fit_state) : result fit_state :=
  let t := fit_t st in
  let X := fit_X st in
  let blo := 0 in
  B <- refresh_matrix t tfmt store pathtoloc (fit_B st) ;;
  let dt := (tnew - t)%Z in
  ypred <- match nth_error Y_real i with
           | Some v => Ok v
           | None => Raise IndexError
           end ;;
  let func_root := fit_func_root X dt B gamma method_solver population ypred in
  bhi <- fit_bracket func_root (fit_b_scale st) ;;
  sol <- root_scalar func_root blo bhi ;;
  if negb (converged sol) then Raise (ValueError "root finding failed!") else
  let b_scale := root sol in
  let t_eval := arange (dt + 1) in
  Xnews <- compute_sir_X X dt (mscale b_scale B) gamma method_solver
                         (Some (map IZR t_eval)) ;;
  Xnew <- last_item Xnews ;;
  y <- get_sir_omega_X Xnew population ;;
  rows <- map_result (fun x => sir_X_to_SI x N) Xnews ;;
  Ok (mk_fit tnew Xnew B b_scale
             (fit_ts st ++ map (fun d => (t + d)%Z) (tl t_eval))
             (fit_Xs st ++ rows)
             (fit_Ys st ++ [y])
             (fit_b_scales st ++ [b_scale])).

(** The loop of [fit_sir] over the indices [i] and the dates [times[i]]. *)
Fixpoint fit_steps (gamma : R) (population : vec) (store : Store)
    (pathtoloc tfmt method_solver : string) (N : nat) (Y_real : list float)
    (todo : list (nat * Z)) (st : fit_state) : result fit_state :=
  match todo with
  | [] => Ok st
  | (i, tnew) :: todo' =>
    st' <- fit_step gamma population store pathtoloc tfmt method_solver
                    N Y_real i tnew st ;;
    fit_steps gamma population store pathtoloc tfmt method_solver
              N Y_real todo' st'
  end.

(** The three tables [fit_sir] returns. *)
Record fit_tables : Type := mk_tables {
  df_S : DataFrame vec;
  df_I : DataFrame vec;
  df_fit : DataFrame (option R * float)
}.

(** [fit_sir].  The progress messages written to standard output are
    not part of the result and are left out. *)
Definition fit_sir (times : list Z) (T_real : ndarray2) (gamma : R)
    (population : vec) (store : Store)
    (pathtoloc tfmt method_solver : string) (b_scale : R)
  : result fit_tables :=
  let nt := length times in
  t <- match times with
       | t :: _ => Ok t
       | [] => Raise IndexError
       end ;;
  B <- read_df t tfmt store pathtoloc ;;
  let N := shape0 B in
  num <- einsum_ab_b T_real population ;;
  let Y_real := map (fun v => fdiv v (vsum population)) num in
  Inf <- (if (shape0 T_real =? 0)%nat then Raise IndexError
          else Ok (row T_real 0)) ;;
  let Sus := map (fun x => 1 - x) Inf in
  let X := sir_SI_to_X Sus Inf in
  y <- get_sir_omega_X X population ;;
  X0 <- sir_X_to_SI X N ;;
  st <- fit_steps gamma population store pathtoloc tfmt method_solver
                  N Y_real (combine (seq 1 (nt - 1)) (tl times))
                  (mk_fit t X B b_scale [t] [X0] [y] []) ;;
  let b_scales := map Some (fit_b_scales st) ++ [None] in
  dS <- make_df (map fst (fit_Xs st)) (fit_ts st) ;;
  dI <- make_df (map snd (fit_Xs st)) (fit_ts st) ;;
  dfit <- make_df (combine b_scales (fit_Ys st)) times ;;
  Ok (mk_tables dS dI dfit).

(* ================================================================== *)
(** ** Properties of the SIR vector field *)

(** Settle a comparison of two real constants. *)
Ltac decide_Rlt :=
  match goal with
  | |- (if Rlt_dec ?a ?b then true else false) = true =>
    destruct (Rlt_dec a b); [reflexivity | exfalso; lra]
  | |- (if Rlt_dec ?a ?b then true else false) = false =>
    destruct (Rlt_dec a b); [exfalso; lra | reflexivity]
  end.


Lemma zip_with_length f u v :
  length u = length v -> length (zip_with f u v) = length u.
Proof.
  revert v; induction u as [|x u IH]; intros [|y v] H; simpl in *;
    try discriminate; auto.
Qed.

Lemma zip_with_nth f u v i :
  length u = length v -> (i < length u)%nat ->
  nth i (zip_with f u v) 0 = f (nth i u 0) (nth i v 0).
Proof.
  revert v i; induction u as [|x u IH]; intros [|y v] [|i] H Hi;
    simpl in *; try discriminate; try lia; auto.
  apply IH; lia.
Qed.

Lemma map_seq_nth (f : nat -> R) n i :
  (i < n)%nat -> nth i (map f (seq 0 n)) 0 = f i.
Proof.
  intros Hi.
  rewrite (nth_indep _ 0 (f 0%nat)) by (rewrite length_map, length_seq; lia).
  rewrite map_nth, seq_nth by lia. reflexivity.
Qed.

Lemma rsum_ext f g n :
  (forall j, (j < n)%nat -> f j = g j) -> rsum f n = rsum g n.
Proof.
  induction n as [|n IH]; intros H; simpl; [reflexivity|].
  rewrite IH, H by (intros; try apply H; lia). reflexivity.
Qed.

Lemma rsum_scal c f n : rsum (fun j => c * f j) n = c * rsum f n.
Proof.
  induction n as [|n IH]; simpl; [ring|]. rewrite IH. ring.
Qed.

Lemma func_sir_dX_eq t Sus Inf B g N :
  shape0 B = N -> shape1 B = N -> length Sus = N -> length Inf = N ->
  func_sir_dX t (Sus ++ Inf) B g =
  Ok (sir_dS Sus B Inf ++ zip_with (fun ds i => - ds - g * i) (sir_dS Sus B Inf) Inf).
Proof.
  intros H0 H1 HS HI. unfold func_sir_dX, sir_X_to_SI.
  assert (Hf : firstn N (Sus ++ Inf) = Sus).
  { rewrite <- HS, firstn_app, firstn_all, Nat.sub_diag. simpl.
    apply app_nil_r. }
  assert (Hs : skipn N (Sus ++ Inf) = Inf).
  { rewrite <- HS, skipn_app, skipn_all, Nat.sub_diag. reflexivity. }
  rewrite H0, length_app, HS, HI, Hf, Hs.
  replace (N + N =? 2 * N)%nat with true by (symmetry; apply Nat.eqb_eq; lia).
  simpl bind.
  unfold einsum_i_ij_j. rewrite H0, H1, HS, HI, Nat.eqb_refl. simpl.
  unfold sir_SI_to_X, sir_dS. rewrite H0, H1, map_map. reflexivity.
Qed.

Lemma sir_dS_length Sus B Inf : length (sir_dS Sus B Inf) = shape0 B.
Proof. unfold sir_dS. now rewrite length_map, length_seq. Qed.

Lemma sir_dS_nth Sus B Inf i :
  (i < shape0 B)%nat ->
  nth i (sir_dS Sus B Inf) 0 =
  - nth i Sus 0 * rsum (fun j => entry B i j * nth j Inf 0) (shape1 B).
Proof.
  intros Hi. unfold sir_dS. rewrite map_seq_nth by assumption.
  rewrite (rsum_ext _ (fun j => nth i Sus 0 * (entry B i j * nth j Inf 0)))
    by (intros; ring).
  rewrite rsum_scal. ring.
Qed.

(** C1: on a state [X = Sus ++ Inf] with [Sus] and [Inf] of length [N] and an
    [N x N] coupling matrix, [func_sir_dX] returns the concatenation of
    [dS] and [dI], where [dS_i = - S_i * sum_j B_ij * I_j] and
    [dI_i = - dS_i - g * I_i] for every [i < N]; the result does not
    depend on the time argument. *)
Theorem func_sir_dX_spec (t : R) (Sus Inf : vec) (B : ndarray2) (g : R) (N : nat) :
  shape0 B = N -> shape1 B = N -> length Sus = N -> length Inf = N ->
  exists dS dI : vec,
    func_sir_dX t (Sus ++ Inf) B g = Ok (dS ++ dI) /\
    length dS = N /\ length dI = N /\
    (forall i, (i < N)%nat ->
       nth i dS 0 = - nth i Sus 0 * rsum (fun j => entry B i j * nth j Inf 0) N /\
       nth i dI 0 = - nth i dS 0 - g * nth i Inf 0) /\
    (forall t', func_sir_dX t' (Sus ++ Inf) B g = func_sir_dX t (Sus ++ Inf) B g).
Proof.
  intros H0 H1 HS HI.
  exists (sir_dS Sus B Inf),
         (zip_with (fun ds i => - ds - g * i) (sir_dS Sus B Inf) Inf).
  assert (HL : length (sir_dS Sus B Inf) = length Inf)
    by (rewrite sir_dS_length; congruence).
  split; [now apply func_sir_dX_eq with (N := N)|].
  split; [rewrite sir_dS_length; assumption|].
  split; [rewrite zip_with_length, sir_dS_length; assumption|].
  split.
  - intros i Hi. split.
    + rewrite sir_dS_nth by lia. now rewrite H1.
    + apply zip_with_nth; [assumption|]. rewrite sir_dS_length. lia.
  - intros t'. now rewrite !func_sir_dX_eq with (N := N).
Qed.

Lemma func_sir_dX_spec_witness :
  exists dS dI : vec,
    func_sir_dX 0 ([1/2] ++ [1/4]) (of_rows [[2]]) 3 = Ok (dS ++ dI) /\
    length dS = 1%nat /\ length dI = 1%nat /\
    (forall i, (i < 1)%nat ->
       nth i dS 0 = - nth i [1/2] 0 *
                    rsum (fun j => entry (of_rows [[2]]) i j * nth j [1/4] 0) 1 /\
       nth i dI 0 = - nth i dS 0 - 3 * nth i [1/4] 0) /\
    (forall t', func_sir_dX t' ([1/2] ++ [1/4]) (of_rows [[2]]) 3 =
                func_sir_dX 0 ([1/2] ++ [1/4]) (of_rows [[2]]) 3).
Proof.
  apply (func_sir_dX_spec 0 [1/2] [1/4] (of_rows [[2]]) 3 1); reflexivity.
Defined.

(** C6: the derivative returned on a well-shaped state satisfies
    [dS_i + dI_i = - g * I_i] for every community [i]; hence, for
    [g >= 0], the rate of change of [S_i + I_i] is non-positive wherever
    [I_i >= 0]. *)
Theorem func_sir_dX_balance (t : R) (Sus Inf : vec) (B : ndarray2) (g : R) (N : nat) :
  shape0 B = N -> shape1 B = N -> length Sus = N -> length Inf = N -> 0 <= g ->
  exists dS dI : vec,
    func_sir_dX t (Sus ++ Inf) B g = Ok (dS ++ dI) /\
    length dS = N /\ length dI = N /\
    forall i, (i < N)%nat ->
      nth i dS 0 + nth i dI 0 = - g * nth i Inf 0 /\
      (0 <= nth i Inf 0 -> nth i dS 0 + nth i dI 0 <= 0).
Proof.
  intros H0 H1 HS HI Hg.
  exists (sir_dS Sus B Inf),
         (zip_with (fun ds i => - ds - g * i) (sir_dS Sus B Inf) Inf).
  assert (HL : length (sir_dS Sus B Inf) = length Inf)
    by (rewrite sir_dS_length; congruence).
  split; [now apply func_sir_dX_eq with (N := N)|].
  split; [rewrite sir_dS_length; assumption|].
  split; [rewrite zip_with_length, sir_dS_length; assumption|].
  intros i Hi.
  rewrite zip_with_nth by (try assumption; rewrite sir_dS_length; lia).
  split; [ring|]. intros HIi.
  assert (0 <= g * nth i Inf 0) by (apply Rmult_le_pos; assumption).
  lra.
Qed.

Lemma func_sir_dX_balance_witness :
  exists dS dI : vec,
    func_sir_dX 0 ([1/2] ++ [1/4]) (of_rows [[2]]) 3 = Ok (dS ++ dI) /\
    length dS = 1%nat /\ length dI = 1%nat /\
    forall i, (i < 1)%nat ->
      nth i dS 0 + nth i dI 0 = - 3 * nth i [1/4] 0 /\
      (0 <= nth i [1/4] 0 -> nth i dS 0 + nth i dI 0 <= 0).
Proof.
  apply (func_sir_dX_balance 0 [1/2] [1/4] (of_rows [[2]]) 3 1);
    try reflexivity; lra.
Defined.

(* ================================================================== *)
(** ** Properties of the infectivity matrix *)

Lemma diagonal_square F N :
  shape0 F = N -> shape1 F = N ->
  diagonal F = map (self_flux F) (seq 0 N).
Proof.
  intros H0 H1. unfold diagonal. now rewrite H0, H1, Nat.min_id.
Qed.

Lemma nth_map_seq2 (g : R -> R) (f : nat -> R) n i :
  (i < n)%nat -> nth i (map g (map f (seq 0 n))) 0 = g (f i).
Proof.
  intros Hi. rewrite map_map. now apply (map_seq_nth (fun k => g (f k))).
Qed.

Lemma get_infectivity_matrix_square (F : ndarray2) :
  shape1 F = shape0 F ->
  exists L : ndarray2,
    get_infectivity_matrix F = Ok L /\
    shape0 L = shape0 F /\ shape1 L = shape0 F /\
    forall i j, (i < shape0 F)%nat -> (j < shape0 F)%nat ->
      entry L i j = 1 / 2 * (scaled_flux F i j + scaled_flux F j i).
Proof.
  intros Hsq. unfold get_infectivity_matrix.
  rewrite Hsq, Nat.eqb_refl. simpl negb. cbv iota.
  unfold madd at 1. simpl. rewrite Hsq, !Nat.eqb_refl. simpl.
  unfold einsum_ij_i. simpl.
  rewrite (diagonal_square F (shape0 F)) by auto.
  rewrite !length_map, length_seq, Nat.eqb_refl. simpl.
  unfold madd. simpl. rewrite !Nat.eqb_refl. simpl.
  eexists. split; [reflexivity|]. simpl.
  split; [reflexivity|]. split; [reflexivity|].
  intros i j Hi Hj. unfold scaled_flux.
  rewrite !(nth_map_seq2 _ (self_flux F)) by assumption.
  rewrite !(map_seq_nth (self_flux F)) by assumption.
  fold (inv_self_flux F i). fold (inv_self_flux F j).
  rewrite (Nat.eqb_sym j i). reflexivity.
Qed.

(** C3: for a square flux matrix [F] of size [N], [get_infectivity_matrix]
    returns the [N x N] matrix [0.5 * (L + L.T)], where [L] is [F + F.T]
    with the diagonal replaced by [p_i = F_ii] and row [i] scaled by
    [1 / p_i] if [p_i > 0] and by [0] otherwise; for a non-square [F] it
    raises [ValueError]. *)
Theorem get_infectivity_matrix_spec (F : ndarray2) :
  if (shape1 F =? shape0 F)%nat then
    exists L : ndarray2,
      get_infectivity_matrix F = Ok L /\
      shape0 L = shape0 F /\ shape1 L = shape0 F /\
      forall i j, (i < shape0 F)%nat -> (j < shape0 F)%nat ->
        entry L i j = 1 / 2 * (scaled_flux F i j + scaled_flux F j i)
  else get_infectivity_matrix F = Raise (ValueError EmptyString).
Proof.
  destruct (shape1 F =? shape0 F)%nat eqn:Hsq.
  - apply get_infectivity_matrix_square. now apply Nat.eqb_eq.
  - unfold get_infectivity_matrix. now rewrite Hsq.
Qed.

(** The normalisation of [[2, 1], [3, 0]]: the second row has no
    self-flux and is scaled to zero before the symmetrisation. *)
Example get_infectivity_matrix_2x2 :
  exists L : ndarray2,
    get_infectivity_matrix (of_rows [[2; 1]; [3; 0]]) = Ok L /\
    entry L 0 0 = 1 /\ entry L 0 1 = 1 /\ entry L 1 0 = 1 /\ entry L 1 1 = 0.
Proof.
  destruct (get_infectivity_matrix_square (of_rows [[2; 1]; [3; 0]]))
    as (L & HL & _ & _ & Hent); [reflexivity|].
  exists L. split; [exact HL|].
  rewrite !Hent by (simpl; lia).
  unfold scaled_flux, inv_self_flux, self_flux. simpl.
  destruct (Rlt_dec 0 2) as [_|n]; [|exfalso; apply n; lra].
  destruct (Rlt_dec 0 0) as [l|_]; [exfalso; lra|].
  repeat split; lra.
Qed.

(* ================================================================== *)
(** ** Properties of the epidemic-size iteration *)

Lemma es_B_length eps X :
  length eps = length X -> length (es_B eps X) = length eps.
Proof. intros H. unfold es_B. now apply zip_with_length. Qed.

Lemma es_B_nth eps X i :
  length eps = length X -> (i < length eps)%nat ->
  nth i (es_B eps X) 0 = 1 - (1 - nth i eps 0) * exp (- nth i X 0).
Proof.
  intros H Hi. unfold es_B.
  now rewrite (zip_with_nth (fun e x => 1 - (1 - e) * exp (- x))).
Qed.

Lemma es_iterate_length M eps gamma k :
  length (es_iterate M eps gamma k) = shape0 M.
Proof.
  destruct k; simpl.
  - apply repeat_length.
  - now rewrite length_map, length_seq.
Qed.

Lemma es_update_iterate M eps gamma k :
  shape1 M = shape0 M -> length eps = shape0 M -> gamma <> 0 ->
  es_update M eps gamma (es_iterate M eps gamma k) =
  Ok (es_iterate M eps gamma (S k)).
Proof.
  intros Hsq He Hg. unfold es_update, py_inv.
  destruct (Req_dec_T gamma 0) as [E|_]; [contradiction|]. simpl bind.
  unfold einsum_ab_b.
  rewrite es_B_length by (now rewrite es_iterate_length).
  rewrite He, Hsq, Nat.eqb_refl. simpl bind.
  rewrite map_map. simpl es_iterate. now rewrite Hsq.
Qed.

Lemma es_loop_spec M eps gamma rtol_stop itermax :
  shape1 M = shape0 M -> length eps = shape0 M -> gamma <> 0 ->
  forall n k Xo, (k + n = itermax)%nat -> (0 < n)%nat ->
  exists K, (k < K <= itermax)%nat /\
    (forall j, (k < j < K)%nat -> es_stops M eps gamma rtol_stop j = false) /\
    ((K < itermax)%nat -> es_stops M eps gamma rtol_stop K = true) /\
    es_loop M eps gamma rtol_stop itermax (seq k n)
            (mk_es Xo (es_iterate M eps gamma k) [] k) =
    Ok (es_final M eps gamma rtol_stop K).
Proof.
  intros Hsq He Hg. induction n as [|n IH]; intros k Xo Hk Hn; [lia|].
  cbn [seq es_loop es_Xnew es_printed es_iters].
  rewrite es_update_iterate by assumption. cbn [bind].
  assert (Hst : es_stops M eps gamma rtol_stop (S k) =
                flt (es_rtol (es_iterate M eps gamma k)
                             (es_iterate M eps gamma (S k))) rtol_stop).
  { unfold es_stops. now rewrite Nat.sub_succ, Nat.sub_0_r. }
  destruct (flt _ rtol_stop) eqn:Hflt.
  - exists (S k). split; [lia|]. split; [intros; lia|]. split; [auto|].
    unfold es_final. now rewrite Hst, Nat.sub_succ, Nat.sub_0_r.
  - destruct n as [|n].
    + replace (k =? itermax - 1)%nat with true
        by (symmetry; apply Nat.eqb_eq; lia).
      exists (S k). split; [lia|]. split; [intros; lia|].
      split; [intros; lia|].
      cbn [seq es_loop app]. unfold es_final.
      now rewrite Hst, Nat.sub_succ, Nat.sub_0_r.
    + replace (k =? itermax - 1)%nat with false
        by (symmetry; apply Nat.eqb_neq; lia).
      destruct (IH (S k) (Some (es_iterate M eps gamma k)))
        as (K & HK & Hbefore & Hat & Hrun); [lia|lia|].
      exists K. split; [lia|]. split; [|split; assumption].
      intros j Hj. destruct (Nat.eq_dec j (S k)) as [->|Hne].
      * now rewrite Hst.
      * apply Hbefore. lia.
Qed.

Lemma es_run_spec M eps gamma itermax rtol_stop :
  shape1 M = shape0 M -> length eps = shape0 M -> gamma <> 0 ->
  (0 < itermax)%nat ->
  exists K, (1 <= K <= itermax)%nat /\
    (forall j, (1 <= j < K)%nat -> es_stops M eps gamma rtol_stop j = false) /\
    ((K < itermax)%nat -> es_stops M eps gamma rtol_stop K = true) /\
    es_run M eps gamma itermax rtol_stop =
    Ok (es_final M eps gamma rtol_stop K) /\
    get_epidemic_size M eps gamma itermax rtol_stop =
    Ok (mean (es_B eps (es_iterate M eps gamma (K - 1))),
        es_printed (es_final M eps gamma rtol_stop K)).
Proof.
  intros Hsq He Hg Hit.
  destruct (es_loop_spec M eps gamma rtol_stop itermax Hsq He Hg
                         itermax 0%nat None) as (K & HK & Hb & Ha & Hrun);
    [lia|lia|].
  exists K. split; [lia|]. split; [intros; apply Hb; lia|].
  split; [assumption|].
  assert (Hrun' : es_run M eps gamma itermax rtol_stop =
                  Ok (es_final M eps gamma rtol_stop K)) by exact Hrun.
  split; [assumption|].
  unfold get_epidemic_size. rewrite Hsq, He, !Nat.eqb_refl. cbn [negb].
  rewrite Hrun'. cbn [bind es_final es_X es_printed].
  unfold mean. rewrite es_B_length by (now rewrite es_iterate_length).
  now rewrite He.
Qed.

(** *** The loop against the iteration of the specification *)

Lemma vsum_rsum (v : vec) : vsum v = rsum (fun i => nth i v 0) (length v).
Proof.
  induction v as [|x v IH] using rev_ind; [reflexivity|].
  rewrite length_app. simpl length. rewrite Nat.add_1_r. simpl rsum.
  rewrite app_nth2, Nat.sub_diag by lia. simpl nth.
  rewrite (rsum_ext _ (fun i => nth i v 0))
    by (intros j Hj; now rewrite app_nth1).
  rewrite <- IH. clear IH.
  induction v as [|y v IH]; simpl; [ring | rewrite IH; ring].
Qed.

Lemma norm_rsum (v : vec) :
  norm v = sqrt (rsum (fun i => nth i v 0 * nth i v 0) (length v)).
Proof.
  unfold norm. f_equal. rewrite vsum_rsum, length_map.
  apply rsum_ext. intros i Hi.
  rewrite (nth_indep _ 0 (0 * 0)) by (rewrite length_map; lia).
  now rewrite (map_nth (fun x => x * x)).
Qed.

Lemma es_iterate_spec M eps gamma k :
  shape1 M = shape0 M -> length eps = shape0 M ->
  forall i, (i < shape0 M)%nat ->
    nth i (es_iterate M eps gamma k) 0 = spec_iterate M eps gamma k i.
Proof.
  intros Hsq He. induction k as [|k IH]; intros i Hi.
  - simpl. unfold zeros. now rewrite nth_repeat.
  - cbn [es_iterate spec_iterate]. rewrite map_seq_nth by assumption.
    f_equal. apply rsum_ext. intros b Hb. rewrite Hsq in Hb.
    rewrite es_B_nth by (rewrite ?es_iterate_length; lia).
    now rewrite IH.
Qed.

Lemma es_rtol_spec M eps gamma k :
  shape1 M = shape0 M -> length eps = shape0 M ->
  es_rtol (es_iterate M eps gamma (k - 1)) (es_iterate M eps gamma k) =
  spec_rel_change M eps gamma k.
Proof.
  intros Hsq He. unfold es_rtol, spec_rel_change.
  assert (HL : forall j, length (es_iterate M eps gamma j) = shape0 M)
    by (intros j; apply es_iterate_length).
  rewrite !norm_rsum, zip_with_length, !HL by (now rewrite !HL).
  do 2 f_equal.
  - f_equal. apply rsum_ext. intros i Hi.
    rewrite zip_with_nth by (rewrite !HL; auto).
    now rewrite !es_iterate_spec.
  - f_equal; f_equal; apply rsum_ext; intros i Hi;
      now rewrite !es_iterate_spec.
Qed.

Lemma es_stops_spec M eps gamma rtol_stop k :
  shape1 M = shape0 M -> length eps = shape0 M ->
  es_stops M eps gamma rtol_stop k = spec_stops M eps gamma rtol_stop k.
Proof.
  intros Hsq He. unfold es_stops, spec_stops. now rewrite es_rtol_spec.
Qed.

Lemma mean_es_B_spec M eps gamma k :
  shape1 M = shape0 M -> length eps = shape0 M ->
  mean (es_B eps (es_iterate M eps gamma k)) = spec_size M eps gamma k.
Proof.
  intros Hsq He. unfold mean, spec_size.
  assert (HL : length (es_iterate M eps gamma k) = shape0 M)
    by apply es_iterate_length.
  assert (HB : length (es_B eps (es_iterate M eps gamma k)) = shape0 M)
    by (rewrite es_B_length; congruence).
  rewrite vsum_rsum, HB. f_equal.
  apply rsum_ext. intros i Hi.
  rewrite es_B_nth by (try congruence; lia).
  now rewrite es_iterate_spec.
Qed.

(** C2: for a square [M], a seed vector of matching length, [gamma > 0]
    and [itermax >= 1], [get_epidemic_size] iterates
    [X_(k+1) = (1/gamma) M (1 - (1-eps) exp(-X_k))] from [X_0 = 0] and
    leaves the loop after [K] updates, where [K] is the first update
    whose relative change
    [||X_(K-1) - X_K|| / (||X_(K-1)|| + ||X_K||) * 2] is below
    [rtol_stop], or [itermax] when there is none; in the latter case it
    prints the last relative change and still returns.  The value
    returned is the mean over the communities of
    [1 - (1-eps_i) exp(-X_(K-1),i)]: it is computed from the iterate the
    last update started from, not from the last iterate [X_K]. *)
Theorem get_epidemic_size_spec (M : ndarray2) (eps : vec) (gamma : R)
    (itermax : nat) (rtol_stop : R) :
  shape1 M = shape0 M -> length eps = shape0 M -> 0 < gamma ->
  (0 < itermax)%nat ->
  exists K, (1 <= K <= itermax)%nat /\
    (forall j, (1 <= j < K)%nat ->
       spec_stops M eps gamma rtol_stop j = false) /\
    ((K < itermax)%nat -> spec_stops M eps gamma rtol_stop K = true) /\
    get_epidemic_size M eps gamma itermax rtol_stop =
    Ok (spec_size M eps gamma (K - 1),
        if spec_stops M eps gamma rtol_stop K then []
        else [spec_rel_change M eps gamma K]).
Proof.
  intros Hsq He Hg Hit.
  destruct (es_run_spec M eps gamma itermax rtol_stop Hsq He) as
    (K & HK & Hb & Ha & _ & Hval); [lra|assumption|].
  exists K. split; [lia|]. split; [|split].
  - intros j Hj. rewrite <- es_stops_spec by assumption. now apply Hb.
  - intros HKlt. rewrite <- es_stops_spec by assumption. now apply Ha.
  - rewrite Hval. cbn [es_final es_printed].
    now rewrite mean_es_B_spec, es_stops_spec, es_rtol_spec.
Qed.

(** *** Monotonicity of the iterates in the scale *)

Lemma exp_le_mono x y : x <= y -> exp x <= exp y.
Proof.
  intros [H | H]; [left; now apply exp_increasing | right; now rewrite H].
Qed.

Lemma rsum_le f g n :
  (forall j, (j < n)%nat -> f j <= g j) -> rsum f n <= rsum g n.
Proof.
  induction n as [|n IH]; intros H; simpl; [lra|].
  assert (rsum f n <= rsum g n) by (apply IH; intros; apply H; lia).
  assert (f n <= g n) by (apply H; lia). lra.
Qed.

Lemma rsum_zero n : rsum (fun _ => 0) n = 0.
Proof. induction n as [|n IH]; simpl; [reflexivity|]. rewrite IH. ring. Qed.

Lemma vsum_le u v :
  length u = length v ->
  (forall i, (i < length u)%nat -> nth i u 0 <= nth i v 0) ->
  vsum u <= vsum v.
Proof.
  revert v. induction u as [|x u IH]; intros [|y v] Hl H;
    simpl in *; try discriminate; [lra|].
  assert (x <= y) by (apply (H 0%nat); lia).
  assert (vsum u <= vsum v).
  { apply IH; [lia|]. intros i Hi. apply (H (S i)). lia. }
  lra.
Qed.

Lemma es_iterate_S_nth M eps gamma k i :
  (i < shape0 M)%nat ->
  nth i (es_iterate M eps gamma (S k)) 0 =
  1 / gamma * rsum (fun b => entry M i b *
                             nth b (es_B eps (es_iterate M eps gamma k)) 0)
                   (shape1 M).
Proof.
  intros Hi. simpl es_iterate.
  now rewrite (map_seq_nth
    (fun a => 1 / gamma *
              rsum (fun b => entry M a b *
                             nth b (es_B eps (es_iterate M eps gamma k)) 0)
                   (shape1 M))).
Qed.

Lemma es_B_mono e u1 u2 :
  0 <= e <= 1 -> 0 <= u1 <= u2 ->
  0 <= 1 - (1 - e) * exp (- u1) <= 1 - (1 - e) * exp (- u2).
Proof.
  intros He Hu.
  assert (H1 : exp (- u1) <= 1)
    by (rewrite <- exp_0; apply exp_le_mono; lra).
  assert (H2 : exp (- u2) <= exp (- u1)) by (apply exp_le_mono; lra).
  assert (H3 : 0 < exp (- u2)) by apply exp_pos.
  split; nra.
Qed.

Section Monotone.

Variables (M : ndarray2) (eps : vec) (gamma x1 x2 : R).
Hypothesis Hsq : shape1 M = shape0 M.
Hypothesis Heps : length eps = shape0 M.
Hypothesis HM : forall i j, (i < shape0 M)%nat -> (j < shape0 M)%nat ->
                            0 <= entry M i j.
Hypothesis Hrange : forall i, (i < shape0 M)%nat -> 0 <= nth i eps 0 <= 1.
Hypothesis Hgamma : 0 < gamma.
Hypothesis Hx1 : 0 < x1.
Hypothesis Hx12 : x1 <= x2.

Lemma es_iterate_mono k i :
  (i < shape0 M)%nat ->
  0 <= nth i (es_iterate (mscale x1 M) eps gamma k) 0
    <= nth i (es_iterate (mscale x2 M) eps gamma k) 0.
Proof.
  revert i. induction k as [|k IH]; intros i Hi.
  - simpl. unfold zeros. rewrite nth_repeat. lra.
  - rewrite !es_iterate_S_nth by exact Hi. simpl shape1. simpl entry.
    rewrite Hsq.
    assert (Hg : 0 < 1 / gamma) by (apply Rdiv_lt_0_compat; lra).
    assert (Hterm : forall b, (b < shape0 M)%nat ->
      0 <= x1 * entry M i b *
           nth b (es_B eps (es_iterate (mscale x1 M) eps gamma k)) 0
        <= x2 * entry M i b *
           nth b (es_B eps (es_iterate (mscale x2 M) eps gamma k)) 0).
    { intros b Hb.
      rewrite !es_B_nth
        by (rewrite ?es_iterate_length; simpl; rewrite ?Heps; auto).
      pose proof (es_B_mono _ _ _ (Hrange b Hb) (IH b Hb)) as HB.
      pose proof (HM i b Hi Hb) as Hm.
      assert (0 <= x1 * entry M i b <= x2 * entry M i b) by nra.
      split; [apply Rmult_le_pos; lra|].
      apply Rmult_le_compat; lra. }
    split.
    + apply Rmult_le_pos; [lra|].
      apply Rle_trans with (rsum (fun _ => 0) (shape0 M));
        [rewrite rsum_zero; lra|].
      apply rsum_le. intros b Hb. exact (proj1 (Hterm b Hb)).
    + apply Rmult_le_compat_l; [lra|]. apply rsum_le.
      intros b Hb. exact (proj2 (Hterm b Hb)).
Qed.

Lemma es_mean_mono k :
  vsum (es_B eps (es_iterate (mscale x1 M) eps gamma k))
  <= vsum (es_B eps (es_iterate (mscale x2 M) eps gamma k)).
Proof.
  apply vsum_le.
  - rewrite !es_B_length by (now rewrite es_iterate_length). reflexivity.
  - intros i Hi.
    rewrite es_B_length in Hi by (now rewrite es_iterate_length).
    rewrite Heps in Hi.
    rewrite !es_B_nth
      by (rewrite ?es_iterate_length; simpl; rewrite ?Heps; auto).
    apply (es_B_mono _ _ _ (Hrange i Hi) (es_iterate_mono k i Hi)).
Qed.

End Monotone.

Lemma fdiv_nonzero a b : b <> 0 -> fdiv a b = Fin (a / b).
Proof.
  intros Hb. unfold fdiv. now destruct (Req_dec_T b 0).
Qed.

Lemma es_iterations_final M eps gamma itermax rtol_stop K :
  es_run M eps gamma itermax rtol_stop =
  Ok (es_final M eps gamma rtol_stop K) ->
  es_iterations M eps gamma itermax rtol_stop = K.
Proof. intros H. unfold es_iterations. now rewrite H. Qed.

(** *** Growth of the iterates with the number of updates *)

Section Growth.

Variables (M : ndarray2) (eps : vec) (gamma x : R).
Hypothesis Hsq : shape1 M = shape0 M.
Hypothesis Heps : length eps = shape0 M.
Hypothesis HM : forall i j, (i < shape0 M)%nat -> (j < shape0 M)%nat ->
                            0 <= entry M i j.
Hypothesis Hrange : forall i, (i < shape0 M)%nat -> 0 <= nth i eps 0 <= 1.
Hypothesis Hgamma : 0 < gamma.
Hypothesis Hx : 0 < x.

Lemma es_iterate_nonneg_scaled k i :
  (i < shape0 M)%nat ->
  0 <= nth i (es_iterate (mscale x M) eps gamma k) 0.
Proof.
  intros Hi.
  exact (proj1 (es_iterate_mono M eps gamma x x Hsq Heps HM Hrange Hgamma Hx
                                (Rle_refl x) k i Hi)).
Qed.

Lemma es_iterate_grows k i :
  (i < shape0 M)%nat ->
  nth i (es_iterate (mscale x M) eps gamma k) 0
  <= nth i (es_iterate (mscale x M) eps gamma (S k)) 0.
Proof.
  revert i. induction k as [|k IH]; intros i Hi.
  - apply Rle_trans with 0; [|now apply es_iterate_nonneg_scaled].
    simpl. unfold zeros. rewrite nth_repeat. lra.
  - rewrite (es_iterate_S_nth _ _ _ k), (es_iterate_S_nth _ _ _ (S k))
      by exact Hi.
    simpl shape1. simpl entry. rewrite Hsq.
    assert (Hg : 0 < 1 / gamma) by (apply Rdiv_lt_0_compat; lra).
    apply Rmult_le_compat_l; [lra|]. apply rsum_le. intros b Hb.
    rewrite !es_B_nth
      by (rewrite ?es_iterate_length; simpl; rewrite ?Heps; auto).
    pose proof (es_B_mono _ _ _ (Hrange b Hb)
                  (conj (es_iterate_nonneg_scaled k b Hb) (IH b Hb))) as HB.
    pose proof (HM i b Hi Hb) as Hm.
    apply Rmult_le_compat_l; [nra | lra].
Qed.

Lemma es_iterate_le k k' i :
  (k <= k')%nat -> (i < shape0 M)%nat ->
  nth i (es_iterate (mscale x M) eps gamma k) 0
  <= nth i (es_iterate (mscale x M) eps gamma k') 0.
Proof.
  intros Hk Hi. induction Hk as [|k' Hk IH]; [lra|].
  apply Rle_trans with (1 := IH). now apply es_iterate_grows.
Qed.

Lemma es_mean_grows k k' :
  (k <= k')%nat ->
  vsum (es_B eps (es_iterate (mscale x M) eps gamma k))
  <= vsum (es_B eps (es_iterate (mscale x M) eps gamma k')).
Proof.
  intros Hk. apply vsum_le.
  - rewrite !es_B_length by (now rewrite es_iterate_length). reflexivity.
  - intros i Hi.
    rewrite es_B_length in Hi by (now rewrite es_iterate_length).
    rewrite Heps in Hi.
    rewrite !es_B_nth
      by (rewrite ?es_iterate_length; simpl; rewrite ?Heps; auto).
    apply (es_B_mono _ _ _ (Hrange i Hi)
             (conj (es_iterate_nonneg_scaled k i Hi)
                   (es_iterate_le k k' i Hk Hi))).
Qed.

End Growth.

(** C7, as the code has it: for [M] with non-negative entries, [eps]
    with entries in [[0,1]], [gamma > 0] and [0 < x1 <= x2], the value
    [get_epidemic_size] returns for [x1 * M] is at most the one it
    returns for [x2 * M] whenever the run at the larger scale [x2]
    leaves the loop after at least as many updates as the run at
    [x1]: the iterates grow with the scale and with the number of
    updates. *)
Theorem get_epidemic_size_monotone (M : ndarray2) (eps : vec)
    (gamma : R) (itermax : nat) (rtol_stop x1 x2 : R) :
  shape1 M = shape0 M -> length eps = shape0 M ->
  (0 < shape0 M)%nat -> (0 < itermax)%nat ->
  (forall i j, (i < shape0 M)%nat -> (j < shape0 M)%nat -> 0 <= entry M i j) ->
  (forall i, (i < shape0 M)%nat -> 0 <= nth i eps 0 <= 1) ->
  0 < gamma -> 0 < x1 -> x1 <= x2 ->
  (es_iterations (mscale x1 M) eps gamma itermax rtol_stop <=
   es_iterations (mscale x2 M) eps gamma itermax rtol_stop)%nat ->
  exists o1 o2 p1 p2,
    get_epidemic_size (mscale x1 M) eps gamma itermax rtol_stop
      = Ok (Fin o1, p1) /\
    get_epidemic_size (mscale x2 M) eps gamma itermax rtol_stop
      = Ok (Fin o2, p2) /\
    o1 <= o2.
Proof.
  intros Hsq He HN Hit HM Hr Hg Hx1 Hx12 Hpasses.
  assert (Hg0 : gamma <> 0) by lra.
  destruct (es_run_spec (mscale x1 M) eps gamma itermax rtol_stop Hsq He Hg0 Hit)
    as (K1 & _ & _ & _ & Hrun1 & Hv1).
  destruct (es_run_spec (mscale x2 M) eps gamma itermax rtol_stop Hsq He Hg0 Hit)
    as (K2 & _ & _ & _ & Hrun2 & Hv2).
  apply es_iterations_final in Hrun1, Hrun2.
  rewrite Hrun1, Hrun2 in Hpasses. clear Hrun1 Hrun2.
  assert (HlenB : forall x k,
    length (es_B eps (es_iterate (mscale x M) eps gamma k)) = shape0 M).
  { intros x k. rewrite es_B_length by (now rewrite es_iterate_length).
    exact He. }
  assert (HNR : INR (shape0 M) <> 0) by (apply not_0_INR; lia).
  unfold mean in Hv1, Hv2.
  rewrite (HlenB x1), fdiv_nonzero in Hv1 by exact HNR.
  rewrite (HlenB x2), fdiv_nonzero in Hv2 by exact HNR.
  do 4 eexists. split; [exact Hv1|]. split; [exact Hv2|].
  apply Rmult_le_compat_r.
  - left. apply Rinv_0_lt_compat. apply lt_0_INR. lia.
  - apply Rle_trans
      with (vsum (es_B eps (es_iterate (mscale x2 M) eps gamma (K1 - 1)))).
    + now apply es_mean_mono.
    + apply es_mean_grows; try assumption; lra || lia.
Qed.

(** *** The iteration for a single community *)

Lemma norm_single x : norm [x] = Rabs x.
Proof.
  unfold norm. cbn [map vsum]. rewrite Rplus_0_r.
  change (x * x) with (Rsqr x). apply sqrt_Rsqr_abs.
Qed.

Lemma scalar_iterate_S x m e gamma k :
  scalar_iterate x m e gamma (S k) =
  1 / gamma * (x * m) * (1 - (1 - e) * exp (- scalar_iterate x m e gamma k)).
Proof. reflexivity. Qed.

Lemma es_iterate_single x m e gamma k :
  es_iterate (mscale x (of_rows [[m]])) [e] gamma k =
  [scalar_iterate x m e gamma k].
Proof.
  induction k as [|k IH]; [reflexivity|].
  cbn [es_iterate]. rewrite IH. rewrite scalar_iterate_S.
  cbn. f_equal. ring.
Qed.

Lemma mean_es_B_single e u :
  mean (es_B [e] [u]) = Fin (1 - (1 - e) * exp (- u)).
Proof.
  unfold mean. cbn [es_B zip_with length vsum]. cbn [INR].
  rewrite fdiv_nonzero by lra. f_equal. field.
Qed.

Lemma es_rtol_single a b :
  0 <= a -> a < b -> es_rtol [a] [b] = Fin ((b - a) / (a + b) * 2).
Proof.
  intros Ha Hab. unfold es_rtol. cbn [zip_with]. rewrite !norm_single.
  rewrite (Rabs_left (a - b)) by lra.
  rewrite (Rabs_right a), (Rabs_right b) by lra.
  rewrite fdiv_nonzero by lra. cbn [fscale]. f_equal. field. lra.
Qed.

Lemma es_rtol_zero : es_rtol [0] [0] = NaN.
Proof.
  unfold es_rtol. cbn [zip_with]. rewrite !norm_single.
  replace (0 - 0) with 0 by ring. rewrite Rabs_R0.
  unfold fdiv.
  destruct (Req_dec_T (0 + 0) 0) as [_|n]; [|exfalso; apply n; ring].
  destruct (Req_dec_T 0 0) as [_|n]; [reflexivity|exfalso; now apply n].
Qed.

Lemma flt_Fin_true r c : r < c -> flt (Fin r) c = true.
Proof. intros H. simpl. now destruct (Rlt_dec r c). Qed.

Lemma flt_Fin_false r c : c <= r -> flt (Fin r) c = false.
Proof. intros H. simpl. destruct (Rlt_dec r c); [lra|reflexivity]. Qed.

Lemma fgt_Fin_true r c : c < r -> fgt (Fin r) c = true.
Proof. intros H. simpl. now destruct (Rlt_dec c r). Qed.

Lemma fgt_Fin_false r c : r <= c -> fgt (Fin r) c = false.
Proof. intros H. simpl. destruct (Rlt_dec c r); [lra|reflexivity]. Qed.

(** With [rtol_stop = 1] the loop for a single community stops at the
    first update that less than triples the iterate. *)
Lemma es_stops_single_1 x m e gamma k :
  0 <= scalar_iterate x m e gamma k ->
  scalar_iterate x m e gamma k < scalar_iterate x m e gamma (S k) ->
  es_stops (mscale x (of_rows [[m]])) [e] gamma 1 (S k) =
  if Rlt_dec (scalar_iterate x m e gamma (S k))
             (3 * scalar_iterate x m e gamma k)
  then true else false.
Proof.
  intros H0 Hlt. unfold es_stops.
  rewrite Nat.sub_succ, Nat.sub_0_r, !es_iterate_single.
  rewrite es_rtol_single by assumption.
  set (a := scalar_iterate x m e gamma k) in *.
  set (b := scalar_iterate x m e gamma (S k)) in *.
  assert (Hpos : 0 < a + b) by lra.
  assert (Heq : (b - a) / (a + b) * 2 = 1 - (3 * a - b) / (a + b))
    by (field; lra).
  assert (Hinv : 0 < / (a + b)) by (apply Rinv_0_lt_compat; lra).
  unfold Rdiv in Heq at 2.
  destruct (Rlt_dec b (3 * a)) as [Hs|Hs].
  - apply flt_Fin_true.
    assert (0 < (3 * a - b) * / (a + b)) by (apply Rmult_lt_0_compat; lra).
    lra.
  - apply flt_Fin_false.
    assert (0 <= (b - 3 * a) * / (a + b)) by (apply Rmult_le_pos; lra).
    lra.
Qed.

Lemma exp_neg_upper u : 0 <= u -> exp (- u) <= / (1 + u).
Proof.
  intros Hu. rewrite exp_Ropp.
  apply Rinv_le_contravar; [lra|]. apply exp_ineq1_le.
Qed.

Lemma exp_neg_upper_sq u :
  0 <= u -> exp (- u) <= / ((1 + u / 2) * (1 + u / 2)).
Proof.
  intros Hu. rewrite exp_Ropp.
  apply Rinv_le_contravar; [nra|].
  replace u with (u / 2 + u / 2) at 3 by field. rewrite exp_plus.
  pose proof (exp_ineq1_le (u / 2)).
  apply Rmult_le_compat; lra.
Qed.

Lemma exp_neg_lower u : 1 - u <= exp (- u).
Proof. pose proof (exp_ineq1_le (- u)). lra. Qed.

(** *** Concrete runs of the iteration *)

Lemma es_iterate_unit_one :
  es_iterate (of_rows [[1]]) [1 / 2] 1 1 = [1 / 2].
Proof.
  cbn. rewrite Ropp_0, exp_0. f_equal. field.
Qed.

(** The relative change is never negative: a tolerance that is not
    positive is never met. *)
Lemma spec_stops_nonpos_tolerance M eps gamma rtol_stop k :
  rtol_stop <= 0 -> spec_stops M eps gamma rtol_stop k = false.
Proof.
  intros Hr. unfold spec_stops, spec_rel_change.
  set (a := sqrt _). set (b := sqrt _ + sqrt _).
  assert (Ha : 0 <= a) by apply sqrt_pos.
  assert (Hb : 0 <= b).
  { unfold b. apply Rplus_le_le_0_compat; apply sqrt_pos. }
  unfold fdiv.
  destruct (Req_dec_T b 0) as [Eb|Eb].
  - destruct (Req_dec_T a 0) as [Ea|Ea]; [reflexivity|].
    destruct (Rlt_dec 0 a) as [_|n]; [|exfalso; lra].
    simpl. destruct (Rlt_dec 0 2) as [_|n]; [reflexivity|exfalso; lra].
  - simpl. apply flt_Fin_false.
    assert (0 <= a / b).
    { apply Rmult_le_pos; [exact Ha|]. left. apply Rinv_0_lt_compat. lra. }
    lra.
Qed.

Lemma get_epidemic_size_spec_witness :
  exists printed,
    get_epidemic_size (of_rows [[1]]) [1 / 2] 1 2 0 =
    Ok (Fin (1 - (1 - 1 / 2) * exp (- (1 / 2))), printed).
Proof.
  destruct (get_epidemic_size_spec (of_rows [[1]]) [1 / 2] 1 2 0)
    as (K & HK & _ & Hstop & Hval); [reflexivity | reflexivity | lra | lia |].
  assert (HK2 : K = 2%nat).
  { destruct (Nat.eq_dec K 2) as [E|E]; [exact E|].
    assert (HK1 : (K < 2)%nat) by lia. specialize (Hstop HK1).
    rewrite spec_stops_nonpos_tolerance in Hstop by lra. discriminate. }
  subst K.
  assert (Hs : spec_size (of_rows [[1]]) [1 / 2] 1 (2 - 1) =
               Fin (1 - (1 - 1 / 2) * exp (- (1 / 2)))).
  { unfold spec_size.
    cbn [Nat.sub shape0 shape1 of_rows length hd rsum spec_iterate entry nth
         INR].
    rewrite fdiv_nonzero by lra. f_equal.
    rewrite Ropp_0, exp_0.
    replace (- (1 / 1 * (0 + 1 * (1 - (1 - 1 / 2) * 1)))) with (- (1 / 2))
      by field.
    field. }
  rewrite Hs in Hval. eexists. exact Hval.
Defined.

(** C2, as stated, fails: with [M = [[1]]], [eps = [1/2]], [gamma = 1]
    and [itermax = 1] the only iterate computed is [X_1 = [1/2]], the
    value returned is [1/2 = 1 - (1 - 1/2) exp(-0)], obtained from
    [X_0], and the mean of [1 - (1-eps) exp(-X_1)] is a different
    number. *)
Lemma get_epidemic_size_last_iterate_counterexample :
  get_epidemic_size (of_rows [[1]]) [1 / 2] 1 1 (1 / 100000000)
    = Ok (Fin (1 / 2), [Fin 2]) /\
  mean (es_B [1 / 2] (es_iterate (of_rows [[1]]) [1 / 2] 1 1)) <> Fin (1 / 2).
Proof.
  split.
  - destruct (es_run_spec (of_rows [[1]]) [1 / 2] 1 1 (1 / 100000000))
      as (K & HK & _ & _ & _ & Hval); [reflexivity|reflexivity|lra|lia|].
    assert (K = 1%nat) by lia. subst K. rewrite Hval.
    cbn [es_final es_printed]. unfold es_stops. cbn [Nat.sub].
    rewrite es_iterate_unit_one. cbn [es_iterate shape0 of_rows length zeros repeat].
    rewrite es_rtol_single by lra.
    replace ((1 / 2 - 0) / (0 + 1 / 2) * 2) with 2 by field.
    rewrite flt_Fin_false by lra.
    rewrite mean_es_B_single. rewrite Ropp_0, exp_0.
    do 3 f_equal. field.
  - rewrite es_iterate_unit_one, mean_es_B_single.
    intros H. injection H as H.
    assert (Hx : exp (- (1 / 2)) < exp 0) by (apply exp_increasing; lra).
    rewrite exp_0 in Hx.
    lra.
Qed.

Lemma scalar_50_1 : scalar_iterate 50 1 (1 / 100) 1 1 = 1 / 2.
Proof.
  rewrite scalar_iterate_S. cbn [scalar_iterate]. rewrite Ropp_0, exp_0. field.
Qed.

Lemma scalar_50_2 : 17 <= scalar_iterate 50 1 (1 / 100) 1 2 <= 101 / 4.
Proof.
  rewrite scalar_iterate_S, scalar_50_1.
  pose proof (exp_neg_upper (1 / 2)) as Hu.
  pose proof (exp_neg_lower (1 / 2)) as Hl.
  assert (Hi : / (1 + 1 / 2) = 2 / 3) by field.
  rewrite Hi in Hu. lra.
Qed.

Lemma scalar_50_3 :
  101 / 4 < scalar_iterate 50 1 (1 / 100) 1 3 <= 50.
Proof.
  rewrite scalar_iterate_S.
  pose proof scalar_50_2 as [Hlo Hhi].
  set (u := scalar_iterate 50 1 (1 / 100) 1 2) in *.
  pose proof (exp_neg_upper u) as Hu.
  pose proof (exp_pos (- u)) as Hp.
  assert (/ (1 + u) <= / 18) by (apply Rinv_le_contravar; lra).
  lra.
Qed.

Lemma scalar_30_1 : scalar_iterate 30 1 (1 / 100) 1 1 = 3 / 10.
Proof.
  rewrite scalar_iterate_S. cbn [scalar_iterate]. rewrite Ropp_0, exp_0. field.
Qed.

Lemma scalar_30_2 : 7 <= scalar_iterate 30 1 (1 / 100) 1 2 <= 921 / 100.
Proof.
  rewrite scalar_iterate_S, scalar_30_1.
  pose proof (exp_neg_upper (3 / 10)) as Hu.
  pose proof (exp_neg_lower (3 / 10)) as Hl.
  assert (Hi : / (1 + 3 / 10) = 10 / 13) by field.
  rewrite Hi in Hu. lra.
Qed.

Lemma scalar_30_3 : 57 / 2 <= scalar_iterate 30 1 (1 / 100) 1 3 <= 30.
Proof.
  rewrite scalar_iterate_S.
  pose proof scalar_30_2 as [Hlo Hhi].
  set (u := scalar_iterate 30 1 (1 / 100) 1 2) in *.
  pose proof (exp_neg_upper_sq u) as Hu.
  pose proof (exp_pos (- u)) as Hp.
  assert (/ ((1 + u / 2) * (1 + u / 2)) <= / 20).
  { apply Rinv_le_contravar; [lra|]. nra. }
  lra.
Qed.

Lemma es_stops_50 :
  es_stops (mscale 50 (of_rows [[1]])) [1 / 100] 1 1 1 = false /\
  es_stops (mscale 50 (of_rows [[1]])) [1 / 100] 1 1 2 = false /\
  es_stops (mscale 50 (of_rows [[1]])) [1 / 100] 1 1 3 = true.
Proof.
  pose proof scalar_50_1 as H1. pose proof scalar_50_2 as H2.
  pose proof scalar_50_3 as H3.
  assert (H0 : scalar_iterate 50 1 (1 / 100) 1 0 = 0) by reflexivity.
  repeat split; rewrite es_stops_single_1 by lra; decide_Rlt.
Qed.

Lemma es_stops_30 :
  es_stops (mscale 30 (of_rows [[1]])) [1 / 100] 1 1 1 = false /\
  es_stops (mscale 30 (of_rows [[1]])) [1 / 100] 1 1 2 = false /\
  es_stops (mscale 30 (of_rows [[1]])) [1 / 100] 1 1 3 = false.
Proof.
  pose proof scalar_30_1 as H1. pose proof scalar_30_2 as H2.
  pose proof scalar_30_3 as H3.
  assert (H0 : scalar_iterate 30 1 (1 / 100) 1 0 = 0) by reflexivity.
  repeat split; rewrite es_stops_single_1 by lra; decide_Rlt.
Qed.

(** C7, as stated, fails: with [M = [[1]]], [eps = [1/100]],
    [gamma = 1], [itermax = 4] and [rtol_stop = 1], the run at scale 50
    stops after its third update and returns [1 - 0.99 exp(-X_2)] with
    [X_2 <= 25.25], while the run at scale 30 makes all four updates
    and returns [1 - 0.99 exp(-X_3)] with [X_3 >= 28.5]: the smaller
    scale gives the larger value. *)
Lemma get_epidemic_size_monotone_counterexample :
  exists o1 o2 p1 p2,
    get_epidemic_size (mscale 30 (of_rows [[1]])) [1 / 100] 1 4 1
      = Ok (Fin o1, p1) /\
    get_epidemic_size (mscale 50 (of_rows [[1]])) [1 / 100] 1 4 1
      = Ok (Fin o2, p2) /\
    30 < 50 /\ o2 < o1.
Proof.
  destruct (es_run_spec (mscale 30 (of_rows [[1]])) [1 / 100] 1 4 1)
    as (K1 & HK1 & Hb1 & Ha1 & _ & Hv1); [reflexivity|reflexivity|lra|lia|].
  destruct (es_run_spec (mscale 50 (of_rows [[1]])) [1 / 100] 1 4 1)
    as (K2 & HK2 & Hb2 & Ha2 & _ & Hv2); [reflexivity|reflexivity|lra|lia|].
  destruct es_stops_30 as (S1 & S2 & S3).
  destruct es_stops_50 as (T1 & T2 & T3).
  assert (K1 = 4%nat).
  { destruct (Nat.eq_dec K1 4) as [|Hne]; [assumption|exfalso].
    assert (HK : (K1 < 4)%nat) by lia. specialize (Ha1 HK).
    assert (K1 = 1 \/ K1 = 2 \/ K1 = 3)%nat as [-> | [-> | ->]] by lia;
      congruence. }
  assert (K2 = 3%nat).
  { destruct (Nat.eq_dec K2 4) as [-> | Hne].
    - rewrite Hb2 in T3 by lia. discriminate.
    - assert (HK : (K2 < 4)%nat) by lia. specialize (Ha2 HK).
      assert (K2 = 1 \/ K2 = 2 \/ K2 = 3)%nat as [-> | [-> | ->]] by lia;
        congruence. }
  subst K1 K2. cbn [Nat.sub] in Hv1, Hv2.
  rewrite es_iterate_single, mean_es_B_single in Hv1, Hv2.
  do 4 eexists. split; [exact Hv1|]. split; [exact Hv2|].
  split; [lra|].
  pose proof scalar_50_2 as [_ H2]. pose proof scalar_30_3 as [H3 _].
  assert (exp (- scalar_iterate 30 1 (1 / 100) 1 3)
          < exp (- scalar_iterate 50 1 (1 / 100) 1 2))
    by (apply exp_increasing; lra).
  lra.
Qed.

(** With a tolerance that is not positive the loop makes all its
    passes. *)
Lemma es_iterations_nonpos_tolerance M eps gamma itermax rtol_stop :
  shape1 M = shape0 M -> length eps = shape0 M -> gamma <> 0 ->
  (0 < itermax)%nat -> rtol_stop <= 0 ->
  es_iterations M eps gamma itermax rtol_stop = itermax.
Proof.
  intros Hsq He Hg Hit Hr.
  destruct (es_run_spec M eps gamma itermax rtol_stop Hsq He Hg Hit)
    as (K & HK & _ & Hstop & Hrun & _).
  apply es_iterations_final in Hrun. rewrite Hrun.
  destruct (Nat.eq_dec K itermax) as [E|E]; [exact E|].
  assert (HKlt : (K < itermax)%nat) by lia. specialize (Hstop HKlt).
  rewrite es_stops_spec, spec_stops_nonpos_tolerance in Hstop
    by assumption.
  discriminate.
Qed.

(** Two passes on one community with coupling [x], seed [1/2] and
    [gamma = 1]: the size is computed from [X_1 = x/2]. *)
Lemma epidemic_size_unit_two_passes x :
  exists printed,
    get_epidemic_size (mscale x (of_rows [[1]])) [1 / 2] 1 2 0 =
    Ok (Fin (1 - (1 - 1 / 2) * exp (- (x * (1 / 2)))), printed).
Proof.
  destruct (es_run_spec (mscale x (of_rows [[1]])) [1 / 2] 1 2 0)
    as (K & HK & _ & Hstop & _ & Hval);
    [reflexivity | reflexivity | lra | lia |].
  assert (HK2 : K = 2%nat).
  { destruct (Nat.eq_dec K 2) as [E|E]; [exact E|].
    assert (HK1 : (K < 2)%nat) by lia. specialize (Hstop HK1).
    rewrite es_stops_spec, spec_stops_nonpos_tolerance in Hstop
      by (reflexivity || lra).
    discriminate. }
  subst K. rewrite mean_es_B_spec in Hval by reflexivity.
  assert (Hs : spec_size (mscale x (of_rows [[1]])) [1 / 2] 1 (2 - 1) =
               Fin (1 - (1 - 1 / 2) * exp (- (x * (1 / 2))))).
  { unfold spec_size.
    cbn [Nat.sub shape0 shape1 of_rows mscale length hd rsum spec_iterate
         entry nth INR].
    rewrite fdiv_nonzero by lra. f_equal.
    rewrite Ropp_0, exp_0.
    replace (- (1 / 1 * (0 + x * 1 * (1 - (1 - 1 / 2) * 1))))
      with (- (x * (1 / 2))) by field.
    field. }
  rewrite Hs in Hval. eexists. exact Hval.
Qed.

Lemma get_epidemic_size_monotone_witness :
  exists p1 p2,
    get_epidemic_size (mscale 1 (of_rows [[1]])) [1 / 2] 1 2 0
      = Ok (Fin (1 - (1 - 1 / 2) * exp (- (1 * (1 / 2)))), p1) /\
    get_epidemic_size (mscale 2 (of_rows [[1]])) [1 / 2] 1 2 0
      = Ok (Fin (1 - (1 - 1 / 2) * exp (- (2 * (1 / 2)))), p2) /\
    1 - (1 - 1 / 2) * exp (- (1 * (1 / 2)))
    <= 1 - (1 - 1 / 2) * exp (- (2 * (1 / 2))).
Proof.
  destruct (get_epidemic_size_monotone (of_rows [[1]]) [1 / 2] 1 2 0 1 2)
    as (o1 & o2 & p1 & p2 & H1 & H2 & Hle);
    try reflexivity; try lia; try lra.
  - simpl. lia.
  - intros [|i] [|j] Hi Hj; simpl in *; try lia; lra.
  - intros [|i] Hi; simpl in *; try lia; lra.
  - rewrite !es_iterations_nonpos_tolerance;
      try reflexivity; try lia; lra.
  - destruct (epidemic_size_unit_two_passes 1) as [q1 E1].
    destruct (epidemic_size_unit_two_passes 2) as [q2 E2].
    rewrite E1 in H1. rewrite E2 in H2.
    injection H1 as Ho1 Hp1. injection H2 as Ho2 Hp2.
    exists q1, q2. split; [exact E1|]. split; [exact E2|].
    rewrite Ho1, Ho2. exact Hle.
Defined.

(* ================================================================== *)
(** ** Properties of the bracket growth *)

Lemma grow_bracket_break (f : R -> result float) (c : R) (v : nat -> float) :
  forall ks x last k,
    (k < length ks)%nat ->
    (forall j, (j <= k)%nat -> f (x * c ^ j) = Ok (v j)) ->
    (forall j, (j < k)%nat -> fgt (v j) 0 = false) ->
    fgt (v k) 0 = true ->
    grow_bracket f c ks x last = Ok (x * c ^ k, Some (v k)).
Proof.
  intros ks. revert v.
  induction ks as [|k0 ks IH]; intros v x last k Hk Hf Hno Hyes;
    simpl in Hk; [lia|].
  cbn [grow_bracket].
  assert (H0 : f x = Ok (v 0%nat)).
  { rewrite <- (Hf 0%nat) by lia. f_equal. simpl. ring. }
  rewrite H0. cbn [bind].
  destruct k as [|k].
  - rewrite Hyes. do 2 f_equal. simpl. ring.
  - rewrite (Hno 0%nat) by lia.
    rewrite (IH (fun j => v (S j)) (x * c) (Some (v 0%nat)) k).
    + do 2 f_equal. simpl. ring.
    + lia.
    + intros j Hj. rewrite <- (Hf (S j)) by lia. f_equal. simpl. ring.
    + intros j Hj. apply (Hno (S j)). lia.
    + exact Hyes.
Qed.

Lemma grow_bracket_exhaust (f : R -> result float) (c : R) (v : nat -> float) :
  forall ks x last,
    (forall j, (j < length ks)%nat -> f (x * c ^ j) = Ok (v j)) ->
    (forall j, (j < length ks)%nat -> fgt (v j) 0 = false) ->
    grow_bracket f c ks x last =
    Ok (x * c ^ length ks,
        match length ks with
        | O => last
        | S n => Some (v n)
        end).
Proof.
  intros ks. revert v.
  induction ks as [|k0 ks IH]; intros v x last Hf Hno.
  - simpl. do 2 f_equal. ring.
  - cbn [grow_bracket length].
    assert (H0 : f x = Ok (v 0%nat)).
    { rewrite <- (Hf 0%nat) by (simpl; lia). f_equal. simpl. ring. }
    rewrite H0. cbn [bind]. rewrite (Hno 0%nat) by (simpl; lia).
    rewrite (IH (fun j => v (S j)) (x * c) (Some (v 0%nat))).
    + f_equal. f_equal; [simpl; ring|]. now destruct (length ks).
    + intros j Hj. rewrite <- (Hf (S j)) by (simpl; lia).
      f_equal. simpl. ring.
    + intros j Hj. apply (Hno (S j)). simpl. lia.
Qed.

(** Either no attempt below [n] exceeds, or there is a first one. *)
Lemma first_exceeding (v : nat -> float) (n : nat) :
  (forall j, (j < n)%nat -> fgt (v j) 0 = false) \/
  exists k, (k < n)%nat /\ fgt (v k) 0 = true /\
            forall j, (j < k)%nat -> fgt (v j) 0 = false.
Proof.
  induction n as [|n [Hnone|(k & Hk & Hyes & Hno)]].
  - left. intros; lia.
  - destruct (fgt (v n) 0) eqn:Hn.
    + right. exists n. repeat split; auto.
    + left. intros j Hj. destruct (Nat.eq_dec j n) as [->|]; auto.
      apply Hnone. lia.
  - right. exists k. repeat split; auto.
Qed.

Lemma fgt_fsub o t : fgt (fsub o t) 0 = fgt o t.
Proof.
  destruct o as [r| | |]; simpl; try reflexivity.
  destruct (Rlt_dec 0 (r - t)), (Rlt_dec t r); try reflexivity; lra.
Qed.

Lemma flt_fsub o t : flt (fsub o t) 0 = flt o t.
Proof.
  destruct o as [r| | |]; simpl; try reflexivity.
  destruct (Rlt_dec (r - t) 0), (Rlt_dec r t); try reflexivity; lra.
Qed.

(* ================================================================== *)
(** ** Properties of the calibration for a target size *)

Lemma get_epidemic_size_value M eps gamma itermax rtol_stop :
  shape1 M = shape0 M -> length eps = shape0 M -> gamma <> 0 ->
  (0 < itermax)%nat ->
  exists printed,
    get_epidemic_size M eps gamma itermax rtol_stop =
    Ok (epidemic_size_value M eps gamma itermax rtol_stop, printed).
Proof.
  intros Hsq He Hg Hit.
  destruct (es_run_spec M eps gamma itermax rtol_stop Hsq He Hg Hit)
    as (K & _ & _ & _ & _ & Hval).
  unfold epidemic_size_value. rewrite Hval. eexists. reflexivity.
Qed.

Lemma target_func_root_value M Ii gamma target rtol_stop itermax x :
  shape1 M = shape0 M -> length Ii = shape0 M -> gamma <> 0 ->
  (0 < itermax)%nat ->
  target_func_root M Ii gamma target rtol_stop itermax x =
  Ok (fsub (epidemic_size_value (mscale x M) Ii gamma itermax rtol_stop)
           target).
Proof.
  intros Hsq He Hg Hit. unfold target_func_root.
  destruct (get_epidemic_size_value (mscale x M) Ii gamma itermax rtol_stop
              Hsq He Hg Hit) as (p & Hp).
  now rewrite Hp.
Qed.

Section TargetBracket.

Variables (M : ndarray2) (Ii : vec) (gamma target rtol_stop : R)
          (itermax : nat).
Hypothesis Hsq : shape1 M = shape0 M.
Hypothesis HIi : length Ii = shape0 M.
Hypothesis Hgamma : gamma <> 0.
Hypothesis Hitermax : (0 < itermax)%nat.

Let f := target_func_root M Ii gamma target rtol_stop itermax.
Let size := size_at_attempt M Ii gamma rtol_stop itermax.
Let gap := fun k => fsub (size k) target.

Lemma target_attempt k : f (1 / 100000 * 10 ^ k) = Ok (gap k).
Proof. apply target_func_root_value; assumption. Qed.

Lemma target_attempt_0 : f (1 / 100000) = Ok (gap 0%nat).
Proof.
  rewrite <- target_attempt. f_equal. simpl. ring.
Qed.

Lemma target_bracket_low :
  fgt (size 0%nat) target = true ->
  get_target_bracket f =
  Raise (ValueError "Lower bound on scale not small enough!").
Proof.
  intros H. unfold get_target_bracket.
  rewrite target_attempt_0. cbn [bind]. unfold gap.
  now rewrite fgt_fsub, H.
Qed.

Lemma target_bracket_found k :
  (k < 10)%nat ->
  (forall j, (j < k)%nat -> fgt (size j) target = false) ->
  fgt (size k) target = true ->
  fgt (size 0%nat) target = false ->
  get_target_bracket f = Ok (1 / 100000, 1 / 100000 * 10 ^ k).
Proof.
  intros Hk Hno Hyes H0. unfold get_target_bracket.
  rewrite target_attempt_0. cbn [bind]. unfold gap at 1.
  rewrite fgt_fsub, H0.
  rewrite (grow_bracket_break f 10 gap (seq 0 10) (1 / 100000) None k).
  - cbn [bind]. destruct (flt (gap k) 0) eqn:Hlt; [|reflexivity].
    unfold gap in Hlt. rewrite flt_fsub in Hlt.
    destruct (size k) as [r| | |]; simpl in Hyes, Hlt; try discriminate.
    destruct (Rlt_dec target r), (Rlt_dec r target);
      try discriminate; lra.
  - now rewrite length_seq.
  - intros j _. apply target_attempt.
  - intros j Hj. unfold gap. rewrite fgt_fsub. now apply Hno.
  - unfold gap. now rewrite fgt_fsub.
Qed.

Lemma target_bracket_none :
  (forall j, (j < 10)%nat -> fgt (size j) target = false) ->
  get_target_bracket f =
  if flt (size 9%nat) target then Raise (ValueError "Problem in bracketing!")
  else Ok (1 / 100000, 1 / 100000 * 10 ^ 10).
Proof.
  intros Hno. unfold get_target_bracket.
  rewrite target_attempt_0. cbn [bind]. unfold gap at 1.
  rewrite fgt_fsub, (Hno 0%nat) by lia.
  rewrite (grow_bracket_exhaust f 10 gap (seq 0 10) (1 / 100000) None).
  - rewrite length_seq. cbn [bind]. unfold gap. now rewrite flt_fsub.
  - intros j _. apply target_attempt.
  - rewrite length_seq. intros j Hj. unfold gap. rewrite fgt_fsub.
    now apply Hno.
Qed.

Lemma target_bracket_raise_iff e :
  get_target_bracket f = Raise e <->
  (fgt (size 0%nat) target = true /\
   e = ValueError "Lower bound on scale not small enough!") \/
  ((forall j, (j < 10)%nat -> fgt (size j) target = false) /\
   flt (size 9%nat) target = true /\
   e = ValueError "Problem in bracketing!").
Proof.
  split.
  - intros Hraise.
    destruct (fgt (size 0%nat) target) eqn:H0.
    + left. rewrite target_bracket_low in Hraise by assumption.
      split; [reflexivity|congruence].
    + right.
      destruct (first_exceeding (fun k => fsub (size k) target) 10)
        as [Hnone|(k & Hk & Hyes & Hno)].
      * assert (Hnone' : forall j, (j < 10)%nat -> fgt (size j) target = false).
        { intros j Hj. rewrite <- fgt_fsub. now apply Hnone. }
        rewrite target_bracket_none in Hraise by assumption.
        destruct (flt (size 9%nat) target); [|discriminate].
        repeat split; [assumption|congruence].
      * rewrite fgt_fsub in Hyes.
        rewrite (target_bracket_found k) in Hraise;
          [discriminate|assumption| |assumption|assumption].
        intros j Hj. rewrite <- fgt_fsub. now apply Hno.
  - intros [[H0 ->]|(Hnone & Hlast & ->)].
    + now apply target_bracket_low.
    + rewrite target_bracket_none by assumption. now rewrite Hlast.
Qed.

End TargetBracket.

(** C4, as the code has it: for a square [M], a seed of matching length,
    [gamma > 0] and [itermax >= 1], the bracketing of [get_target_scale]
    raises exactly in two cases: the epidemic size at the scale [1e-5]
    exceeds the target, or none of the ten sizes at the scales
    [1e-5 * 10^k], [k = 0..9], exceeds the target and the last of them is
    strictly below it.  In the first case [get_target_scale] raises
    without calling the root finder; in every case without a bracketing
    error the bracket is handed to the root finder, whose outcome is the
    outcome of the call. *)
Theorem get_target_scale_bracketing (M : ndarray2) (Ii : vec)
    (gamma target rtol_stop : R) (itermax : nat) :
  shape1 M = shape0 M -> length Ii = shape0 M -> 0 < gamma ->
  (0 < itermax)%nat ->
  let size := size_at_attempt M Ii gamma rtol_stop itermax in
  let f := target_func_root M Ii gamma target rtol_stop itermax in
  (forall e, get_target_bracket f = Raise e <->
     (fgt (size 0%nat) target = true /\
      e = ValueError "Lower bound on scale not small enough!") \/
     ((forall j, (j < 10)%nat -> fgt (size j) target = false) /\
      flt (size 9%nat) target = true /\
      e = ValueError "Problem in bracketing!")) /\
  (forall e, get_target_bracket f = Raise e ->
     get_target_scale M Ii gamma target rtol_stop itermax = Raise e) /\
  (forall xlo xhi, get_target_bracket f = Ok (xlo, xhi) ->
     xlo = 1 / 100000 /\
     get_target_scale M Ii gamma target rtol_stop itermax =
     (sol <- root_scalar f xlo xhi ;; Ok (root sol))).
Proof.
  intros Hsq HIi Hg Hit size f.
  assert (Hg0 : gamma <> 0) by lra.
  split; [|split].
  - intros e. apply target_bracket_raise_iff; assumption.
  - intros e He. unfold get_target_scale. fold f. now rewrite He.
  - intros xlo xhi Hb. split.
    + unfold get_target_bracket in Hb.
      destruct (f (1 / 100000)) as [flo|]; cbn [bind] in Hb; [|discriminate].
      destruct (fgt flo 0); [discriminate|].
      destruct (grow_bracket f 10 (seq 0 10) (1 / 100000) None)
        as [[xhi' [v|]]|]; cbn [bind] in Hb; try discriminate.
      destruct (flt v 0); [discriminate|]. congruence.
    + unfold get_target_scale. fold f. now rewrite Hb.
Qed.

(** *** A vanishing infectivity matrix *)

Lemma scalar_iterate_zero x e gamma k : scalar_iterate x 0 e gamma k = 0.
Proof. destruct k; [reflexivity|]. rewrite scalar_iterate_S. ring. Qed.

Lemma es_stops_zero x e gamma rtol_stop k :
  es_stops (mscale x (of_rows [[0]])) [e] gamma rtol_stop k = false.
Proof.
  unfold es_stops. rewrite !es_iterate_single, !scalar_iterate_zero.
  now rewrite es_rtol_zero.
Qed.

Lemma epidemic_size_value_zero x e gamma itermax rtol_stop :
  gamma <> 0 -> (0 < itermax)%nat ->
  epidemic_size_value (mscale x (of_rows [[0]])) [e] gamma itermax rtol_stop
  = Fin e.
Proof.
  intros Hg Hit.
  destruct (es_run_spec (mscale x (of_rows [[0]])) [e] gamma itermax rtol_stop)
    as (K & _ & _ & _ & _ & Hval); try reflexivity; try assumption.
  unfold epidemic_size_value. rewrite Hval.
  rewrite es_iterate_single, scalar_iterate_zero, mean_es_B_single.
  rewrite Ropp_0, exp_0. f_equal. ring.
Qed.

(* ================================================================== *)
(** ** Properties of the day-stepped integration *)

(** The dates [t0, t0 + 1, ..., t0 + n - 1]. *)
Lemma arange_length n : length (arange n) = Z.to_nat n.
Proof. unfold arange. now rewrite length_map, length_seq. Qed.

Lemma arange_nth n i :
  (i < Z.to_nat n)%nat -> nth i (arange n) 0%Z = Z.of_nat i.
Proof.
  intros Hi. unfold arange.
  rewrite (nth_indep _ 0%Z (Z.of_nat 0))
    by (rewrite length_map, length_seq; lia).
  rewrite map_nth, seq_nth by lia. reflexivity.
Qed.

Lemma seq_offset a n : seq a n = map (fun k => (a + k)%nat) (seq 0 n).
Proof.
  revert a. induction n as [|n IH]; intros a; [reflexivity|].
  simpl. f_equal; [lia|].
  rewrite (IH (S a)), (IH 1%nat), map_map.
  apply map_ext. intros k. lia.
Qed.

Lemma arange_app a b :
  (0 <= a)%Z -> (0 <= b)%Z ->
  arange (a + b) = arange a ++ map (fun d => (a + d)%Z) (arange b).
Proof.
  intros Ha Hb. unfold arange.
  rewrite Z2Nat.inj_add, seq_app, map_app by lia. f_equal.
  simpl. rewrite seq_offset, !map_map.
  apply map_ext. intros k. lia.
Qed.

Lemma arange_tl n :
  (0 <= n)%Z -> tl (arange (n + 1)) = map (fun d => (1 + d)%Z) (arange n).
Proof.
  intros Hn. rewrite Z.add_comm, (arange_app 1 n) by lia. reflexivity.
Qed.

Lemma length_tl_pred {A : Type} (l : list A) :
  length (tl l) = (length l - 1)%nat.
Proof. destruct l; simpl; lia. Qed.

Lemma last_cons_default {A : Type} (a d : A) (l : list A) :
  last (a :: l) d = last l a.
Proof.
  revert a d. induction l as [|b l IH]; intros a d; [reflexivity|].
  change (last (a :: b :: l) d) with (last (b :: l) d).
  now rewrite (IH b d), (IH b a).
Qed.

Lemma days_from_extend t0 t tnew :
  (t0 <= t)%Z -> (t <= tnew)%Z ->
  days_from t0 (t - t0 + 1)
    ++ map (fun x => (t + x)%Z) (tl (arange (tnew - t + 1)))
  = days_from t0 (tnew - t0 + 1).
Proof.
  intros H0 Ht. unfold days_from.
  replace (tnew - t0 + 1)%Z with ((t - t0 + 1) + (tnew - t))%Z by lia.
  rewrite (arange_app (t - t0 + 1) (tnew - t)), map_app by lia.
  rewrite (arange_tl (tnew - t)), !map_map by lia.
  f_equal. apply map_ext. intros d. lia.
Qed.

Lemma days_from_length t0 n : length (days_from t0 n) = Z.to_nat n.
Proof. unfold days_from. now rewrite length_map, arange_length. Qed.

Lemma days_from_nth t0 n i :
  (i < Z.to_nat n)%nat -> nth i (days_from t0 n) 0%Z = (t0 + Z.of_nat i)%Z.
Proof.
  intros Hi. unfold days_from.
  rewrite (nth_indep _ 0%Z (t0 + 0)%Z)
    by (rewrite length_map, arange_length; lia).
  rewrite (map_nth (fun d => (t0 + d)%Z)), arange_nth by lia. reflexivity.
Qed.

Lemma map_result_ok {A B : Type} (f : A -> result B) (l : list A) ys :
  map_result f l = Ok ys ->
  length ys = length l /\
  Forall (fun y => exists x, In x l /\ f x = Ok y) ys.
Proof.
  revert ys. induction l as [|x l IH]; intros ys H; simpl in H.
  - injection H as <-. split; [reflexivity|constructor].
  - destruct (f x) as [y|] eqn:Hy; cbn [bind] in H; [|discriminate].
    destruct (map_result f l) as [ys'|]; cbn [bind] in H; [|discriminate].
    injection H as <-. destruct (IH ys' eq_refl) as [Hl Hall].
    split; [simpl; now rewrite Hl|]. constructor.
    + exists x. split; [now left|assumption].
    + eapply Forall_impl; [|exact Hall].
      intros y' (x' & Hin & Hx'). exists x'. split; [now right|assumption].
Qed.

Lemma sir_X_to_SI_lengths X N Sus Inf :
  sir_X_to_SI X N = Ok (Sus, Inf) -> length Sus = N /\ length Inf = N.
Proof.
  unfold sir_X_to_SI. destruct (length X =? 2 * N)%nat eqn:H; [|discriminate].
  apply Nat.eqb_eq in H. intros E. injection E as <- <-.
  rewrite length_firstn, length_skipn. lia.
Qed.

Section Integrate.

(** What [solve_ivp] promises on success: one column of [sol.y] per
    requested time. *)
Hypothesis solve_ivp_columns :
  forall f y0 t_end t_eval method sol,
    solve_ivp f y0 t_end t_eval method = Ok sol ->
    success sol = true ->
    length (sol_y sol) = length t_eval.

Lemma integrate_steps_spec gamma store pathtoloc tfmt method t0 :
  forall rest scales t X B ts Xs ts' Xs',
    length scales = length rest ->
    Sorted Z.lt (t :: rest) ->
    (t0 <= t)%Z ->
    ts = days_from t0 (t - t0 + 1) ->
    length Xs = length ts ->
    integrate_steps gamma store pathtoloc tfmt method rest scales
                    t X B ts Xs = Ok (ts', Xs') ->
    ts' = days_from t0 (last rest t - t0 + 1) /\ length Xs' = length ts'.
Proof.
  induction rest as [|tnew rest IH];
    intros scales t X B ts Xs ts' Xs' Hlen Hsort H0 Hts HXs Hrun.
  - destruct scales; [|discriminate]. simpl in Hrun.
    injection Hrun as <- <-. simpl. split; assumption.
  - destruct scales as [|scale scales]; [discriminate|].
    cbn [integrate_steps] in Hrun.
    destruct (refresh_matrix t tfmt store pathtoloc B) as [B'|];
      cbn [bind] in Hrun; [|discriminate].
    destruct (solve_ivp _ X _ _ method) as [sol|] eqn:Hsol;
      cbn [bind] in Hrun; [|discriminate].
    destruct (success sol) eqn:Hsucc; cbn [negb] in Hrun; [|discriminate].
    destruct (last_item (sol_y sol)) as [Xnew|];
      cbn [bind] in Hrun; [|discriminate].
    apply Sorted_inv in Hsort. destruct Hsort as [Hsort Hhd].
    apply HdRel_inv in Hhd.
    apply solve_ivp_columns in Hsol; [|assumption].
    rewrite length_map, arange_length in Hsol.
    rewrite last_cons_default.
    eapply IH; [| | | | |exact Hrun].
    + simpl in Hlen. lia.
    + assumption.
    + lia.
    + rewrite Hts. apply days_from_extend; lia.
    + rewrite !length_app, length_map, !length_tl_pred, arange_length.
      lia.
Qed.

(** C8: on a strictly increasing sequence of dates, a successful run
    of [integrate_sir] returns one sample per day from [times[0]] to
    [times[-1]] inclusive: that many dates, consecutive and hence
    strictly increasing, starting at [times[0]], and as many [S] and
    [I] samples, each a vector whose length is the size [N] of the
    matrix stored for [times[0]]. *)
Theorem integrate_sir_daily (Xi : vec) (times : list Z) (scales : list R)
    (gamma : R) (store : Store) (pathtoloc tfmt method_solver : string)
    (t0 : Z) (B0 : ndarray2) (ts : list Z) (Ss Is : list vec) :
  hd_error times = Some t0 ->
  Sorted Z.lt times ->
  read_df t0 tfmt store pathtoloc = Ok B0 ->
  integrate_sir Xi times scales gamma store pathtoloc tfmt method_solver
    = Ok (ts, Ss, Is) ->
  let n := Z.to_nat (last times t0 - t0 + 1) in
  length ts = n /\ length Ss = n /\ length Is = n /\
  (forall i, (i < n)%nat -> nth i ts 0%Z = (t0 + Z.of_nat i)%Z) /\
  (forall i j, (i < j < n)%nat -> (nth i ts 0 < nth j ts 0)%Z) /\
  Forall (fun s => length s = shape0 B0) Ss /\
  Forall (fun s => length s = shape0 B0) Is.
Proof.
  intros Hhd Hsort HB Hrun n.
  destruct times as [|t rest]; [discriminate|].
  injection Hhd as ->. unfold integrate_sir in Hrun. cbn [bind] in Hrun.
  rewrite HB in Hrun. cbn [bind tl] in Hrun.
  destruct (length scales =? length (t0 :: rest) - 1)%nat eqn:Hchk;
    cbn [negb] in Hrun; [|discriminate].
  apply Nat.eqb_eq in Hchk. cbn [length] in Hchk.
  rewrite Nat.sub_succ, Nat.sub_0_r in Hchk.
  destruct (integrate_steps _ _ _ _ _ _ _ _ _ _ _ _) as [[ts' Xs]|] eqn:Hsteps;
    cbn [bind] in Hrun; [|discriminate].
  destruct (map_result _ Xs) as [SIs|] eqn:Hmap;
    cbn [bind] in Hrun; [|discriminate].
  injection Hrun as <- <- <-.
  apply (integrate_steps_spec _ _ _ _ _ t0) in Hsteps;
    [|assumption|assumption|lia| |reflexivity].
  2:{ unfold days_from. replace (t0 - t0 + 1)%Z with 1%Z by lia.
      simpl. f_equal. lia. }
  destruct Hsteps as [Hts HXs].
  apply map_result_ok in Hmap. destruct Hmap as [HlenSI Hall].
  assert (Hn : length ts' = n).
  { rewrite Hts, days_from_length. unfold n. now rewrite last_cons_default. }
  split; [exact Hn|].
  split; [rewrite length_map; lia|].
  split; [rewrite length_map; lia|].
  split.
  { intros i Hi. rewrite Hts. apply days_from_nth.
    rewrite <- days_from_length with (t0 := t0), <- Hts. lia. }
  split.
  { intros i j Hij. rewrite Hts.
    rewrite !days_from_nth
      by (rewrite <- days_from_length with (t0 := t0), <- Hts; lia).
    lia. }
  split; apply Forall_map; (eapply Forall_impl; [|exact Hall]);
    intros [Sus Inf] (x & _ & Hx); apply sir_X_to_SI_lengths in Hx;
    simpl; tauto.
Qed.

End Integrate.

(* ================================================================== *)
(** ** The first coupling matrix *)

(** C10: [integrate_sir] and [fit_sir] read the matrix keyed at
    [times[0]] before anything else that can fail on well-formed
    arguments, and before any call of the solver: when the store has no
    item under that key, both raise [KeyError], whatever the solver and
    the other arguments are.  The fallback to the matrix already loaded
    applies only inside the loop, to a date whose key is not listed. *)
Theorem first_matrix_required (Xi : vec) (t0 : Z) (rest : list Z)
    (scales : list R) (T_real : ndarray2) (gamma : R) (population : vec)
    (store : Store) (pathtoloc tfmt method_solver : string) (b_scale : R) :
  store_getitem store (store_key pathtoloc tfmt t0) = None ->
  integrate_sir Xi (t0 :: rest) scales gamma store pathtoloc tfmt
                method_solver
    = Raise (KeyError (store_key pathtoloc tfmt t0)) /\
  fit_sir (t0 :: rest) T_real gamma population store pathtoloc tfmt
          method_solver b_scale
    = Raise (KeyError (store_key pathtoloc tfmt t0)) /\
  (forall t B,
     existsb (String.eqb (store_key pathtoloc tfmt t)) (store_keys store)
       = false ->
     refresh_matrix t tfmt store pathtoloc B = Ok B).
Proof.
  intros Hmiss. split; [|split].
  - unfold integrate_sir, read_df. cbn [bind]. now rewrite Hmiss.
  - unfold fit_sir, read_df. cbn [bind]. now rewrite Hmiss.
  - intros t B Hnot. unfold refresh_matrix. now rewrite Hnot.
Qed.

(* ================================================================== *)
(** ** Properties of the fit *)

Lemma fgt_not_flt v : fgt v 0 = true -> flt v 0 = false.
Proof.
  destruct v as [r| | |]; simpl; try discriminate; try reflexivity.
  destruct (Rlt_dec 0 r), (Rlt_dec r 0); try discriminate; try reflexivity.
  lra.
Qed.

Lemma fit_bracket_found (f : R -> result float) (b : R) (v : nat -> float) k :
  (k < 9)%nat ->
  (forall j, (j <= k)%nat -> f (b * 3 ^ j) = Ok (v j)) ->
  (forall j, (j < k)%nat -> fgt (v j) 0 = false) ->
  fgt (v k) 0 = true ->
  fit_bracket f b = Ok (b * 3 ^ k).
Proof.
  intros Hk Hf Hno Hyes. unfold fit_bracket.
  rewrite (grow_bracket_break f 3 v (seq 1 9) b None k);
    try assumption; try (now rewrite length_seq).
  cbn [bind]. now rewrite (fgt_not_flt _ Hyes).
Qed.

Lemma fit_bracket_none (f : R -> result float) (b : R) (v : nat -> float) :
  (forall j, (j < 9)%nat -> f (b * 3 ^ j) = Ok (v j)) ->
  (forall j, (j < 9)%nat -> fgt (v j) 0 = false) ->
  fit_bracket f b =
  if flt (v 8%nat) 0 then Raise (ValueError "Problem in bracketing!")
  else Ok (b * 3 ^ 9).
Proof.
  intros Hf Hno. unfold fit_bracket.
  rewrite (grow_bracket_exhaust f 3 v (seq 1 9) b None);
    rewrite ?length_seq; try assumption.
  reflexivity.
Qed.

Lemma fit_step_inv gamma population store pathtoloc tfmt method N Y_real
    i tnew st st' :
  fit_step gamma population store pathtoloc tfmt method N Y_real i tnew st
    = Ok st' ->
  exists B ypred bhi sol,
    refresh_matrix (fit_t st) tfmt store pathtoloc (fit_B st) = Ok B /\
    nth_error Y_real i = Some ypred /\
    fit_bracket (fit_func_root (fit_X st) (tnew - fit_t st) B gamma method
                               population ypred) (fit_b_scale st) = Ok bhi /\
    root_scalar (fit_func_root (fit_X st) (tnew - fit_t st) B gamma method
                               population ypred) 0 bhi = Ok sol /\
    converged sol = true /\
    fit_b_scale st' = root sol.
Proof.
  unfold fit_step. intros H.
  destruct (refresh_matrix _ _ _ _ _) as [B|]; cbn [bind] in H; [|discriminate].
  destruct (nth_error Y_real i) as [ypred|]; cbn [bind] in H; [|discriminate].
  destruct (fit_bracket _ _) as [bhi|] eqn:Hb; cbn [bind] in H; [|discriminate].
  destruct (root_scalar _ _ _) as [sol|] eqn:Hr; cbn [bind] in H; [|discriminate].
  destruct (converged sol) eqn:Hc; cbn [negb] in H; [|discriminate].
  destruct (compute_sir_X _ _ _ _ _ _) as [Xnews|]; cbn [bind] in H;
    [|discriminate].
  destruct (last_item Xnews) as [Xnew|]; cbn [bind] in H; [|discriminate].
  destruct (get_sir_omega_X Xnew population) as [y|]; cbn [bind] in H;
    [|discriminate].
  destruct (map_result _ Xnews) as [rows|]; cbn [bind] in H; [|discriminate].
  injection H as <-. exists B, ypred, bhi, sol. cbn [fit_b_scale].
  repeat split; assumption.
Qed.

(** C5, as the code has it: in a step of [fit_sir] the bracket handed
    to the root finder has the lower end [0]; its upper end starts at
    the scale accepted by the previous step (the argument [b_scale] for
    the first step) and is multiplied by 3 after every attempt that
    does not exceed the target, for at most nine attempts, at the
    scales [b * 3^k], [k = 0..8].  The first attempt that exceeds the
    target fixes the upper end; when none of the nine does, the
    bracketing error is raised if the last attempt is strictly below
    the target, and otherwise the upper end is [b * 3^9]. *)
Theorem fit_step_bracket (gamma : R) (population : vec) (store : Store)
    (pathtoloc tfmt method_solver : string) (N : nat) (Y_real : list float)
    (i : nat) (tnew : Z) (st : fit_state) (B : ndarray2) (ypred : float)
    (v : nat -> float) :
  refresh_matrix (fit_t st) tfmt store pathtoloc (fit_B st) = Ok B ->
  nth_error Y_real i = Some ypred ->
  let f := fit_func_root (fit_X st) (tnew - fit_t st) B gamma method_solver
                         population ypred in
  let b := fit_b_scale st in
  (forall k, (k < 9)%nat -> f (b * 3 ^ k) = Ok (v k)) ->
  (forall k, (k < 9)%nat ->
     (forall j, (j < k)%nat -> fgt (v j) 0 = false) ->
     fgt (v k) 0 = true ->
     fit_bracket f b = Ok (b * 3 ^ k)) /\
  ((forall k, (k < 9)%nat -> fgt (v k) 0 = false) ->
   fit_bracket f b =
   if flt (v 8%nat) 0 then Raise (ValueError "Problem in bracketing!")
   else Ok (b * 3 ^ 9)) /\
  (forall e, fit_bracket f b = Raise e ->
     fit_step gamma population store pathtoloc tfmt method_solver N Y_real
              i tnew st = Raise e) /\
  (forall st',
     fit_step gamma population store pathtoloc tfmt method_solver N Y_real
              i tnew st = Ok st' ->
     exists bhi sol,
       fit_bracket f b = Ok bhi /\
       root_scalar f 0 bhi = Ok sol /\
       fit_b_scale st' = root sol).
Proof.
  intros HB Hy f b Hf. split; [|split; [|split]].
  - intros k Hk Hno Hyes. apply (fit_bracket_found f b v k); auto.
    intros j Hj. apply Hf. lia.
  - intros Hno. now apply fit_bracket_none.
  - intros e He. unfold fit_step. rewrite HB. cbn [bind]. rewrite Hy.
    cbn [bind]. fold f. fold b. now rewrite He.
  - intros st' Hst.
    destruct (fit_step_inv _ _ _ _ _ _ _ _ _ _ _ _ Hst)
      as (B' & ypred' & bhi & sol & HB' & Hy' & Hb & Hr & _ & Hs).
    rewrite HB in HB'. injection HB' as <-.
    rewrite Hy in Hy'. injection Hy' as <-.
    exists bhi, sol. repeat split; assumption.
Qed.

(** The bracket growth raises only what [func_root] raised, and on a
    non-empty range it ends with a value of [func_root] bound. *)
Lemma grow_bracket_inv (f : R -> result float) (c : R) :
  forall ks x last,
    match grow_bracket f c ks x last with
    | Ok (_, o) => (ks = [] /\ o = last) \/ (exists v, o = Some v)
    | Raise e => exists y, f y = Raise e
    end.
Proof.
  induction ks as [|k ks IH]; intros x last; simpl.
  - left. now split.
  - destruct (f x) as [v|e] eqn:Hfx; cbn [bind]; [|now exists x].
    destruct (fgt v 0); [right; now exists v|].
    specialize (IH (x * c) (Some v)).
    destruct (grow_bracket f c ks (x * c) (Some v)) as [[x' o]|e];
      [|exact IH].
    destruct IH as [[_ ->]|Hv]; right; [now exists v | exact Hv].
Qed.

Lemma fit_bracket_raise (f : R -> result float) (b : R) e :
  fit_bracket f b = Raise e ->
  (exists y, f y = Raise e) \/ e = ValueError "Problem in bracketing!".
Proof.
  unfold fit_bracket. intros H.
  pose proof (grow_bracket_inv f 3 (seq 1 9) b None) as Hinv.
  destruct (grow_bracket f 3 (seq 1 9) b None) as [[bhi o]|e'];
    cbn [bind] in H.
  - destruct Hinv as [[Hnil _]|[v ->]]; [discriminate Hnil|].
    destruct (flt v 0); [|discriminate].
    injection H as <-. now right.
  - injection H as <-. now left.
Qed.

(** C9, as the code has it: a step of [fit_sir] that fails in the
    bracketing or in the root finding delivers one of three errors.
    When none of the nine attempts exceeds the target and the last one
    is below it, the [ValueError] "Problem in bracketing!"; when
    [root_scalar] itself raises (as brentq does on a bracket without a
    change of sign), that exception, unchanged; when [root_scalar]
    returns without having converged, the [ValueError]
    "root finding failed!".  The two messages of [fit_sir] are fixed
    strings: none of these errors is given the date, the step index or
    the quantities of the failed bracket by [fit_sir].  Every other
    failure of the step is an exception raised while [func_root] was
    evaluated in the bracketing, or comes after the root was found. *)
Theorem fit_step_failure (gamma : R) (population : vec) (store : Store)
    (pathtoloc tfmt method_solver : string) (N : nat) (Y_real : list float)
    (i : nat) (tnew : Z) (st : fit_state) (B : ndarray2) (ypred : float)
    (v : nat -> float) (todo : list (nat * Z)) :
  refresh_matrix (fit_t st) tfmt store pathtoloc (fit_B st) = Ok B ->
  nth_error Y_real i = Some ypred ->
  let f := fit_func_root (fit_X st) (tnew - fit_t st) B gamma method_solver
                         population ypred in
  let b := fit_b_scale st in
  (forall k, (k < 9)%nat -> f (b * 3 ^ k) = Ok (v k)) ->
  ((forall k, (k < 9)%nat -> fgt (v k) 0 = false) ->
   flt (v 8%nat) 0 = true ->
   fit_steps gamma population store pathtoloc tfmt method_solver N Y_real
             ((i, tnew) :: todo) st
     = Raise (ValueError "Problem in bracketing!")) /\
  (forall bhi e,
     fit_bracket f b = Ok bhi ->
     root_scalar f 0 bhi = Raise e ->
     fit_steps gamma population store pathtoloc tfmt method_solver N Y_real
               ((i, tnew) :: todo) st
       = Raise e) /\
  (forall bhi sol,
     fit_bracket f b = Ok bhi ->
     root_scalar f 0 bhi = Ok sol ->
     converged sol = false ->
     fit_steps gamma population store pathtoloc tfmt method_solver N Y_real
               ((i, tnew) :: todo) st
       = Raise (ValueError "root finding failed!")) /\
  (forall e,
     fit_step gamma population store pathtoloc tfmt method_solver N Y_real
              i tnew st = Raise e ->
     (exists y, f y = Raise e) \/
     e = ValueError "Problem in bracketing!" \/
     (exists bhi, fit_bracket f b = Ok bhi /\ root_scalar f 0 bhi = Raise e) \/
     e = ValueError "root finding failed!" \/
     (exists bhi sol, fit_bracket f b = Ok bhi /\
                      root_scalar f 0 bhi = Ok sol /\
                      converged sol = true)).
Proof.
  intros HB Hy f b Hf. split; [|split; [|split]].
  - intros Hno Hlast. cbn [fit_steps]. unfold fit_step.
    rewrite HB. cbn [bind]. rewrite Hy. cbn [bind]. fold f. fold b.
    rewrite (fit_bracket_none f b v Hf Hno), Hlast. reflexivity.
  - intros bhi e Hb Hr. cbn [fit_steps]. unfold fit_step.
    rewrite HB. cbn [bind]. rewrite Hy. cbn [bind]. fold f. fold b.
    rewrite Hb. cbn [bind]. rewrite Hr. reflexivity.
  - intros bhi sol Hb Hr Hc. cbn [fit_steps]. unfold fit_step.
    rewrite HB. cbn [bind]. rewrite Hy. cbn [bind]. fold f. fold b.
    rewrite Hb. cbn [bind]. rewrite Hr. cbn [bind]. rewrite Hc. reflexivity.
  - intros e H. unfold fit_step in H.
    rewrite HB in H. cbn [bind] in H. rewrite Hy in H. cbn [bind] in H.
    fold f in H. fold b in H.
    destruct (fit_bracket f b) as [bhi|e'] eqn:Hb; cbn [bind] in H.
    + destruct (root_scalar f 0 bhi) as [sol|e'] eqn:Hr; cbn [bind] in H.
      * destruct (converged sol) eqn:Hc; cbn [negb] in H.
        -- do 4 right. now exists bhi, sol.
        -- injection H as <-. do 3 right. now left.
      * injection H as <-. do 2 right. left. now exists bhi.
    + injection H as <-.
      destruct (fit_bracket_raise f b e' Hb) as [Hy'|He];
        [now left | right; now left].
Qed.

End Engine.

(* ================================================================== *)
(** ** Runs of the engine with the sample collaborators *)

Lemma euler_ivp_columns f y0 t_end t_eval method sol :
  euler_ivp f y0 t_end t_eval method = Ok sol ->
  success sol = true ->
  length (sol_y sol) = length t_eval.
Proof.
  unfold euler_ivp. intros H _.
  destruct (euler_samples f 0 y0 t_eval) as [ys|] eqn:Hs;
    cbn [bind] in H; [|discriminate].
  injection H as <-. cbn [sol_y].
  revert ys Hs. generalize 0 at 1. generalize y0.
  induction t_eval as [|t' rest IH]; intros y t ys Hs; simpl in Hs.
  - now injection Hs as <-.
  - destruct (f t y) as [fy|]; cbn [bind] in Hs; [|discriminate].
    destruct (euler_samples f t' _ rest) as [ys'|] eqn:Hs';
      cbn [bind] in Hs; [|discriminate].
    injection Hs as <-. simpl. f_equal. eapply IH. exact Hs'.
Qed.

Lemma euler_func_root s i c dt y b m :
  fit_func_root euler_ivp [s; i] dt (of_rows [[c]]) 0 m [1] (Fin y) b =
  Ok (Fin (1 - s + IZR dt * (b * c * s * i) - y)).
Proof.
  unfold fit_func_root, compute_sir_X, euler_ivp. cbn.
  rewrite fdiv_nonzero by lra. cbn [fminus]. do 2 f_equal. field.
Qed.

(** A store with the vanishing [1 x 1] matrix for day 0. *)
Lemma first_matrix_required_witness :
  integrate_sir ordinal_key euler_ivp [1 / 2; 1 / 2] (0%Z :: [1%Z]) [1] 0
                (dict_store []) "loc" "%Y-%m-%d" "DOP853"
    = Raise (KeyError (ordinal_key "loc" "%Y-%m-%d" 0)) /\
  fit_sir ordinal_key euler_ivp chord_root_scalar (0%Z :: [1%Z])
          (of_rows [[1 / 2]; [1 / 2]]) 0 [1] (dict_store [])
          "loc" "%Y-%m-%d" "DOP853" 1
    = Raise (KeyError (ordinal_key "loc" "%Y-%m-%d" 0)) /\
  (forall t B,
     existsb (String.eqb (ordinal_key "loc" "%Y-%m-%d" t))
             (store_keys (dict_store [])) = false ->
     refresh_matrix ordinal_key t "%Y-%m-%d" (dict_store []) "loc" B = Ok B).
Proof.
  apply (first_matrix_required ordinal_key euler_ivp chord_root_scalar).
  reflexivity.
Defined.

Lemma integrate_sir_daily_witness :
  exists ts Ss Is,
    integrate_sir ordinal_key euler_ivp [1 / 2; 1 / 2] [0%Z; 2%Z] [1] 0
                  (dict_store [("loc/0", of_rows [[0]])])
                  "loc" "%Y-%m-%d" "DOP853" = Ok (ts, Ss, Is) /\
    length ts = 3%nat /\ length Ss = 3%nat /\ length Is = 3%nat /\
    Forall (fun s => length s = 1%nat) Ss.
Proof.
  do 3 eexists. split; [reflexivity|].
  match goal with
  | |- length ?ts = _ /\ length ?Ss = _ /\ length ?Is = _ /\ _ =>
    destruct (integrate_sir_daily ordinal_key euler_ivp euler_ivp_columns
                [1 / 2; 1 / 2] [0%Z; 2%Z] [1] 0
                (dict_store [("loc/0", of_rows [[0]])])
                "loc" "%Y-%m-%d" "DOP853" 0%Z (of_rows [[0]]) ts Ss Is)
      as (H1 & H2 & H3 & _ & _ & H4 & _)
  end.
  - reflexivity.
  - repeat constructor.
  - reflexivity.
  - reflexivity.
  - repeat split; assumption.
Defined.

Lemma size_at_attempt_zero k :
  size_at_attempt (of_rows [[0]]) [1 / 2] 1 (1 / 100000000) 100 k
  = Fin (1 / 2).
Proof.
  unfold size_at_attempt. apply epidemic_size_value_zero; [lra|lia].
Qed.

Lemma get_target_scale_bracketing_witness :
  get_target_scale chord_root_scalar (of_rows [[0]]) [1 / 2] 1 (1 / 4)
                   (1 / 100000000) 100
  = Raise (ValueError "Lower bound on scale not small enough!").
Proof.
  destruct (get_target_scale_bracketing chord_root_scalar (of_rows [[0]])
              [1 / 2] 1 (1 / 4) (1 / 100000000) 100)
    as (Hiff & Hraise & _); [reflexivity|reflexivity|lra|lia|].
  apply Hraise, Hiff. left. split; [|reflexivity].
  rewrite size_at_attempt_zero. apply fgt_Fin_true. lra.
Defined.

(** C4, as stated, fails: with the vanishing matrix [M = [[0]]], the
    seed [eps = [1/2]], [gamma = 1] and the target [1/2], the epidemic
    size is [1/2] at each of the ten scales and never exceeds the
    target, yet no error is raised: the bracket [(1e-5, 1e5)] is handed
    to the root finder, which returns its lower end. *)
Lemma get_target_scale_no_error_counterexample :
  (forall k, (k < 10)%nat ->
     fgt (size_at_attempt (of_rows [[0]]) [1 / 2] 1 (1 / 100000000) 100 k)
         (1 / 2) = false) /\
  get_target_bracket
    (target_func_root (of_rows [[0]]) [1 / 2] 1 (1 / 2) (1 / 100000000) 100)
  = Ok (1 / 100000, 1 / 100000 * 10 ^ 10) /\
  get_target_scale chord_root_scalar (of_rows [[0]]) [1 / 2] 1 (1 / 2)
                   (1 / 100000000) 100
  = Ok (1 / 100000).
Proof.
  assert (Hno : forall k, (k < 10)%nat ->
     fgt (size_at_attempt (of_rows [[0]]) [1 / 2] 1 (1 / 100000000) 100 k)
         (1 / 2) = false).
  { intros k _. rewrite size_at_attempt_zero. apply fgt_Fin_false. lra. }
  assert (Hb : get_target_bracket
    (target_func_root (of_rows [[0]]) [1 / 2] 1 (1 / 2) (1 / 100000000) 100)
    = Ok (1 / 100000, 1 / 100000 * 10 ^ 10)).
  { rewrite target_bracket_none; try assumption;
      [|reflexivity|reflexivity|lra|lia].
    rewrite size_at_attempt_zero, flt_Fin_false by lra. reflexivity. }
  split; [exact Hno|]. split; [exact Hb|].
  unfold get_target_scale. rewrite Hb. cbn [bind].
  unfold chord_root_scalar.
  rewrite !target_func_root_value by (try reflexivity; try lra; lia).
  rewrite !epidemic_size_value_zero by (try lra; lia).
  cbn [bind fsub].
  destruct (Req_dec_T (1 / 2 - 1 / 2) 0) as [_|n];
    [reflexivity|exfalso; apply n; lra].
Qed.

(** *** Steps of the fit *)

Lemma fit_bracket_zero_coupling_below s i dt y b m :
  1 - s - y < 0 ->
  fit_bracket (fit_func_root euler_ivp [s; i] dt (of_rows [[0]]) 0 m [1]
                             (Fin y)) b
  = Raise (ValueError "Problem in bracketing!").
Proof.
  intros H.
  rewrite (fit_bracket_none _ b
             (fun k => Fin (1 - s + IZR dt * (b * 3 ^ k * 0 * s * i) - y))).
  - rewrite flt_Fin_true; [reflexivity|]. ring_simplify. lra.
  - intros j _. apply euler_func_root.
  - intros j _. apply fgt_Fin_false. ring_simplify. lra.
Qed.

Lemma fit_bracket_zero_coupling_equal s i dt y b m :
  1 - s - y = 0 ->
  fit_bracket (fit_func_root euler_ivp [s; i] dt (of_rows [[0]]) 0 m [1]
                             (Fin y)) b
  = Ok (b * 3 ^ 9).
Proof.
  intros H.
  rewrite (fit_bracket_none _ b
             (fun k => Fin (1 - s + IZR dt * (b * 3 ^ k * 0 * s * i) - y))).
  - rewrite flt_Fin_false; [reflexivity|]. ring_simplify. lra.
  - intros j _. apply euler_func_root.
  - intros j _. apply fgt_Fin_false. ring_simplify. lra.
Qed.

(** The state of [fit_sir] before its first step on one community
    with [T_real[0] = [1/2]], and the store with one matrix, for day 0. *)
Lemma fit_step_bracket_witness :
  fit_bracket
    (fit_func_root euler_ivp [1 / 2; 1 / 2] (1 - 0) (of_rows [[1]]) 0
                   "DOP853" [1] (Fin 1)) 1
  = Ok (1 * 3 ^ 1).
Proof.
  pose (st := mk_fit 0 [1 / 2; 1 / 2] (of_rows [[1]]) 1 [0%Z]
                     [([1 / 2], [1 / 2])] [Fin (1 / 2)] []).
  pose (v := fun k : nat =>
               Fin (1 - 1 / 2 + IZR (1 - 0) * (1 * 3 ^ k * 1 * (1 / 2) * (1 / 2))
                    - 1)).
  destruct (fit_step_bracket ordinal_key euler_ivp chord_root_scalar
              0 [1] (dict_store [("loc/0", of_rows [[1]])])
              "loc" "%Y-%m-%d" "DOP853" 1 [Fin (1 / 2); Fin 1] 1 1%Z st
              (of_rows [[1]]) (Fin 1) v)
    as (Hfound & _); [reflexivity|reflexivity| |].
  - intros k _. apply euler_func_root.
  - apply (Hfound 1%nat); [lia| |].
    + intros j Hj. assert (j = 0%nat) by lia. subst j.
      apply fgt_Fin_false. simpl. lra.
    + apply fgt_Fin_true. simpl. lra.
Defined.

(** C5, as stated, fails, in two ways.  With the coupling matrix
    [[1]], [gamma = 0], the state [S = I = 1/2], the target [7/10] and
    the starting scale [3^(-9)], the nine attempts at the scales
    [3^(k-9)], [k = 0..8], stay below the target and the bracketing
    error is raised, although a tenth attempt, at the scale [1], would
    exceed the target.  With the vanishing coupling matrix and the
    target [1/2] the predicted fraction equals the target at every
    scale and never exceeds it, yet no error is raised: the upper end
    of the bracket is [3^9]. *)
Lemma fit_bracket_counterexample :
  (fit_bracket
     (fit_func_root euler_ivp [1 / 2; 1 / 2] 1 (of_rows [[1]]) 0
                    "DOP853" [1] (Fin (7 / 10))) (1 / 19683)
   = Raise (ValueError "Problem in bracketing!") /\
   exists v,
     fit_func_root euler_ivp [1 / 2; 1 / 2] 1 (of_rows [[1]]) 0
                   "DOP853" [1] (Fin (7 / 10)) (1 / 19683 * 3 ^ 9) = Ok v /\
     fgt v 0 = true) /\
  ((forall k, (k < 10)%nat ->
      exists v,
        fit_func_root euler_ivp [1 / 2; 1 / 2] 1 (of_rows [[0]]) 0
                      "DOP853" [1] (Fin (1 / 2)) (1 * 3 ^ k) = Ok v /\
        fgt v 0 = false) /\
   fit_bracket
     (fit_func_root euler_ivp [1 / 2; 1 / 2] 1 (of_rows [[0]]) 0
                    "DOP853" [1] (Fin (1 / 2))) 1
   = Ok (1 * 3 ^ 9)).
Proof.
  split; split.
  - rewrite (fit_bracket_none _ (1 / 19683)
      (fun k => Fin (1 - 1 / 2
                     + 1 * (1 / 19683 * 3 ^ k * 1 * (1 / 2) * (1 / 2))
                     - 7 / 10))).
    + rewrite flt_Fin_true; [reflexivity|]. simpl. lra.
    + intros j _. apply euler_func_root.
    + intros j Hj. apply fgt_Fin_false.
      do 9 (destruct j as [|j]; [simpl; lra|]). lia.
  - eexists. split; [apply euler_func_root|].
    apply fgt_Fin_true. simpl. lra.
  - intros k _. eexists. split; [apply euler_func_root|].
    apply fgt_Fin_false. ring_simplify. lra.
  - apply fit_bracket_zero_coupling_equal. lra.
Qed.

(** Two failing steps from the state of [fit_sir] before its first
    step on one community with [T_real[0] = [1/2]]: with a vanishing
    coupling matrix and the target [3/4] the bracketing fails; with the
    coupling matrix [[1]] and the target [1/4], below the present
    fraction, the first attempt already exceeds the target, the bracket
    [(0, 1)] has no change of sign, and the error of the root finder
    reaches the caller. *)
Lemma fit_step_failure_witness :
  fit_steps ordinal_key euler_ivp chord_root_scalar 0 [1]
            (dict_store [("loc/0", of_rows [[0]])])
            "loc" "%Y-%m-%d" "DOP853" 1 [Fin (1 / 2); Fin (3 / 4)]
            ((1%nat, 1%Z) :: [])
            (mk_fit 0 [1 / 2; 1 / 2] (of_rows [[0]]) 1 [0%Z]
                    [([1 / 2], [1 / 2])] [Fin (1 / 2)] [])
  = Raise (ValueError "Problem in bracketing!") /\
  fit_steps ordinal_key euler_ivp chord_root_scalar 0 [1]
            (dict_store [("loc/0", of_rows [[1]])])
            "loc" "%Y-%m-%d" "DOP853" 1 [Fin (1 / 2); Fin (1 / 4)]
            ((1%nat, 1%Z) :: [])
            (mk_fit 0 [1 / 2; 1 / 2] (of_rows [[1]]) 1 [0%Z]
                    [([1 / 2], [1 / 2])] [Fin (1 / 2)] [])
  = Raise (ValueError "f(a) and f(b) must have different signs").
Proof.
  split.
  - pose (v := fun k : nat =>
                 Fin (1 - 1 / 2
                      + IZR (1 - 0) * (1 * 3 ^ k * 0 * (1 / 2) * (1 / 2))
                      - 3 / 4)).
    destruct (fit_step_failure ordinal_key euler_ivp chord_root_scalar
                0 [1] (dict_store [("loc/0", of_rows [[0]])])
                "loc" "%Y-%m-%d" "DOP853" 1 [Fin (1 / 2); Fin (3 / 4)] 1 1%Z
                (mk_fit 0 [1 / 2; 1 / 2] (of_rows [[0]]) 1 [0%Z]
                        [([1 / 2], [1 / 2])] [Fin (1 / 2)] [])
                (of_rows [[0]]) (Fin (3 / 4)) v [])
      as (Hbracket & _); [reflexivity|reflexivity| |].
    + intros k _. apply euler_func_root.
    + apply Hbracket.
      * intros k _. apply fgt_Fin_false. ring_simplify. lra.
      * apply flt_Fin_true. ring_simplify. lra.
  - pose (v := fun k : nat =>
                 Fin (1 - 1 / 2
                      + IZR (1 - 0) * (1 * 3 ^ k * 1 * (1 / 2) * (1 / 2))
                      - 1 / 4)).
    destruct (fit_step_failure ordinal_key euler_ivp chord_root_scalar
                0 [1] (dict_store [("loc/0", of_rows [[1]])])
                "loc" "%Y-%m-%d" "DOP853" 1 [Fin (1 / 2); Fin (1 / 4)] 1 1%Z
                (mk_fit 0 [1 / 2; 1 / 2] (of_rows [[1]]) 1 [0%Z]
                        [([1 / 2], [1 / 2])] [Fin (1 / 2)] [])
                (of_rows [[1]]) (Fin (1 / 4)) v [])
      as (_ & Hroot & _); [reflexivity|reflexivity| |].
    + intros k _. apply euler_func_root.
    + apply (Hroot (1 * 3 ^ 0)).
      * apply (fit_bracket_found _ 1 v 0); [lia | | |].
        -- intros j _. apply euler_func_root.
        -- intros j Hj. lia.
        -- apply fgt_Fin_true. simpl. lra.
      * cbn [fit_t fit_X]. unfold chord_root_scalar.
        rewrite !euler_func_root. cbn [bind].
        destruct (Req_dec_T _ 0) as [E|_]; [exfalso; simpl in E; lra|].
        destruct (Req_dec_T _ 0) as [E|_]; [exfalso; simpl in E; lra|].
        destruct (Rlt_dec 0 _) as [_|n]; [reflexivity|].
        exfalso. apply n. simpl. nra.
Defined.

(** C9, as stated, fails: two fits that differ in their dates (days 0
    and 1, days 7 and 8), in the observed fractions and in the starting
    scale, both with a vanishing coupling matrix and a target above
    the predicted fraction, abort in the bracketing with the same
    exception; it does not tell the date, the step or the bracket. *)
Lemma fit_sir_error_counterexample :
  fit_sir ordinal_key euler_ivp chord_root_scalar [0%Z; 1%Z]
          (of_rows [[1 / 2]; [3 / 4]]) 0 [1]
          (dict_store [("loc/0", of_rows [[0]])])
          "loc" "%Y-%m-%d" "DOP853" 1
  = Raise (ValueError "Problem in bracketing!") /\
  fit_sir ordinal_key euler_ivp chord_root_scalar [7%Z; 8%Z]
          (of_rows [[1 / 4]; [1 / 2]]) 0 [1]
          (dict_store [("loc/7", of_rows [[0]])])
          "loc" "%Y-%m-%d" "DOP853" 2
  = Raise (ValueError "Problem in bracketing!").
Proof.
  split.
  - unfold fit_sir. cbn -[fit_step fdiv]. unfold fit_step.
    cbn -[fit_bracket fit_func_root fdiv].
    rewrite !fdiv_nonzero by lra.
    rewrite fit_bracket_zero_coupling_below by lra. reflexivity.
  - unfold fit_sir. cbn -[fit_step fdiv]. unfold fit_step.
    cbn -[fit_bracket fit_func_root fdiv].
    rewrite !fdiv_nonzero by lra.
    rewrite fit_bracket_zero_coupling_below by lra. reflexivity.
Qed.

(* ================================================================== *)
(** ** Packing and unpacking of the SIR state *)

(** X1.  Unpacking a packed state gives back the two halves:
    [sir_X_to_SI (sir_SI_to_X S I) N] returns [(S, I)] when [S] and [I]
    both have [N] entries. *)
Theorem sir_SI_to_X_to_SI (Sus Inf : vec) (N : nat) :
  length Sus = N -> length Inf = N ->
  sir_X_to_SI (sir_SI_to_X Sus Inf) N = Ok (Sus, Inf).
Proof.
  intros HS HI. subst N. unfold sir_X_to_SI, sir_SI_to_X.
  rewrite length_app, HI.
  replace (length Sus + length Sus =? 2 * length Sus)%nat with true
    by (symmetry; apply Nat.eqb_eq; lia).
  rewrite firstn_app, Nat.sub_diag, firstn_all. simpl. rewrite app_nil_r.
  rewrite skipn_app, Nat.sub_diag, skipn_all. reflexivity.
Qed.

Lemma sir_SI_to_X_to_SI_witness :
  sir_X_to_SI (sir_SI_to_X [1; 2] [3; 4]) 2 = Ok ([1; 2], [3; 4]).
Proof. apply sir_SI_to_X_to_SI; reflexivity. Defined.

(** X2.  Whenever [sir_X_to_SI X N] returns, its two results have [N]
    entries each and packing them with [sir_SI_to_X] gives [X] back;
    it raises exactly when [X] does not have [2 N] entries. *)
Theorem sir_X_to_SI_to_X (X : vec) (N : nat) :
  match sir_X_to_SI X N with
  | Ok (Sus, Inf) =>
    sir_SI_to_X Sus Inf = X /\ length Sus = N /\ length Inf = N /\
    length X = (2 * N)%nat
  | Raise e => e = ShapeError "reshape" /\ length X <> (2 * N)%nat
  end.
Proof.
  unfold sir_X_to_SI, sir_SI_to_X.
  destruct (length X =? 2 * N)%nat eqn:E.
  - apply Nat.eqb_eq in E. rewrite firstn_skipn, length_firstn, length_skipn.
    repeat split; lia.
  - apply Nat.eqb_neq in E. split; [reflexivity | exact E].
Qed.

(* ================================================================== *)
(** ** Further properties of the SIR vector field *)

(** X3.  [func_sir_dX] returns exactly when the state has [2 N] entries,
    [N] being the number of rows of the matrix, and the number [M] of
    columns of the matrix can be matched with [N]: [M = N], or the
    einsum broadcasts an axis of length 1 ([M = 1] or [N = 1]).  In
    every other case the reshape or the einsum raises. *)
Theorem func_sir_dX_defined (t : R) (X : vec) (B : ndarray2) (g : R) :
  is_ok (func_sir_dX t X B g) =
  (length X =? 2 * shape0 B)%nat
  && ((shape1 B =? shape0 B)%nat || (shape1 B =? 1)%nat
      || (shape0 B =? 1)%nat).
Proof.
  unfold func_sir_dX, sir_X_to_SI.
  destruct (length X =? 2 * shape0 B)%nat eqn:E; [|reflexivity].
  apply Nat.eqb_eq in E. cbn [bind andb].
  unfold einsum_i_ij_j, bdim.
  rewrite length_firstn, length_skipn, E.
  replace (Nat.min (shape0 B) (2 * shape0 B)) with (shape0 B) by lia.
  replace (2 * shape0 B - shape0 B)%nat with (shape0 B) by lia.
  rewrite Nat.eqb_refl, (Nat.eqb_sym (shape0 B)). cbn [andb].
  destruct (shape1 B =? shape0 B)%nat; [reflexivity|]. cbn [orb].
  destruct (shape0 B =? 1)%nat; [now rewrite orb_true_r|].
  rewrite orb_false_r.
  destruct (shape1 B =? 1)%nat; reflexivity.
Qed.

Lemma zip_with_zeros g N :
  zip_with (fun ds i => - ds - g * i) (zeros N) (zeros N) = zeros N.
Proof.
  unfold zeros. induction N as [|n IH]; simpl; [reflexivity|].
  rewrite IH. f_equal. ring.
Qed.

(** X4.  A state without infected individuals is at rest: when every
    entry of [I] is zero, [func_sir_dX] returns the zero vector,
    whatever [S], the matrix and the recovery rate are. *)
Theorem func_sir_dX_disease_free (t : R) (Sus : vec) (B : ndarray2) (g : R)
    (N : nat) :
  shape0 B = N -> shape1 B = N -> length Sus = N ->
  func_sir_dX t (sir_SI_to_X Sus (zeros N)) B g = Ok (zeros (2 * N)).
Proof.
  intros H0 H1 HS. unfold sir_SI_to_X.
  assert (HI : length (zeros N) = N) by apply repeat_length.
  rewrite (func_sir_dX_eq t Sus (zeros N) B g N H0 H1 HS HI).
  f_equal.
  assert (HdS : sir_dS Sus B (zeros N) = zeros N).
  { apply nth_ext with (d := 0) (d' := 0).
    - now rewrite sir_dS_length, H0, HI.
    - intros i Hi. rewrite sir_dS_length, H0 in Hi.
      unfold sir_dS. rewrite map_seq_nth by lia.
      unfold zeros at 2. rewrite nth_repeat.
      rewrite (rsum_ext _ (fun _ => 0)).
      + rewrite rsum_zero. lra.
      + intros j _. unfold zeros. rewrite nth_repeat. ring. }
  rewrite HdS, zip_with_zeros.
  replace (2 * N)%nat with (N + N)%nat by lia.
  unfold zeros. now rewrite repeat_app.
Qed.

Lemma func_sir_dX_disease_free_witness :
  func_sir_dX 0 (sir_SI_to_X [1; 1 / 2] (zeros 2))
              (of_rows [[1; 2]; [3; 4]]) 5 = Ok (zeros (2 * 2)).
Proof. apply func_sir_dX_disease_free; reflexivity. Defined.

(** X5.  [fit_sir] scales the matrix as [b*B] and [integrate_sir] as
    [B*scale]; both give the same vector field, so a scale found by the
    fit acts in the integration as it did in the fit. *)
Theorem func_sir_dX_scale_side (t : R) (X : vec) (B : ndarray2) (c g : R) :
  func_sir_dX t X (mscale c B) g = func_sir_dX t X (mscale_r B c) g.
Proof.
  unfold func_sir_dX. simpl.
  destruct (sir_X_to_SI X (shape0 B)) as [[Sus Inf]|e]; simpl; [|reflexivity].
  unfold einsum_i_ij_j. simpl.
  assert (E : forall (N0 N1 : nat) (fi fj : nat -> nat),
            map (fun i => rsum (fun j => nth (fi i) Sus 0
                                         * (c * entry B (fi i) (fj j))
                                         * nth (fj j) Inf 0) N1)
                (seq 0 N0) =
            map (fun i => rsum (fun j => nth (fi i) Sus 0
                                         * (entry B (fi i) (fj j) * c)
                                         * nth (fj j) Inf 0) N1)
                (seq 0 N0)).
  { intros N0 N1 fi fj. apply map_ext. intros i. apply rsum_ext.
    intros j _. ring. }
  destruct ((length Sus =? shape0 B)%nat && (length Inf =? shape1 B)%nat).
  - now rewrite (E (shape0 B) (shape1 B) (fun i => i) (fun j => j)).
  - destruct (bdim (length Sus) (shape0 B)) as [Ni|]; [|reflexivity].
    destruct (bdim (length Inf) (shape1 B)) as [Nj|]; [|reflexivity].
    simpl.
    assert (E' :
      map (fun i => rsum (fun j => nth (bidx (length Sus) i) Sus 0
                                   * (c * entry B (bidx (shape0 B) i)
                                                  (bidx (shape1 B) j))
                                   * nth (bidx (length Inf) j) Inf 0) Nj)
          (seq 0 Ni) =
      map (fun i => rsum (fun j => nth (bidx (length Sus) i) Sus 0
                                   * (entry B (bidx (shape0 B) i)
                                              (bidx (shape1 B) j) * c)
                                   * nth (bidx (length Inf) j) Inf 0) Nj)
          (seq 0 Ni)).
    { apply map_ext. intros i. apply rsum_ext. intros j _. ring. }
    now rewrite E'.
Qed.

(* ================================================================== *)
(** ** The Jacobian [jac] *)





Lemma sir_SI_to_X_to_SI_aux (Sus Inf : vec) (N : nat) :
  length Sus = N -> length Inf = N ->
  sir_X_to_SI (Sus ++ Inf) N = Ok (Sus, Inf).
Proof.
  intros HS HI. subst N. unfold sir_X_to_SI.
  rewrite length_app, HI.
  replace (length Sus + length Sus =? 2 * length Sus)%nat with true
    by (symmetry; apply Nat.eqb_eq; lia).
  rewrite firstn_app, Nat.sub_diag, firstn_all. simpl. rewrite app_nil_r.
  rewrite skipn_app, Nat.sub_diag, skipn_all. reflexivity.
Qed.




(** X6.  [jac] returns exactly when the state has [2 N] entries, [N]
    being the number of rows of the matrix, and the matrix is [N] by
    [N] or has a single row ([N = 1], where the einsum and the
    subtraction of [g*np.eye(N)] broadcast).  For [N > 1] and a single
    column, where [func_sir_dX] still returns, the last concatenation
    refuses blocks of [N + 1] and [2 N] columns. *)
Theorem jac_defined (X : vec) (B : ndarray2) (g : R) :
  is_ok (jac X B g) =
  (length X =? 2 * shape0 B)%nat
  && ((shape1 B =? shape0 B)%nat || (shape0 B =? 1)%nat).
Proof.
  destruct B as [N M ent]. unfold jac, sir_X_to_SI. cbn [shape0 shape1].
  destruct (length X =? 2 * N)%nat eqn:E; [|reflexivity].
  apply Nat.eqb_eq in E. cbn [bind andb].
  unfold einsum_ab_b, einsum_ij_i, bdim. cbn [shape0 shape1].
  rewrite length_skipn, length_firstn, E.
  replace (2 * N - N)%nat with N by lia.
  replace (Nat.min N (2 * N)) with N by lia.
  rewrite (Nat.eqb_sym N M).
  destruct (Nat.eqb_spec M N) as [EMN|EMN].
  - subst M. cbn [bind orb].
    unfold concatenate_axis1, concatenate_axis0, msub.
    repeat (rewrite ?length_map, ?length_seq, ?Nat.eqb_refl;
            cbn [bind andb shape0 shape1 mneg np_diag mscale np_eye]).
    reflexivity.
  - cbn [orb].
    destruct (Nat.eqb_spec N 1) as [EN|EN].
    + subst N.
      replace (M =? 1)%nat with false by (symmetry; apply Nat.eqb_neq; lia).
      cbn [bind].
      unfold concatenate_axis1, concatenate_axis0, msub, bdim.
      repeat (rewrite ?length_map, ?length_seq, ?Nat.eqb_refl;
              cbn [bind andb shape0 shape1 mneg np_diag mscale np_eye seq
                   map length]).
      replace (M =? 1)%nat with false by (symmetry; apply Nat.eqb_neq; lia).
      repeat (rewrite ?length_map, ?length_seq, ?Nat.eqb_refl;
              cbn [bind andb shape0 shape1 mneg np_diag mscale np_eye]).
      reflexivity.
    + destruct (Nat.eqb_spec M 1) as [EM|EM]; [|reflexivity].
      subst M. cbn [bind].
      unfold concatenate_axis1, concatenate_axis0, msub, bdim.
      repeat (rewrite ?length_map, ?length_seq, ?Nat.eqb_refl;
              cbn [bind andb shape0 shape1 mneg np_diag mscale np_eye]).
      replace (1 =? N)%nat with false by (symmetry; apply Nat.eqb_neq; lia).
      repeat (rewrite ?length_map, ?length_seq, ?Nat.eqb_refl;
              cbn [bind andb shape0 shape1 mneg np_diag mscale np_eye]).
      replace (N + 1 =? N + N)%nat with false
        by (symmetry; apply Nat.eqb_neq; lia).
      reflexivity.
Qed.



(* ================================================================== *)
(** ** Further properties of the infectivity matrix *)

Lemma inv_self_flux_nonneg F i : 0 <= inv_self_flux F i.
Proof.
  unfold inv_self_flux. destruct (Rlt_dec 0 (self_flux F i)) as [H|H]; [|lra].
  unfold Rdiv. rewrite Rmult_1_l. left. now apply Rinv_0_lt_compat.
Qed.

(** X8.  The infectivity matrix of a square flux matrix is symmetric. *)
Theorem get_infectivity_matrix_symmetric (F : ndarray2) :
  shape1 F = shape0 F ->
  exists L : ndarray2,
    get_infectivity_matrix F = Ok L /\
    forall i j, (i < shape0 F)%nat -> (j < shape0 F)%nat ->
      entry L i j = entry L j i.
Proof.
  intros Hsq.
  destruct (get_infectivity_matrix_square F Hsq) as (L & HL & _ & _ & Hent).
  exists L. split; [exact HL|].
  intros i j Hi Hj. rewrite (Hent i j), (Hent j i) by assumption. ring.
Qed.

Lemma get_infectivity_matrix_symmetric_witness :
  exists L : ndarray2,
    get_infectivity_matrix (of_rows [[2; 1]; [3; 4]]) = Ok L /\
    forall i j, (i < 2)%nat -> (j < 2)%nat -> entry L i j = entry L j i.
Proof.
  apply (get_infectivity_matrix_symmetric (of_rows [[2; 1]; [3; 4]])).
  reflexivity.
Defined.

(** X11.  Fluxes that are all non-negative give an infectivity matrix
    whose entries are all non-negative. *)
Theorem get_infectivity_matrix_nonneg (F : ndarray2) :
  shape1 F = shape0 F ->
  (forall i j, (i < shape0 F)%nat -> (j < shape0 F)%nat -> 0 <= entry F i j) ->
  exists L : ndarray2,
    get_infectivity_matrix F = Ok L /\
    forall i j, (i < shape0 F)%nat -> (j < shape0 F)%nat -> 0 <= entry L i j.
Proof.
  intros Hsq Hpos.
  destruct (get_infectivity_matrix_square F Hsq) as (L & HL & _ & _ & Hent).
  exists L. split; [exact HL|].
  intros i j Hi Hj. rewrite Hent by assumption.
  assert (Hs : forall a b, (a < shape0 F)%nat -> (b < shape0 F)%nat ->
                           0 <= scaled_flux F a b).
  { intros a b Ha Hb. unfold scaled_flux.
    apply Rmult_le_pos; [|apply inv_self_flux_nonneg].
    destruct (a =? b)%nat.
    - unfold self_flux. now apply Hpos.
    - pose proof (Hpos a b Ha Hb). pose proof (Hpos b a Hb Ha). lra. }
  pose proof (Hs i j Hi Hj). pose proof (Hs j i Hj Hi). lra.
Qed.

Lemma get_infectivity_matrix_nonneg_witness :
  exists L : ndarray2,
    get_infectivity_matrix (of_rows [[2; 1]; [3; 4]]) = Ok L /\
    forall i j, (i < 2)%nat -> (j < 2)%nat -> 0 <= entry L i j.
Proof.
  apply (get_infectivity_matrix_nonneg (of_rows [[2; 1]; [3; 4]]));
    [reflexivity|].
  intros [|[|i]] [|[|j]] Hi Hj; simpl in *; try lia; lra.
Defined.

(* ================================================================== *)
(** ** Properties of the aggregate infected fraction *)

(** The value of [get_sir_omega_SI] on well-shaped arguments. *)
Lemma get_sir_omega_SI_eq Sus Inf P :
  length Sus = length P -> length Inf = length P ->
  get_sir_omega_SI Sus Inf P =
  Ok (fdiv (rsum (fun i => (1 - nth i Sus 0) * nth i P 0) (length P))
           (vsum P)).
Proof.
  intros HS HI. unfold get_sir_omega_SI, get_sir_omega_X, sir_SI_to_X.
  rewrite (sir_SI_to_X_to_SI_aux Sus Inf (length P) HS HI). cbn [bind].
  unfold einsum_i_i. rewrite length_map, HS, Nat.eqb_refl. cbn [bind].
  do 2 f_equal. apply rsum_ext. intros i Hi.
  rewrite (nth_indep _ 0 (1 - 0)) by (rewrite length_map; lia).
  now rewrite (map_nth (fun s => 1 - s)).
Qed.

(** X12.  The aggregate infected fraction is a fraction: for susceptible
    fractions in [0, 1] and non-negative populations that are not all
    zero, [get_sir_omega_SI] returns a finite value between 0 and 1. *)
Theorem get_sir_omega_SI_bounds (Sus Inf P : vec) :
  length Sus = length P -> length Inf = length P ->
  (forall i, (i < length P)%nat -> 0 <= nth i Sus 0 <= 1) ->
  (forall i, (i < length P)%nat -> 0 <= nth i P 0) ->
  0 < vsum P ->
  exists w, get_sir_omega_SI Sus Inf P = Ok (Fin w) /\ 0 <= w <= 1.
Proof.
  intros HS HI HSr HP Hpos.
  rewrite (get_sir_omega_SI_eq Sus Inf P HS HI).
  rewrite fdiv_nonzero by lra.
  eexists; split; [reflexivity|].
  set (num := rsum (fun i => (1 - nth i Sus 0) * nth i P 0) (length P)).
  assert (H0 : 0 <= num).
  { apply Rle_trans with (rsum (fun _ => 0) (length P));
      [rewrite rsum_zero; lra|].
    apply rsum_le. intros j Hj.
    apply Rmult_le_pos; [pose proof (HSr j Hj); lra | now apply HP]. }
  assert (H1 : num <= vsum P).
  { rewrite vsum_rsum. apply rsum_le. intros j Hj.
    pose proof (HSr j Hj). pose proof (HP j Hj). nra. }
  split.
  - apply Rmult_le_pos; [exact H0|]. left. now apply Rinv_0_lt_compat.
  - apply Rmult_le_reg_r with (vsum P); [exact Hpos|].
    unfold Rdiv. rewrite Rmult_assoc, Rinv_l by lra. lra.
Qed.

Lemma get_sir_omega_SI_bounds_witness :
  exists w, get_sir_omega_SI [1 / 2; 1] [1 / 4; 0] [10; 30] = Ok (Fin w) /\
            0 <= w <= 1.
Proof.
  apply get_sir_omega_SI_bounds; try reflexivity.
  - intros [|[|i]] Hi; simpl in *; try lia; lra.
  - intros [|[|i]] Hi; simpl in *; try lia; lra.
  - simpl. lra.
Defined.

(** X13.  The aggregate infected fraction is read off the susceptible
    half of the state alone: replacing the infected half by any other
    vector of the same length does not change what [get_sir_omega_SI]
    returns. *)
Theorem get_sir_omega_SI_ignores_infected (Sus Inf Inf' P : vec) :
  length Sus = length P -> length Inf' = length Inf ->
  get_sir_omega_SI Sus Inf P = get_sir_omega_SI Sus Inf' P.
Proof.
  intros HS HI. unfold get_sir_omega_SI, get_sir_omega_X, sir_SI_to_X,
    sir_X_to_SI.
  rewrite !length_app, HI.
  destruct (length Sus + length Inf =? 2 * length P)%nat; [|reflexivity].
  cbn [bind]. rewrite <- HS.
  rewrite !firstn_app, Nat.sub_diag, firstn_all. simpl. reflexivity.
Qed.

Lemma get_sir_omega_SI_ignores_infected_witness :
  get_sir_omega_SI [1 / 2; 1] [1 / 4; 0] [10; 30] =
  get_sir_omega_SI [1 / 2; 1] [0; 7] [10; 30].
Proof. apply get_sir_omega_SI_ignores_infected; reflexivity. Defined.

(** X14.  With populations that are all zero (also with no community at
    all) the aggregate fraction is the float [nan], not an error. *)
Theorem get_sir_omega_X_zero_population (X : vec) (N : nat) :
  length X = (2 * N)%nat ->
  get_sir_omega_X X (zeros N) = Ok NaN.
Proof.
  intros HX. unfold get_sir_omega_X, sir_X_to_SI.
  unfold zeros at 1 2. rewrite repeat_length, HX, Nat.eqb_refl. cbn [bind].
  unfold einsum_i_i.
  rewrite length_map, length_firstn, HX.
  unfold zeros at 1. rewrite repeat_length.
  replace (Nat.min N (2 * N)) with N by lia.
  rewrite Nat.eqb_refl. cbn [bind].
  assert (Hnum : rsum (fun i => nth i (map (fun s => 1 - s) (firstn N X)) 0
                                * nth i (zeros N) 0) N = 0).
  { rewrite (rsum_ext _ (fun _ => 0)); [apply rsum_zero|].
    intros j _. unfold zeros. rewrite nth_repeat. ring. }
  assert (Hden : vsum (zeros N) = 0).
  { unfold zeros. clear. induction N as [|n IH]; simpl; [reflexivity|].
    rewrite IH. ring. }
  rewrite Hnum, Hden. unfold fdiv.
  destruct (Req_dec_T 0 0) as [_|n]; [reflexivity | exfalso; now apply n].
Qed.

Lemma get_sir_omega_X_zero_population_witness :
  get_sir_omega_X [1; 1; 0; 0] (zeros 2) = Ok NaN.
Proof. apply get_sir_omega_X_zero_population. reflexivity. Defined.

(* ================================================================== *)
(** ** Edge cases and bounds of the epidemic size *)

(** X15.  With [itermax = 0] the loop body never runs, [X] is never
    bound, and the statement after the loop raises [UnboundLocalError]
    instead of returning a size. *)
Theorem get_epidemic_size_itermax_zero (M : ndarray2) (eps : vec)
    (gamma rtol_stop : R) :
  shape1 M = shape0 M -> length eps = shape0 M ->
  get_epidemic_size M eps gamma 0 rtol_stop = Raise (UnboundLocalError "X").
Proof.
  intros Hsq He. unfold get_epidemic_size.
  rewrite Hsq, He, Nat.eqb_refl. reflexivity.
Qed.

Lemma get_epidemic_size_itermax_zero_witness :
  get_epidemic_size (of_rows [[1]]) [1 / 2] 1 0 (1 / 100) =
  Raise (UnboundLocalError "X").
Proof. apply get_epidemic_size_itermax_zero; reflexivity. Defined.

Lemma es_iterate_nonneg M eps gamma k i :
  shape1 M = shape0 M -> length eps = shape0 M -> 0 < gamma ->
  (forall a b, (a < shape0 M)%nat -> (b < shape0 M)%nat -> 0 <= entry M a b) ->
  (forall a, (a < shape0 M)%nat -> 0 <= nth a eps 0 <= 1) ->
  (i < shape0 M)%nat ->
  0 <= nth i (es_iterate M eps gamma k) 0.
Proof.
  intros Hsq He Hg HM Hr. revert i.
  induction k as [|k IH]; intros i Hi.
  - simpl. unfold zeros. rewrite nth_repeat. lra.
  - rewrite es_iterate_S_nth by assumption.
    apply Rmult_le_pos.
    + unfold Rdiv. rewrite Rmult_1_l. left. now apply Rinv_0_lt_compat.
    + apply Rle_trans with (rsum (fun _ => 0) (shape1 M));
        [rewrite rsum_zero; lra|].
      apply rsum_le. intros j Hj. rewrite Hsq in Hj.
      apply Rmult_le_pos; [now apply HM|].
      rewrite es_B_nth by (rewrite ?es_iterate_length; lia).
      pose proof (Hr j Hj) as Hrj. pose proof (IH j Hj) as Hx.
      assert (Hexp : exp (- nth j (es_iterate M eps gamma k) 0) <= 1).
      { rewrite <- exp_0. apply exp_le_mono. lra. }
      pose proof (exp_pos (- nth j (es_iterate M eps gamma k) 0)). nra.
Qed.

Lemma vsum_repeat c n : vsum (repeat c n) = INR n * c.
Proof.
  induction n as [|n IH]; [simpl; ring|].
  rewrite S_INR. simpl. rewrite IH. ring.
Qed.

(** X16.  For a non-negative matrix, seeds in [0, 1] and a positive
    recovery rate the epidemic size returned is a finite number between
    0 and 1, both included. *)
Theorem get_epidemic_size_bounds (M : ndarray2) (eps : vec) (gamma : R)
    (itermax : nat) (rtol_stop : R) :
  shape1 M = shape0 M -> length eps = shape0 M -> 0 < gamma ->
  (0 < itermax)%nat -> (0 < shape0 M)%nat ->
  (forall a b, (a < shape0 M)%nat -> (b < shape0 M)%nat -> 0 <= entry M a b) ->
  (forall a, (a < shape0 M)%nat -> 0 <= nth a eps 0 <= 1) ->
  exists w printed,
    get_epidemic_size M eps gamma itermax rtol_stop = Ok (Fin w, printed) /\
    0 <= w <= 1.
Proof.
  intros Hsq He Hg Hit HN HM Hr.
  assert (Hg' : gamma <> 0) by lra.
  destruct (es_run_spec M eps gamma itermax rtol_stop Hsq He Hg' Hit)
    as (K & _ & _ & _ & _ & Hval).
  rewrite Hval. unfold mean.
  set (X := es_iterate M eps gamma (K - 1)).
  assert (HX : length X = shape0 M) by apply es_iterate_length.
  assert (HB : length (es_B eps X) = shape0 M)
    by (rewrite es_B_length; congruence).
  rewrite HB.
  assert (HNpos : 0 < INR (shape0 M)) by (apply lt_0_INR; lia).
  rewrite fdiv_nonzero by lra.
  do 2 eexists; split; [reflexivity|].
  assert (Hent : forall i, (i < shape0 M)%nat ->
                   nth i eps 0 <= nth i (es_B eps X) 0 <= 1).
  { intros i Hi. rewrite es_B_nth by (try congruence; lia).
    pose proof (Hr i Hi) as Hri.
    pose proof (es_iterate_nonneg M eps gamma (K - 1) i Hsq He Hg HM Hr Hi)
      as Hx. fold X in Hx.
    assert (Hexp : exp (- nth i X 0) <= 1).
    { rewrite <- exp_0. apply exp_le_mono. lra. }
    pose proof (exp_pos (- nth i X 0)). nra. }
  assert (Hlo : 0 <= vsum (es_B eps X)).
  { apply Rle_trans with (vsum (repeat 0 (shape0 M))).
    - rewrite vsum_repeat. lra.
    - apply vsum_le; [now rewrite repeat_length|].
      intros i Hi. rewrite repeat_length in Hi. rewrite nth_repeat.
      pose proof (Hr i Hi). pose proof (Hent i Hi). lra. }
  assert (Hhi : vsum (es_B eps X) <= INR (shape0 M)).
  { apply Rle_trans with (vsum (repeat 1 (shape0 M))).
    - apply vsum_le; [now rewrite repeat_length|].
      intros i Hi. rewrite (nth_indep (repeat 1 (shape0 M)) 0 1)
        by (rewrite repeat_length; lia).
      rewrite nth_repeat. apply Hent. lia.
    - rewrite vsum_repeat. lra. }
  split.
  - unfold Rdiv. apply Rmult_le_pos; [exact Hlo|].
    left. now apply Rinv_0_lt_compat.
  - apply Rmult_le_reg_r with (INR (shape0 M)); [exact HNpos|].
    unfold Rdiv. rewrite Rmult_assoc, Rinv_l by lra. lra.
Qed.

Lemma get_epidemic_size_bounds_witness :
  exists w printed,
    get_epidemic_size (of_rows [[1]]) [1 / 2] 1 3 (1 / 100) =
    Ok (Fin w, printed) /\
    0 <= w <= 1.
Proof.
  apply (get_epidemic_size_bounds (of_rows [[1]]) [1 / 2] 1 3 (1 / 100));
    try reflexivity; try lra; try (simpl; lia).
  - intros [|a] [|b] Ha Hb; simpl in *; try lia; lra.
  - intros [|a] Ha; simpl in *; try lia; lra.
Defined.

Lemma es_B_zeros n : es_B (zeros n) (zeros n) = zeros n.
Proof.
  unfold es_B, zeros. induction n as [|n IH]; simpl; [reflexivity|].
  rewrite IH. f_equal. rewrite Ropp_0, exp_0. ring.
Qed.

Lemma es_iterate_zeros M gamma k :
  shape1 M = shape0 M ->
  es_iterate M (zeros (shape0 M)) gamma k = zeros (shape0 M).
Proof.
  intros Hsq. induction k as [|k IH]; [reflexivity|].
  simpl. rewrite IH, es_B_zeros.
  apply nth_ext with (d := 0) (d' := 0).
  - unfold zeros. now rewrite length_map, length_seq, repeat_length.
  - intros i Hi. rewrite length_map, length_seq in Hi.
    rewrite map_seq_nth by assumption.
    unfold zeros at 2. rewrite nth_repeat.
    rewrite (rsum_ext _ (fun _ => 0)).
    + rewrite rsum_zero. ring.
    + intros j _. unfold zeros. rewrite nth_repeat. ring.
Qed.

Lemma norm_zeros n : norm (zeros n) = 0.
Proof.
  unfold norm, zeros.
  assert (H : vsum (map (fun x => x * x) (repeat 0 n)) = 0).
  { induction n as [|n IH]; simpl; [reflexivity|]. rewrite IH. ring. }
  rewrite H. apply sqrt_0.
Qed.

Lemma es_rtol_zeros n : es_rtol (zeros n) (zeros n) = NaN.
Proof.
  unfold es_rtol.
  assert (Hd : zip_with Rminus (zeros n) (zeros n) = zeros n).
  { unfold zeros. induction n as [|n IH]; simpl; [reflexivity|].
    rewrite IH. f_equal. ring. }
  rewrite Hd, norm_zeros. unfold fdiv.
  destruct (Req_dec_T (0 + 0) 0) as [_|n0]; [|exfalso; apply n0; ring].
  destruct (Req_dec_T 0 0) as [_|n0]; [reflexivity|exfalso; now apply n0].
Qed.

(** X17.  Without any initial infection the iteration stays at zero, the
    relative change is [0/0 = nan], and the stopping test is never met:
    [get_epidemic_size] uses all [itermax] passes, reports
    non-convergence with [rtol = nan], and returns the size 0. *)
Theorem get_epidemic_size_no_seed (M : ndarray2) (gamma : R) (itermax : nat)
    (rtol_stop : R) :
  shape1 M = shape0 M -> gamma <> 0 -> (0 < itermax)%nat ->
  (0 < shape0 M)%nat ->
  get_epidemic_size M (zeros (shape0 M)) gamma itermax rtol_stop =
    Ok (Fin 0, [NaN]) /\
  es_iterations M (zeros (shape0 M)) gamma itermax rtol_stop = itermax.
Proof.
  intros Hsq Hg Hit HN.
  assert (He : length (zeros (shape0 M)) = shape0 M) by apply repeat_length.
  assert (Hstop : forall k,
            es_stops M (zeros (shape0 M)) gamma rtol_stop k = false).
  { intros k. unfold es_stops.
    rewrite !es_iterate_zeros, es_rtol_zeros by assumption. reflexivity. }
  destruct (es_run_spec M (zeros (shape0 M)) gamma itermax rtol_stop
                        Hsq He Hg Hit)
    as (K & HK & _ & HKstop & Hrun & Hval).
  assert (K = itermax).
  { destruct (Nat.eq_dec K itermax) as [E|E]; [exact E|].
    assert (Hlt : (K < itermax)%nat) by lia.
    specialize (HKstop Hlt). rewrite Hstop in HKstop. discriminate. }
  subst K. split.
  - rewrite Hval. unfold es_final. cbn [es_printed].
    rewrite Hstop, !es_iterate_zeros, es_rtol_zeros, es_B_zeros by assumption.
    unfold mean, zeros. rewrite vsum_repeat, repeat_length.
    rewrite fdiv_nonzero by (apply not_0_INR; lia).
    replace (INR (shape0 M) * 0 / INR (shape0 M)) with 0
      by (unfold Rdiv; ring).
    reflexivity.
  - now apply es_iterations_final.
Qed.

Lemma get_epidemic_size_no_seed_witness :
  get_epidemic_size (of_rows [[1; 2]; [3; 4]]) (zeros 2) 1 5 (1 / 100) =
    Ok (Fin 0, [NaN]) /\
  es_iterations (of_rows [[1; 2]; [3; 4]]) (zeros 2) 1 5 (1 / 100) = 5%nat.
Proof.
  apply (get_epidemic_size_no_seed (of_rows [[1; 2]; [3; 4]]) 1 5 (1 / 100));
    try reflexivity; try lra; simpl; lia.
Defined.

(* ================================================================== *)
(** ** Edge cases of the integration and fit drivers *)

Lemma last_slice_length {A : Type} (l : list A) :
  (length (@last_slice A l) <= 1)%nat.
Proof. unfold last_slice. rewrite length_skipn. lia. Qed.

Lemma map_result_cons_inv {A B : Type} (f : A -> result B) x l ys :
  map_result f (x :: l) = Ok ys ->
  exists y ys', ys = y :: ys' /\ f x = Ok y /\ map_result f l = Ok ys'.
Proof.
  simpl. destruct (f x) as [y|]; cbn [bind]; [|discriminate].
  destruct (map_result f l) as [ys'|]; cbn [bind]; [|discriminate].
  intros H. injection H as <-. now exists y, ys'.
Qed.

Section EngineProperties.

Variable store_key : string -> string -> Z -> string.

Variable solve_ivp :
  (R -> vec -> result vec) -> vec -> R -> list R -> string -> result ode_result.

Variable root_scalar : (R -> result float) -> R -> R -> result root_results.

(** The loop of [integrate_sir] only appends to [ts] and [Xs]. *)
Lemma integrate_steps_prefix gamma store pathtoloc tfmt method :
  forall rest scales t X B ts Xs ts' Xs',
    integrate_steps store_key solve_ivp gamma store pathtoloc tfmt method
                    rest scales t X B ts Xs = Ok (ts', Xs') ->
    exists a b, ts' = ts ++ a /\ Xs' = Xs ++ b.
Proof.
  induction rest as [|tnew rest IH]; intros scales t X B ts Xs ts' Xs' H.
  - simpl in H. injection H as <- <-. exists [], []. now rewrite !app_nil_r.
  - destruct scales as [|scale scales]; simpl in H.
    + injection H as <- <-. exists [], []. now rewrite !app_nil_r.
    + destruct (refresh_matrix _ _ _ _ _ _) as [B'|]; cbn [bind] in H;
        [|discriminate].
      destruct (solve_ivp _ _ _ _ _) as [sol|]; cbn [bind] in H;
        [|discriminate].
      destruct (success sol); cbn [negb] in H; [|discriminate].
      destruct (last_item (sol_y sol)) as [Xnew|]; cbn [bind] in H;
        [|discriminate].
      destruct (IH _ _ _ _ _ _ _ _ H) as (a & b & -> & ->).
      eexists. eexists. rewrite <- !app_assoc. split; reflexivity.
Qed.

(** X18.  With a single date and no scale [integrate_sir] returns the
    initial condition, split into its two halves, as the only sample;
    the solver is not consulted. *)
Theorem integrate_sir_single_time (Xi : vec) (t : Z) (gamma : R)
    (store : Store) (pathtoloc tfmt method_solver : string) (B : ndarray2) :
  read_df store_key t tfmt store pathtoloc = Ok B ->
  length Xi = (2 * shape0 B)%nat ->
  integrate_sir store_key solve_ivp Xi [t] [] gamma store pathtoloc tfmt
                method_solver
  = Ok ([t], [firstn (shape0 B) Xi], [skipn (shape0 B) Xi]).
Proof.
  intros HB HX. unfold integrate_sir. cbn [bind]. rewrite HB. cbn [bind].
  cbn [length Nat.sub Nat.eqb negb tl integrate_steps bind map_result].
  unfold sir_X_to_SI. rewrite HX, Nat.eqb_refl. reflexivity.
Qed.

(** X19.  When the number of scales is not the number of dates minus
    one, [integrate_sir] raises a [ValueError] whose message names the
    required length; the first matrix has been read by then, the solver
    has not been called. *)
Theorem integrate_sir_scales_length (Xi : vec) (t : Z) (rest : list Z)
    (scales : list R) (gamma : R) (store : Store)
    (pathtoloc tfmt method_solver : string) (B : ndarray2) :
  read_df store_key t tfmt store pathtoloc = Ok B ->
  length scales <> length rest ->
  integrate_sir store_key solve_ivp Xi (t :: rest) scales gamma store
                pathtoloc tfmt method_solver
  = Raise (ValueError ("`scales` must be of length " ++
                       NilZero.string_of_uint (Nat.to_uint (length rest)))).
Proof.
  intros HB Hne. unfold integrate_sir. cbn [bind]. rewrite HB. cbn [bind].
  cbn [length]. rewrite Nat.sub_succ, Nat.sub_0_r.
  apply Nat.eqb_neq in Hne. rewrite Hne. reflexivity.
Qed.

(** X20.  Whenever [integrate_sir] returns, its first sample is the
    initial condition at the first date: the first rows of [Ss] and [Is]
    packed together are [Xi]. *)
Theorem integrate_sir_initial_state (Xi : vec) (times : list Z)
    (scales : list R) (gamma : R) (store : Store)
    (pathtoloc tfmt method_solver : string)
    (ts : list Z) (Ss Is : list vec) :
  integrate_sir store_key solve_ivp Xi times scales gamma store pathtoloc
                tfmt method_solver = Ok (ts, Ss, Is) ->
  exists t0 ts' S0 Ss' I0 Is',
    hd_error times = Some t0 /\
    ts = t0 :: ts' /\ Ss = S0 :: Ss' /\ Is = I0 :: Is' /\
    sir_SI_to_X S0 I0 = Xi.
Proof.
  unfold integrate_sir. intros H.
  destruct times as [|t0 rest]; cbn [bind] in H; [discriminate|].
  destruct (read_df _ _ _ _ _) as [B|]; cbn [bind] in H; [|discriminate].
  destruct (negb _); [discriminate|].
  destruct (integrate_steps _ _ _ _ _ _ _ _ _ _ _ _ _ _) as [[ts1 Xs1]|] eqn:Hs;
    cbn [bind] in H; [|discriminate].
  destruct (integrate_steps_prefix _ _ _ _ _ _ _ _ _ _ _ _ _ _ Hs)
    as (a & b & -> & ->).
  destruct (map_result _ _) as [SIs|] eqn:Hm; cbn [bind] in H; [|discriminate].
  injection H as <- <- <-.
  cbn [app] in Hm. apply map_result_cons_inv in Hm.
  destruct Hm as ([S0 I0] & SIs' & -> & H0 & _).
  exists t0, a, S0, (map fst SIs'), I0, (map snd SIs').
  repeat split.
  unfold sir_X_to_SI in H0.
  destruct (length Xi =? 2 * shape0 B)%nat; [|discriminate].
  injection H0 as <- <-. apply firstn_skipn.
Qed.

End EngineProperties.

Lemma integrate_sir_single_time_witness :
  integrate_sir ordinal_key euler_ivp [1 / 2; 1 / 2] [0%Z] [] 0
                (dict_store [("loc/0", of_rows [[1]])])
                "loc" "%Y-%m-%d" "DOP853"
  = Ok ([0%Z], [firstn 1 [1 / 2; 1 / 2]], [skipn 1 [1 / 2; 1 / 2]]).
Proof.
  apply (integrate_sir_single_time ordinal_key euler_ivp [1 / 2; 1 / 2] 0 0
           (dict_store [("loc/0", of_rows [[1]])]) "loc" "%Y-%m-%d" "DOP853"
           (of_rows [[1]])); reflexivity.
Defined.

Lemma integrate_sir_scales_length_witness :
  integrate_sir ordinal_key euler_ivp [1 / 2; 1 / 2] [0%Z; 1%Z; 2%Z] [1] 0
                (dict_store [("loc/0", of_rows [[1]])])
                "loc" "%Y-%m-%d" "DOP853"
  = Raise (ValueError "`scales` must be of length 2").
Proof.
  apply (integrate_sir_scales_length ordinal_key euler_ivp [1 / 2; 1 / 2] 0
           [1%Z; 2%Z] [1] 0 (dict_store [("loc/0", of_rows [[1]])])
           "loc" "%Y-%m-%d" "DOP853" (of_rows [[1]]));
    [reflexivity | simpl; lia].
Defined.

Lemma integrate_sir_initial_state_witness :
  exists ts Ss Is t0 ts' S0 Ss' I0 Is',
    integrate_sir ordinal_key euler_ivp [1 / 2; 1 / 2] [0%Z; 2%Z] [1] 0
                  (dict_store [("loc/0", of_rows [[0]])])
                  "loc" "%Y-%m-%d" "DOP853" = Ok (ts, Ss, Is) /\
    hd_error [0%Z; 2%Z] = Some t0 /\
    ts = t0 :: ts' /\ Ss = S0 :: Ss' /\ Is = I0 :: Is' /\
    sir_SI_to_X S0 I0 = [1 / 2; 1 / 2].
Proof.
  do 3 eexists.
  match goal with
  | |- exists t0 ts' S0 Ss' I0 Is', ?run = Ok (?ts, ?Ss, ?Is) /\ _ =>
    assert (Hrun : run = Ok (ts, Ss, Is)) by reflexivity;
    destruct (integrate_sir_initial_state ordinal_key euler_ivp _ _ _ _ _
                _ _ _ _ _ _ Hrun)
      as (t0 & ts' & S0 & Ss' & I0 & Is' & H)
  end.
  exists t0, ts', S0, Ss', I0, Is'. split; [reflexivity | exact H].
Defined.

(* ================================================================== *)
(** ** Shape of what the fit collects *)

Section FitProperties.

Variable store_key : string -> string -> Z -> string.

Variable solve_ivp :
  (R -> vec -> result vec) -> vec -> R -> list R -> string -> result ode_result.

Variable root_scalar : (R -> result float) -> R -> R -> result root_results.

(** [compute_sir_X] returns at most one row. *)
Lemma compute_sir_X_rows X dt B gamma method t_eval rows :
  compute_sir_X solve_ivp X dt B gamma method t_eval = Ok rows ->
  (length rows <= 1)%nat.
Proof.
  unfold compute_sir_X. intros H.
  destruct (solve_ivp _ _ _ _ _) as [sol|]; cbn [bind] in H; [|discriminate].
  destruct (success sol); cbn [negb] in H; [|discriminate].
  injection H as <-. apply last_slice_length.
Qed.

(** X21.  [compute_sir_X] returns the state at the last sample of the
    solver only: whatever times [t_eval] lists, its result has at most
    one row. *)
Theorem compute_sir_X_single_row (X : vec) (dt : Z) (B : ndarray2)
    (gamma : R) (method_solver : string) (t_eval : option (list R))
    (rows : list vec) :
  compute_sir_X solve_ivp X dt B gamma method_solver t_eval = Ok rows ->
  (length rows <= 1)%nat /\
  exists sol,
    solve_ivp (fun t y => func_sir_dX t y B gamma) X (IZR dt)
              (match t_eval with None => [0; IZR dt] | Some l => l end)
              method_solver = Ok sol /\
    rows = last_slice (sol_y sol).
Proof.
  unfold compute_sir_X. intros H.
  destruct (solve_ivp _ _ _ _ _) as [sol|]; cbn [bind] in H; [|discriminate].
  destruct (success sol); cbn [negb] in H; [|discriminate].
  injection H as <-. split; [apply last_slice_length|].
  now exists sol.
Qed.

(** What one step of the fit appends: as many dates as the step has
    days, but a single state. *)
Lemma fit_step_shape gamma population store pathtoloc tfmt method N Y_real
    i tnew st st' :
  fit_step store_key solve_ivp root_scalar gamma population store pathtoloc
           tfmt method N Y_real i tnew st = Ok st' ->
  fit_t st' = tnew /\
  length (fit_ts st') =
    (length (fit_ts st) + (Z.to_nat (tnew - fit_t st + 1) - 1))%nat /\
  length (fit_Xs st') = S (length (fit_Xs st)) /\
  length (fit_Ys st') = S (length (fit_Ys st)) /\
  length (fit_b_scales st') = S (length (fit_b_scales st)).
Proof.
  unfold fit_step. intros H.
  destruct (refresh_matrix _ _ _ _ _ _) as [B|]; cbn [bind] in H;
    [|discriminate].
  destruct (nth_error Y_real i) as [ypred|]; cbn [bind] in H; [|discriminate].
  destruct (fit_bracket _ _) as [bhi|]; cbn [bind] in H; [|discriminate].
  destruct (root_scalar _ _ _) as [sol|]; cbn [bind] in H; [|discriminate].
  destruct (converged sol); cbn [negb] in H; [|discriminate].
  destruct (compute_sir_X _ _ _ _ _ _ _) as [Xnews|] eqn:HX; cbn [bind] in H;
    [|discriminate].
  destruct (last_item Xnews) as [Xnew|] eqn:Hlast; cbn [bind] in H;
    [|discriminate].
  destruct (get_sir_omega_X Xnew population) as [y|]; cbn [bind] in H;
    [|discriminate].
  destruct (map_result _ Xnews) as [rows|] eqn:Hrows; cbn [bind] in H;
    [|discriminate].
  injection H as <-. cbn [fit_t fit_ts fit_Xs fit_Ys fit_b_scales].
  apply compute_sir_X_rows in HX.
  assert (HXn : length Xnews = 1%nat).
  { destruct Xnews as [|x [|x' l]]; simpl in *; [discriminate | reflexivity | lia]. }
  apply map_result_ok in Hrows. destruct Hrows as [Hlen _].
  rewrite !length_app, length_map, length_tl_pred, arange_length, Hlen, HXn.
  simpl. repeat split; lia.
Qed.

Lemma fit_steps_shape gamma population store pathtoloc tfmt method N Y_real :
  forall todo st st',
    Sorted Z.lt (fit_t st :: map snd todo) ->
    fit_steps store_key solve_ivp root_scalar gamma population store
              pathtoloc tfmt method N Y_real todo st = Ok st' ->
    length (fit_ts st') =
      (length (fit_ts st)
       + Z.to_nat (last (map snd todo) (fit_t st) - fit_t st))%nat /\
    length (fit_Xs st') = (length (fit_Xs st) + length todo)%nat.
Proof.
  induction todo as [|[i tnew] todo IH]; intros st st' Hsort H.
  - simpl in H. injection H as <-. simpl. rewrite Z.sub_diag. simpl. lia.
  - simpl in H.
    destruct (fit_step _ _ _ _ _ _ _ _ _ _ _ _ _ _) as [st1|] eqn:Hstep;
      cbn [bind] in H; [|discriminate].
    apply fit_step_shape in Hstep.
    destruct Hstep as (Ht & Hts & HXs & _ & _).
    cbn [map snd] in Hsort.
    apply Sorted_inv in Hsort. destruct Hsort as [Hsort Hhd].
    apply HdRel_inv in Hhd.
    assert (Hsort1 : Sorted Z.lt (fit_t st1 :: map snd todo))
      by now rewrite Ht.
    destruct (IH st1 st' Hsort1 H) as [E1 E2].
    rewrite E1, E2, Hts, HXs, Ht. cbn [map snd length].
    rewrite last_cons_default.
    assert (Hmono : (tnew <= last (map snd todo) tnew)%Z).
    { clear - Hsort. revert Hsort. generalize (map snd todo). intros l.
      revert tnew. induction l as [|a l IHl]; intros t Hs; [simpl; lia|].
      rewrite last_cons_default.
      apply Sorted_inv in Hs. destruct Hs as [Hs Hh]. apply HdRel_inv in Hh.
      specialize (IHl a Hs). lia. }
    split; lia.
Qed.

(** X22.  A fit over strictly increasing dates that skip a day never
    returns its tables: each step records every day of its interval in
    the index but only the state at the end of the interval in the data,
    so the export of the [S] table fails (when nothing failed before). *)
Theorem fit_sir_skipped_day (times : list Z) (T_real : ndarray2) (gamma : R)
    (population : vec) (store : Store)
    (pathtoloc tfmt method_solver : string) (b_scale : R) (t0 : Z) :
  hd_error times = Some t0 ->
  Sorted Z.lt times ->
  (Z.of_nat (length times) - 1 < last times t0 - t0)%Z ->
  exists e,
    fit_sir store_key solve_ivp root_scalar times T_real gamma population
            store pathtoloc tfmt method_solver b_scale = Raise e.
Proof.
  intros Hhd Hsort Hgap.
  destruct (fit_sir _ _ _ _ _ _ _ _ _ _ _ _) as [tabs|e] eqn:H;
    [exfalso | now exists e].
  unfold fit_sir in H.
  destruct times as [|t rest]; [discriminate|].
  injection Hhd as ->. cbn [bind] in H.
  destruct (read_df _ _ _ _ _) as [B|]; cbn [bind] in H; [|discriminate].
  destruct (einsum_ab_b T_real population) as [num|]; cbn [bind] in H;
    [|discriminate].
  destruct (shape0 T_real =? 0)%nat; cbn [bind] in H; [discriminate|].
  destruct (get_sir_omega_X _ population) as [y|]; cbn [bind] in H;
    [|discriminate].
  destruct (sir_X_to_SI _ (shape0 B)) as [X0|]; cbn [bind] in H;
    [|discriminate].
  destruct (fit_steps _ _ _ _ _ _ _ _ _ _ _ _ _) as [st|] eqn:Hs;
    cbn [bind] in H; [|discriminate].
  apply fit_steps_shape in Hs.
  - destruct Hs as [Hts HXs]. cbn [fit_t fit_ts fit_Xs length] in Hts, HXs.
    unfold make_df in H at 1. rewrite length_map in H.
    destruct (length (fit_Xs st) =? length (fit_ts st))%nat eqn:E;
      [|discriminate].
    apply Nat.eqb_eq in E.
    rewrite length_combine, length_seq in HXs.
    cbn [length tl] in HXs, Hts.
    rewrite Nat.sub_succ, Nat.sub_0_r, Nat.min_id in HXs.
    assert (Hsnd : map snd (combine (seq 1 (S (length rest) - 1)) rest) = rest).
    { rewrite Nat.sub_succ, Nat.sub_0_r.
      clear. generalize 1%nat. induction rest as [|a l IH]; intros k;
        [reflexivity|]. simpl. now rewrite IH. }
    rewrite Hsnd in Hts. rewrite last_cons_default in Hgap.
    cbn [length] in Hgap. lia.
  - cbn [fit_t].
    assert (Hsnd : map snd (combine (seq 1 (length (t0 :: rest) - 1))
                                    (tl (t0 :: rest))) = rest).
    { cbn [length tl]. rewrite Nat.sub_succ, Nat.sub_0_r.
      clear. generalize 1%nat. induction rest as [|a l IH]; intros k;
        [reflexivity|]. simpl. now rewrite IH. }
    rewrite Hsnd. exact Hsort.
Qed.

(** X23.  With a single date [fit_sir] fits nothing: it returns one-row
    tables holding the initial condition [S = 1 - T_real[0]],
    [I = T_real[0]], and a row with no scale and the initial aggregate
    fraction, without consulting the solver or the root finder. *)
Theorem fit_sir_single_time (t : Z) (T_real : ndarray2) (gamma : R)
    (population : vec) (store : Store)
    (pathtoloc tfmt method_solver : string) (b_scale : R) (B : ndarray2) :
  read_df store_key t tfmt store pathtoloc = Ok B ->
  shape1 T_real = shape0 B -> length population = shape0 B ->
  (0 < shape0 T_real)%nat ->
  let Inf := row T_real 0 in
  let Sus := map (fun x => 1 - x) Inf in
  exists y,
    get_sir_omega_SI Sus Inf population = Ok y /\
    fit_sir store_key solve_ivp root_scalar [t] T_real gamma population
            store pathtoloc tfmt method_solver b_scale
    = Ok (mk_tables (mkdf [t] [Sus]) (mkdf [t] [Inf])
                    (mkdf [t] [(None, y)])).
Proof.
  intros HB HT HP HN Inf Sus.
  assert (HI : length Inf = length population).
  { unfold Inf, row. rewrite length_map, length_seq. congruence. }
  assert (HS : length Sus = length population).
  { unfold Sus. now rewrite length_map. }
  rewrite (get_sir_omega_SI_eq Sus Inf population HS HI).
  eexists; split; [reflexivity|].
  unfold fit_sir. cbn [bind]. rewrite HB. cbn [bind].
  unfold einsum_ab_b at 1. rewrite HP, HT, Nat.eqb_refl. cbn [bind].
  replace (shape0 T_real =? 0)%nat with false
    by (symmetry; apply Nat.eqb_neq; lia).
  cbn [bind]. fold Inf. fold Sus.
  pose proof (get_sir_omega_SI_eq Sus Inf population HS HI) as Hy.
  unfold get_sir_omega_SI in Hy. rewrite Hy. cbn [bind].
  unfold sir_SI_to_X.
  rewrite (sir_SI_to_X_to_SI_aux Sus Inf (shape0 B)) by congruence.
  cbn [bind]. rewrite ?HP. reflexivity.
Qed.

End FitProperties.

Lemma compute_sir_X_single_row_witness :
  exists rows,
    compute_sir_X euler_ivp [1 / 2; 1 / 2] 2 (of_rows [[1]]) 0 "DOP853"
                  (Some [0; 1; 2]) = Ok rows /\
    (length rows <= 1)%nat.
Proof.
  eexists.
  match goal with
  | |- ?run = Ok ?rows /\ _ =>
    assert (Hrun : run = Ok rows) by reflexivity;
    destruct (compute_sir_X_single_row euler_ivp _ _ _ _ _ _ _ Hrun) as [H _]
  end.
  split; [reflexivity | exact H].
Defined.

Lemma fit_sir_skipped_day_witness :
  exists e,
    fit_sir ordinal_key euler_ivp chord_root_scalar [0%Z; 2%Z]
            (of_rows [[1 / 2]; [3 / 4]]) 0 [1]
            (dict_store [("loc/0", of_rows [[1]])])
            "loc" "%Y-%m-%d" "DOP853" 1 = Raise e.
Proof.
  apply (fit_sir_skipped_day ordinal_key euler_ivp chord_root_scalar
           [0%Z; 2%Z] (of_rows [[1 / 2]; [3 / 4]]) 0 [1]
           (dict_store [("loc/0", of_rows [[1]])])
           "loc" "%Y-%m-%d" "DOP853" 1 0%Z).
  - reflexivity.
  - repeat constructor.
  - simpl. lia.
Defined.

Lemma fit_sir_single_time_witness :
  exists y,
    get_sir_omega_SI (map (fun x => 1 - x) (row (of_rows [[1 / 2]]) 0))
                     (row (of_rows [[1 / 2]]) 0) [1] = Ok y /\
    fit_sir ordinal_key euler_ivp chord_root_scalar [0%Z]
            (of_rows [[1 / 2]]) 0 [1]
            (dict_store [("loc/0", of_rows [[1]])])
            "loc" "%Y-%m-%d" "DOP853" 1
    = Ok (mk_tables
            (mkdf [0%Z] [map (fun x => 1 - x) (row (of_rows [[1 / 2]]) 0)])
            (mkdf [0%Z] [row (of_rows [[1 / 2]]) 0])
            (mkdf [0%Z] [(None, y)])).
Proof.
  apply (fit_sir_single_time ordinal_key euler_ivp chord_root_scalar 0
           (of_rows [[1 / 2]]) 0 [1] (dict_store [("loc/0", of_rows [[1]])])
           "loc" "%Y-%m-%d" "DOP853" 1 (of_rows [[1]]));
    try reflexivity. simpl. lia.
Defined.

(* ================================================================== *)
(** ** The discrete Laplacians *)

Lemma py_index_nonneg n k :
  (k < n)%nat -> py_index n (Z.of_nat k) = Ok k.
Proof.
  intros H. unfold py_index.
  replace ((0 <=? Z.of_nat k) && (Z.of_nat k <? Z.of_nat n))%Z with true
    by (symmetry; apply andb_true_iff; split;
        [apply Z.leb_le | apply Z.ltb_lt]; lia).
  now rewrite Nat2Z.id.
Qed.

Lemma py_index_neg n k :
  (1 <= k <= n)%nat -> py_index n (- Z.of_nat k) = Ok (n - k)%nat.
Proof.
  intros H. unfold py_index.
  replace (0 <=? - Z.of_nat k)%Z with false
    by (symmetry; apply Z.leb_gt; lia).
  cbn [andb].
  replace ((- Z.of_nat n <=? - Z.of_nat k) && (- Z.of_nat k <? 0))%Z with true
    by (symmetry; apply andb_true_iff; split;
        [apply Z.leb_le | apply Z.ltb_lt]; lia).
  f_equal. lia.
Qed.

Lemma py_index_above n k :
  (Z.of_nat n <= k)%Z -> py_index n k = Raise IndexError.
Proof.
  intros H. unfold py_index.
  replace (k <? Z.of_nat n)%Z with false by (symmetry; apply Z.ltb_ge; lia).
  rewrite andb_false_r.
  replace (k <? 0)%Z with false by (symmetry; apply Z.ltb_ge; lia).
  now rewrite andb_false_r.
Qed.

Lemma py_index_below n k :
  (k < - Z.of_nat n)%Z -> py_index n k = Raise IndexError.
Proof.
  intros H. unfold py_index.
  replace (0 <=? k)%Z with false by (symmetry; apply Z.leb_gt; lia).
  replace (- Z.of_nat n <=? k)%Z with false by (symmetry; apply Z.leb_gt; lia).
  reflexivity.
Qed.

(** What [laplacian_discrete] computes on an array with at least one
    column. *)
Lemma laplacian_discrete_entries (X : ndarray2) :
  (0 < shape1 X)%nat ->
  exists L, laplacian_discrete X = Ok L /\
    shape0 L = shape0 X /\ shape1 L = shape1 X /\
    forall i j, (i < shape0 X)%nat -> (j < shape1 X)%nat ->
      entry L i j = laplacian_stencil X i j.
Proof.
  intros HM. unfold laplacian_discrete, get_col.
  assert (E0 : py_index (shape1 X) 0 = Ok 0%nat)
    by (apply (py_index_nonneg _ 0); lia).
  assert (E1 : py_index (shape1 X) (-1) = Ok (shape1 X - 1)%nat)
    by (apply (py_index_neg _ 1); lia).
  rewrite E0, E1.
  unfold msub, madd.
  cbn [shape0 shape1 diff_axis0 diff_axis1 append_row prepend_row
       append_col prepend_col bind].
  rewrite !Nat.add_sub, !Nat.eqb_refl. cbn [andb bind shape0 shape1].
  rewrite !Nat.eqb_refl. cbn [andb].
  eexists; split; [reflexivity|]. cbn [shape0 shape1 entry].
  split; [reflexivity|]. split; [reflexivity|].
  intros i j Hi Hj. unfold laplacian_stencil.
  cbn [entry shape0 shape1 diff_axis0 diff_axis1 append_row prepend_row
       append_col prepend_col].
  replace (i <? shape0 X)%nat with true by (symmetry; apply Nat.ltb_lt; lia).
  replace (j <? shape1 X)%nat with true by (symmetry; apply Nat.ltb_lt; lia).
  replace (i + 1 =? 0)%nat with false by (symmetry; apply Nat.eqb_neq; lia).
  replace (j + 1 =? 0)%nat with false by (symmetry; apply Nat.eqb_neq; lia).
  rewrite !Nat.add_sub.
  destruct (i =? 0)%nat; destruct (i + 1 <? shape0 X)%nat;
    destruct (j =? 0)%nat; destruct (j + 1 <? shape1 X)%nat; ring.
Qed.






(** X26.  On an array with fewer than two rows or fewer than two columns
    the two Laplacians part ways: [laplacian_discrete_slow] raises
    [IndexError], while [laplacian_discrete] still returns an array as
    long as there is at least one column. *)
Theorem laplacian_discrete_slow_small (X : ndarray2) :
  (shape0 X < 2)%nat \/ (shape1 X < 2)%nat ->
  laplacian_discrete_slow X = Raise IndexError /\
  ((0 < shape1 X)%nat -> is_ok (laplacian_discrete X) = true).
Proof.
  intros Hsmall. split.
  - unfold laplacian_discrete_slow, get_row, get_col, set_row, set_col.
    cbn [shape0 shape1 zeros2 set_rows set_cols].
    destruct (Nat.lt_ge_cases (shape0 X) 2) as [HN|HN].
    + rewrite (py_index_above (shape0 X) 1) by lia. reflexivity.
    + assert (HM : (shape1 X < 2)%nat) by lia.
      assert (R0 : py_index (shape0 X) 0 = Ok 0%nat)
        by (apply (py_index_nonneg _ 0); lia).
      assert (R1 : py_index (shape0 X) 1 = Ok 1%nat)
        by (apply (py_index_nonneg _ 1); lia).
      assert (Rm1 : py_index (shape0 X) (-1) = Ok (shape0 X - 1)%nat)
        by (apply (py_index_neg _ 1); lia).
      assert (Rm2 : py_index (shape0 X) (-2) = Ok (shape0 X - 2)%nat)
        by (apply (py_index_neg _ 2); lia).
      rewrite R0, R1, Rm1, Rm2.
      repeat (progress (cbn [bind shape0 shape1]; rewrite ?R0, ?Rm1)).
      destruct (Nat.eq_dec (shape1 X) 0) as [HM0|HM0].
      * rewrite (py_index_below (shape1 X) (-1)) by lia. reflexivity.
      * assert (Cm1 : py_index (shape1 X) (-1) = Ok (shape1 X - 1)%nat)
          by (apply (py_index_neg _ 1); lia).
        rewrite Cm1. cbn [bind].
        rewrite (py_index_above (shape1 X) 1) by lia. reflexivity.
  - intros HM.
    destruct (laplacian_discrete_entries X HM) as (L & HL & _).
    now rewrite HL.
Qed.

Lemma laplacian_discrete_slow_small_witness :
  laplacian_discrete_slow (of_rows [[1; 2; 3]]) = Raise IndexError /\
  ((0 < 3)%nat -> is_ok (laplacian_discrete (of_rows [[1; 2; 3]])) = true).
Proof.
  apply (laplacian_discrete_slow_small (of_rows [[1; 2; 3]])).
  left. simpl. lia.
Defined.

(* ================================================================== *)
(** ** Helper functions *)

(** X27.  [geo_dist] does not depend on the order of its two points,
    and the distance of a point to itself is zero. *)
Theorem geo_dist_symmetric (M1 M2 : R * R) :
  geo_dist M1 M2 = geo_dist M2 M1 /\ geo_dist M1 M1 = Fin 0.
Proof.
  destruct M1 as [p1 l1], M2 as [p2 l2]. unfold geo_dist. split.
  - replace (1 / 2 * (p2 + p1) * PI / 180) with (1 / 2 * (p1 + p2) * PI / 180)
      by (unfold Rdiv; ring).
    f_equal. unfold Rdiv. ring.
  - replace (((p1 - p1) * PI / 180) ^ 2
             + cos (1 / 2 * (p1 + p1) * PI / 180) * ((l1 - l1) * PI / 180) ^ 2)
      with 0 by (unfold Rdiv; ring).
    unfold np_sqrt. destruct (Rlt_dec 0 0) as [H|_]; [exfalso; lra|].
    now rewrite sqrt_0.
Qed.

(** X28.  For a non-negative amplitude [a] the sigmoid stays between
    its two plateaus [c] and [a + c], both included, and takes the value
    half way, [a/2 + c], at [x = b]. *)
Theorem fsigmoid_range (x a b c d : R) :
  0 <= a ->
  exists y, fsigmoid x [a; b; c; d] = Ok y /\ c <= y <= a + c /\
            fsigmoid b [a; b; c; d] = Ok (a / 2 + c).
Proof.
  intros Ha. unfold fsigmoid. eexists; split; [reflexivity|].
  pose proof (exp_pos (d * (x - b))) as He.
  assert (Hden : 0 < 1 + exp (d * (x - b))) by lra.
  assert (Hinv : 0 < / (1 + exp (d * (x - b))) <= 1).
  { split; [now apply Rinv_0_lt_compat|].
    rewrite <- Rinv_1 at 2. apply Rinv_le_contravar; lra. }
  split; [split|].
  - unfold Rdiv. nra.
  - unfold Rdiv. nra.
  - replace (d * (b - b)) with 0 by ring. rewrite exp_0.
    replace (a / (1 + 1) + c) with (a / 2 + c) by field. reflexivity.
Qed.

Lemma fsigmoid_range_witness :
  exists y, fsigmoid 3 [2; 1; 5; 1] = Ok y /\ 5 <= y <= 2 + 5 /\
            fsigmoid 1 [2; 1; 5; 1] = Ok (2 / 2 + 5).
Proof. apply fsigmoid_range. lra. Defined.

(** X29.  For a non-negative slope [c] the soft ramp [framp] is
    non-negative and lies above the hard ramp [c * a * (x - b)]. *)
Theorem framp_above_ramp (x a b c : R) :
  0 <= c ->
  0 <= framp x a b c /\ c * (a * (x - b)) <= framp x a b c.
Proof.
  intros Hc. unfold framp. rewrite exp_0.
  pose proof (exp_pos (a * (x - b))) as He.
  assert (H0 : 0 < ln (1 + exp (a * (x - b)))).
  { rewrite <- ln_1. apply ln_increasing; lra. }
  assert (H1 : a * (x - b) < ln (1 + exp (a * (x - b)))).
  { rewrite <- (ln_exp (a * (x - b))) at 1. apply ln_increasing; lra. }
  split.
  - apply Rmult_le_pos; lra.
  - apply Rmult_le_compat_l; lra.
Qed.

Lemma framp_above_ramp_witness :
  0 <= framp 3 1 1 2 /\ 2 * (1 * (3 - 1)) <= framp 3 1 1 2.
Proof. apply framp_above_ramp. lra. Defined.
